(** * Image access layer of bulk_extractor: [image_process.cpp]

    A shallow embedding of the segment table, the positional readers,
    the cursor and the page producer of [src/image_process.cpp], with
    the properties of the image-access specification settled against it.

    Conventions.
    - [uint64_t] and [size_t] values are [Z] in [0, 2^64); every
      arithmetic result is reduced with [wrap64].  [ssize_t] and [int]
      results go through [ssize_of] and [int_of] (two's complement).
    - A C++ exception is [Throw e]; behaviour the C++ standard leaves
      undefined (a stray printf directive, an index past a vector) is
      [Undefined].
    - The operating system is a record of oracles, [filesystem]. *)

From Equations.Prop Require Import Equations Logic.
From Stdlib Require Import ZArith List String Ascii Bool Lia Init.Byte.
From Stdlib Require Import Numbers.DecimalString Wellfounded Sorting.Sorted.
From Stdlib Require Strings.Byte.
Import ListNotations.
Local Open Scope Z_scope.

(** ** Machine integers *)

Module Int.

Definition two64 : Z := 2 ^ 64.

(** Result of an unsigned 64-bit operation. *)
Definition wrap64 (z : Z) : Z := z mod two64.

(** Conversion to a signed type of [w] bits. *)
Definition signed (w : Z) (z : Z) : Z :=
  let m := z mod 2 ^ w in
  if m <? 2 ^ (w - 1) then m else m - 2 ^ w.

Definition ssize_of (z : Z) : Z := signed 64 z.
Definition int_of (z : Z) : Z := signed 32 z.

End Int.
Import Int.

(** ** Exceptions and results *)

Inductive exn : Type :=
| NoSuchFile (what : string)
| IsADirectory (what : string)
| FoundDiskImage (what : string)
| NoSupport (what : string)
| SeekError
| ReadError
| EndOfImage
| read_error
| filesystem_error
| runtime_error (what : string)
| assertion_failed.

Inductive result (A : Type) : Type :=
| Ok (a : A)
| Throw (e : exn)
| Undefined.
Arguments Ok {A} a.
Arguments Throw {A} e.
Arguments Undefined {A}.

Definition bind {A B : Type} (r : result A) (k : A -> result B) : result B :=
  match r with
  | Ok a => k a
  | Throw e => Throw e
  | Undefined => Undefined
  end.

Notation "x <- r ;; k" := (bind r (fun x => k))
  (at level 61, r at next level, right associativity).

Definition result_map {A B : Type} (f : A -> B) (r : result A) : result B :=
  x <- r ;; Ok (f x).

(** ** Streams

    [std::ifstream] as the reader uses it: the bytes behind the stream
    and the error bits it carries.  Every [pread] seeks before it reads,
    so the get position is not part of the state; a read that succeeds
    leaves the error bits as they were, and one that fails ends in an
    exception, so one call of [pread] is a function of the table it is
    given. *)

Record iostate : Type := {
  failbit : bool;
  badbit : bool;
  eofbit : bool
}.

Definition goodbit : iostate :=
  {| failbit := false; badbit := false; eofbit := false |}.

Record ifstream : Type := {
  content : list byte;
  rdstate : iostate
}.

(** [stream.seekg(pos)]: nothing happens on a stream that already
    failed; a position that is negative as a [streamoff] fails. *)
Definition seekg (s : ifstream) (pos : Z) : iostate :=
  let st := rdstate s in
  if failbit st || badbit st then st
  else if 2 ^ 63 <=? pos
       then {| failbit := true; badbit := badbit st; eofbit := false |}
       else {| failbit := false; badbit := false; eofbit := false |}.

(** [stream.read(buf, n)] at position [pos], on a stream in state [st]:
    the bytes stored and the state afterwards.  Running into the end of
    the file sets [eofbit] and [failbit] together. *)
Definition stream_read (s : ifstream) (st : iostate) (pos n : Z)
  : list byte * iostate :=
  if failbit st || badbit st || eofbit st then
    ([], {| failbit := true; badbit := badbit st; eofbit := eofbit st |})
  else
    let avail := skipn (Z.to_nat pos) (content s) in
    if (n <? 2 ^ 63) && (n <=? Z.of_nat (List.length avail)) then
      (firstn (Z.to_nat n) avail, st)
    else
      (avail, {| failbit := true; badbit := false; eofbit := true |}).

(** ** Segment table *)

(** Modelled from the spec: the class [file_info] is declared in
    [image_process.h], which is not among the sources; the spec gives a
    Segment as [{path, start_offset: u64, length: u64}], and the
    constructor call [file_info(path, raw_filesize, path_filesize)]
    gives the order of the fields.  The stream is the one [pread]
    seeks and reads. *)
Record file_info : Type := {
  fi_path : string;
  fi_offset : Z;
  fi_length : Z;
  fi_stream : ifstream
}.

Definition file_list_t : Type := list file_info.

(** [process_raw::find_offset]: linear search, first match. *)
Fixpoint find_offset (file_list : file_list_t) (pos : Z) : option file_info :=
  match file_list with
  | [] => None
  | it :: rest =>
      if (fi_offset it <=? pos) && (pos <? wrap64 (fi_offset it + fi_length it))
      then Some it
      else find_offset rest pos
  end.

(** ** Segmented-raw positional reader *)

(** What one activation of [process_raw::pread] does before it either
    returns or calls itself. *)
Inductive pread_action : Type :=
| Return (n : Z) (data : list byte)
| Raise (e : exn)
| Recurse (bytes_read : Z) (data : list byte) (bytes' offset' : Z).

Definition pread_body (file_list : file_list_t) (bytes offset : Z)
  : pread_action :=
  match find_offset file_list offset with
  | None => Return 0 []
  | Some fi =>
      if negb (fi_offset fi <=? offset) then Raise assertion_failed
      else if negb (offset <? wrap64 (fi_offset fi + fi_length fi))
      then Raise assertion_failed
      else
        let file_offset := wrap64 (offset - fi_offset fi) in
        let available_bytes := wrap64 (fi_length fi - file_offset) in
        let bytes_to_read :=
          if bytes >? available_bytes then available_bytes else bytes in
        let st := seekg (fi_stream fi) file_offset in
        if failbit st || badbit st then Raise SeekError
        else
          let '(data, st') := stream_read (fi_stream fi) st file_offset bytes_to_read in
          if failbit st' then Raise ReadError
          else if badbit st' then Raise ReadError
          else if eofbit st' then Raise EndOfImage
          else
            let bytes_read := bytes_to_read in
            if bytes_read =? bytes then Return (ssize_of bytes_read) data
            else if bytes_read =? 0 then Return 0 data
            else Recurse bytes_read data
                         (wrap64 (bytes - bytes_read))
                         (wrap64 (offset + bytes_read))
  end.

(** [process_raw::pread].  The count of a recursive call is smaller than
    the caller's, which is what the definition recurses on. *)
Equations? pread (file_list : file_list_t) (bytes offset : Z)
  : result (Z * list byte) by wf (Z.to_nat bytes) lt :=
pread file_list bytes offset with inspect (pread_body file_list bytes offset) := {
  | exist _ (Return n data) _ => Ok (n, data)
  | exist _ (Raise e) _ => Throw e
  | exist _ (Recurse bytes_read data bytes' offset') Hbody =>
      match pread file_list bytes' offset' with
      | Ok (bytes_read2, data2) =>
          if bytes_read2 <? 0 then Ok (-1, data ++ data2)
          else Ok (ssize_of (wrap64 (bytes_read + bytes_read2)), data ++ data2)
      | Throw e => Throw e
      | Undefined => Undefined
      end }.
Proof.
  unfold pread_body in Hbody.
  destruct (find_offset file_list offset) as [fi|]; [|discriminate].
  destruct (negb (fi_offset fi <=? offset)); [discriminate|].
  destruct (negb (offset <? wrap64 (fi_offset fi + fi_length fi))); [discriminate|].
  destruct (failbit _ || badbit _); [discriminate|].
  destruct (stream_read _ _ _ _) as [d st'].
  destruct (failbit st'); [discriminate|].
  destruct (badbit st'); [discriminate|].
  destruct (eofbit st'); [discriminate|].
  set (av := wrap64 (fi_length fi - wrap64 (offset - fi_offset fi))) in *.
  assert (Hav : 0 <= av < two64) by (apply Z.mod_pos_bound; reflexivity).
  destruct (Z.gtb_spec bytes av) as [Hgt|Hle].
  - destruct (Z.eqb_spec av bytes); [discriminate|].
    destruct (Z.eqb_spec av 0); [discriminate|].
    inversion Hbody; subst.
    assert (0 <= wrap64 (bytes - av) < two64) by (apply Z.mod_pos_bound; reflexivity).
    assert (wrap64 (bytes - av) <= bytes - av)
      by (apply Z.mod_le; [lia | reflexivity]).
    lia.
  - rewrite Z.eqb_refl in Hbody. discriminate.
Qed.

(** ** Cursor and page *)

(** Modelled from the spec: [image_process::iterator] is declared in
    [image_process.h], which is not among the sources.  The spec gives
    the Cursor as [{raw_offset: u64 | file_index: usize, eof: bool}];
    the code reads and writes [raw_offset], [file_number] and [eof]. *)
Record iterator : Type := {
  raw_offset : Z;
  file_number : Z;
  eof : bool
}.

(** Modelled from the spec: the constructor [iterator(this)] of the
    missing header; a cursor made by [begin()] is at offset 0 and not at
    its end. *)
Definition new_iterator : iterator :=
  {| raw_offset := 0; file_number := 0; eof := false |}.

Definition set_raw_offset (it : iterator) (v : Z) : iterator :=
  {| raw_offset := v; file_number := file_number it; eof := eof it |}.

Definition set_file_number (it : iterator) (v : Z) : iterator :=
  {| raw_offset := raw_offset it; file_number := v; eof := eof it |}.

Definition set_eof (it : iterator) (v : bool) : iterator :=
  {| raw_offset := raw_offset it; file_number := file_number it; eof := v |}.

(** Modelled from the spec: [pos0_t] and [sbuf_t] belong to be20_api,
    which is not among the sources.  The spec gives the Provenance Tag
    as [{parent_label, byte_offset}] and the Page as [{address, buffer,
    usable_length, total_length}]; [sbuf_malloc (pos0, len, pagesize)]
    makes a page of [len] bytes of which [pagesize] are usable.
    [sbuf_buf] holds the bytes the read stored in the buffer. *)
Record pos0_t : Type := {
  pos0_path : string;
  pos0_offset : Z
}.

Record sbuf_t : Type := {
  sbuf_pos0 : pos0_t;
  sbuf_bufsize : Z;
  sbuf_pagesize : Z;
  sbuf_buf : list byte
}.

Definition sbuf_malloc (pos0 : pos0_t) (len pagesize : Z) (data : list byte)
  : sbuf_t :=
  {| sbuf_pos0 := pos0; sbuf_bufsize := len; sbuf_pagesize := pagesize;
     sbuf_buf := data |}.

(** ** Backends

    Modelled from the spec: the classes [process_raw], [process_ewf]
    and [process_dir] are declared in [image_process.h], which is not
    among the sources.  The records hold the members the functions of
    [image_process.cpp] read and write; the spec gives the Image Source
    as [{page_size, margin, total_size_or_count}] plus the state of one
    backend. *)

Record process_raw : Type := {
  raw_fname : string;
  raw_pagesize : Z;
  raw_margin : Z;
  file_list : file_list_t;
  raw_filesize : Z
}.

(** The decoder behind an open libewf handle: for a request of [bytes]
    at [offset], the value [libewf_handle_read_random] returns and the
    bytes it stores. *)
Definition libewf_handle : Type := Z -> Z -> Z * list byte.

Record process_ewf : Type := {
  ewf_fname : string;
  ewf_pagesize : Z;
  ewf_margin : Z;
  ewf_filesize : Z;
  handle : libewf_handle
}.

Record process_dir : Type := {
  dir_fname : string;
  files : list string
}.

Inductive image_process : Type :=
| Raw (this : process_raw)
| Ewf (this : process_ewf)
| Dir (this : process_dir).

Definition byte_addressed (ip : image_process) : bool :=
  match ip with
  | Raw _ | Ewf _ => true
  | Dir _ => false
  end.

Definition pagesize (ip : image_process) : Z :=
  match ip with
  | Raw r => raw_pagesize r
  | Ewf e => ewf_pagesize e
  | Dir _ => 0
  end.

Definition margin (ip : image_process) : Z :=
  match ip with
  | Raw r => raw_margin r
  | Ewf e => ewf_margin e
  | Dir _ => 0
  end.

(** *** process_ewf *)

Module process_ewf_.

(** [process_ewf::pread], new libewf API: [int ret = ...; return ret]. *)
Definition pread (this : process_ewf) (bytes offset : Z)
  : result (Z * list byte) :=
  let '(r, data) := handle this bytes offset in
  let ret := int_of r in
  Ok (ret, data).

Definition image_size (this : process_ewf) : Z :=
  ssize_of (ewf_filesize this).

Definition begin (this : process_ewf) : iterator :=
  set_raw_offset new_iterator 0.

Definition end_ (this : process_ewf) : iterator :=
  set_eof (set_raw_offset new_iterator (ewf_filesize this)) true.

Definition get_pos0 (this : process_ewf) (it : iterator) : pos0_t :=
  {| pos0_path := ""; pos0_offset := raw_offset it |}.

Definition sbuf_alloc (this : process_ewf) (it : iterator)
  : iterator * result (option sbuf_t) :=
  let count := wrap64 (ewf_pagesize this + ewf_margin this) in
  let this_pagesize := ewf_pagesize this in
  let count :=
    if ewf_filesize this <? wrap64 (raw_offset it + count)
    then wrap64 (ewf_filesize this - raw_offset it)
    else count in
  let this_pagesize :=
    if this_pagesize >? count then count else this_pagesize in
  match pread this count (raw_offset it) with
  | Ok (r, data) =>
      let count_read := int_of r in
      if count_read <? 0 then (it, Throw read_error)
      else if count =? 0 then (set_eof it true, Ok None)
      else (it, Ok (Some (sbuf_malloc (get_pos0 this it) count this_pagesize data)))
  | Throw e => (it, Throw e)
  | Undefined => (it, Undefined)
  end.

Definition increment_iterator (this : process_ewf) (it : iterator) : iterator :=
  let it := set_raw_offset it (wrap64 (raw_offset it + ewf_pagesize this)) in
  if raw_offset it >? ewf_filesize this
  then set_raw_offset it (ewf_filesize this)
  else it.

Definition seek_block (this : process_ewf) (it : iterator) (block : Z)
  : iterator * Z :=
  (set_raw_offset it (wrap64 (ewf_pagesize this * block)), block).

End process_ewf_.

(** *** process_raw *)

Module process_raw_.

Definition image_size (this : process_raw) : Z :=
  ssize_of (raw_filesize this).

Definition begin (this : process_raw) : iterator := new_iterator.

Definition end_ (this : process_raw) : iterator :=
  set_eof (set_raw_offset new_iterator (raw_filesize this)) true.

Definition increment_iterator (this : process_raw) (it : iterator) : iterator :=
  let it := set_raw_offset it (wrap64 (raw_offset it + raw_pagesize this)) in
  if raw_offset it >? raw_filesize this
  then set_raw_offset it (raw_filesize this)
  else it.

Definition get_pos0 (this : process_raw) (it : iterator) : pos0_t :=
  {| pos0_path := ""; pos0_offset := raw_offset it |}.

Definition sbuf_alloc (this : process_raw) (it : iterator)
  : iterator * result (option sbuf_t) :=
  let count := wrap64 (raw_pagesize this + raw_margin this) in
  let this_pagesize := raw_pagesize this in
  let count :=
    if raw_filesize this <? wrap64 (raw_offset it + count)
    then wrap64 (raw_filesize this - raw_offset it)
    else count in
  let this_pagesize :=
    if this_pagesize >? count then count else this_pagesize in
  match pread (file_list this) count (raw_offset it) with
  | Ok (r, data) =>
      let count_read := int_of r in
      if count_read =? 0 then (set_eof it true, Throw EndOfImage)
      else if count_read <? 0 then (it, Throw read_error)
      else (it, Ok (Some (sbuf_malloc (get_pos0 this it) count this_pagesize data)))
  | Throw e => (it, Throw e)
  | Undefined => (it, Undefined)
  end.

(** The division is reached only with [block * pagesize > raw_filesize],
    hence with a page size that is not zero. *)
Definition seek_block (this : process_raw) (it : iterator) (block : Z)
  : iterator * Z :=
  let block :=
    if wrap64 (block * raw_pagesize this) >? raw_filesize this
    then raw_filesize this / raw_pagesize this
    else block in
  (set_raw_offset it (wrap64 (block * raw_pagesize this)), block).

End process_raw_.

(** *** process_dir *)

Module process_dir_.

Definition pread (this : process_dir) (bytes offset : Z)
  : result (Z * list byte) :=
  if bytes >? 0
  then Throw (runtime_error "process_dir does not support pread")
  else Ok (0, []).

Definition size (this : process_dir) : Z :=
  wrap64 (Z.of_nat (List.length (files this))).

Definition image_size (this : process_dir) : Z := ssize_of (size this).

Definition begin (this : process_dir) : iterator := new_iterator.

Definition end_ (this : process_dir) : iterator :=
  set_eof (set_file_number new_iterator (size this)) true.

Definition increment_iterator (this : process_dir) (it : iterator) : iterator :=
  let it := set_file_number it (wrap64 (file_number it + 1)) in
  if file_number it >? size this
  then set_file_number it (size this)
  else it.

Definition seek_block (this : process_dir) (it : iterator) (block : Z)
  : iterator * Z :=
  let it := set_file_number it block in
  (it, file_number it).

End process_dir_.

(** *** The shared contract (virtual dispatch) *)

Definition total_size (ip : image_process) : Z :=
  match ip with
  | Raw r => raw_filesize r
  | Ewf e => ewf_filesize e
  | Dir d => process_dir_.size d
  end.

Definition begin (ip : image_process) : iterator :=
  match ip with
  | Raw r => process_raw_.begin r
  | Ewf e => process_ewf_.begin e
  | Dir d => process_dir_.begin d
  end.

Definition end_ (ip : image_process) : iterator :=
  match ip with
  | Raw r => process_raw_.end_ r
  | Ewf e => process_ewf_.end_ e
  | Dir d => process_dir_.end_ d
  end.

Definition increment_iterator (ip : image_process) (it : iterator) : iterator :=
  match ip with
  | Raw r => process_raw_.increment_iterator r it
  | Ewf e => process_ewf_.increment_iterator e it
  | Dir d => process_dir_.increment_iterator d it
  end.

Definition seek_block (ip : image_process) (it : iterator) (block : Z)
  : iterator * Z :=
  match ip with
  | Raw r => process_raw_.seek_block r it block
  | Ewf e => process_ewf_.seek_block e it block
  | Dir d => process_dir_.seek_block d it block
  end.

(** [it] after [n] applications of [operator++]. *)
Fixpoint advance (ip : image_process) (n : nat) (it : iterator) : iterator :=
  match n with
  | O => it
  | S n' => increment_iterator ip (advance ip n' it)
  end.

(** ** Strings and paths *)

Local Open Scope string_scope.

(** [std::string::find (pat)]: position of the first occurrence. *)
Fixpoint find (s pat : string) : option nat :=
  if prefix pat s then Some O
  else match s with
       | EmptyString => None
       | String _ s' => option_map S (find s' pat)
       end.

(** [std::string::rfind (pat)]: position of the last occurrence. *)
Fixpoint rfind (s pat : string) : option nat :=
  match s with
  | EmptyString => if prefix pat s then Some O else None
  | String _ s' =>
      match rfind s' pat with
      | Some p => Some (S p)
      | None => if prefix pat s then Some O else None
      end
  end.

(** [str.substr (pos)]: from [pos] to the end. *)
Definition substr_from (s : string) (pos : nat) : string :=
  substring pos (String.length s - pos) s.

(** [str.replace (pos, n, by)]. *)
Definition replace (s : string) (pos n : nat) (by_ : string) : string :=
  substring 0 pos s ++ by_ ++ substr_from s (pos + n).

Definition is_digit (c : ascii) : bool :=
  let n := nat_of_ascii c in (48 <=? n)%nat && (n <=? 57)%nat.

Fixpoint atoi_digits (s : string) (acc : Z) : Z :=
  match s with
  | EmptyString => acc
  | String c s' =>
      if is_digit c
      then atoi_digits s' (10 * acc + Z.of_nat (nat_of_ascii c - 48))
      else acc
  end.

(** [atoi] on a string that starts with its digits, as the three
    characters cut out by [make_list_template] do. *)
Definition atoi (s : string) : Z := atoi_digits s 0.

(** [::tolower] in the C locale, and [std::transform] with it. *)
Definition tolower (c : ascii) : ascii :=
  let n := nat_of_ascii c in
  if (65 <=? n)%nat && (n <=? 90)%nat then ascii_of_nat (n + 32) else c.

Fixpoint transform_tolower (s : string) : string :=
  match s with
  | EmptyString => EmptyString
  | String c s' => String (tolower c) (transform_tolower s')
  end.

(** [std::filesystem::path::filename] and [extension] on a POSIX path
    held as its string. *)
Definition filename (p : string) : string :=
  match rfind p "/" with
  | Some i => substr_from p (S i)
  | None => p
  end.

Definition extension (p : string) : string :=
  let f := filename p in
  if String.eqb f "." || String.eqb f ".." then ""
  else match rfind f "." with
       | None => ""
       | Some O => ""
       | Some i => substr_from f i
       end.

(** *** printf with one [int] argument *)

Definition decimal (n : Z) : string :=
  NilZero.string_of_uint (N.to_uint (Z.to_N n)).

Fixpoint zeros (n : nat) : string :=
  match n with
  | O => ""
  | S n' => String "0" (zeros n')
  end.

Definition zero_pad (width : nat) (digits : string) : string :=
  zeros (width - String.length digits) ++ digits.

(** The conversion [%03d]. *)
Definition format_03d (num : Z) : string :=
  if (num <? 0)%Z then "-" ++ zero_pad 2 (decimal (- num))
  else zero_pad 3 (decimal num).

(** The characters [printf] produces for [fmt] with the only argument
    [arg]: [%03d] takes the argument, [%%] is a percent sign, and any
    other directive, or a second [%03d], has no argument to take. *)
Fixpoint vformat (fmt : string) (arg : option Z) : result string :=
  match fmt with
  | EmptyString => Ok ""
  | String c rest =>
      if Ascii.eqb c "%" then
        match rest with
        | EmptyString => Undefined
        | String c1 rest1 =>
            if Ascii.eqb c1 "%" then
              s <- vformat rest1 arg ;; Ok (String "%" s)
            else
              match rest1 with
              | String c2 (String c3 rest3) =>
                  if Ascii.eqb c1 "0" && Ascii.eqb c2 "3" && Ascii.eqb c3 "d" then
                    match arg with
                    | Some num => s <- vformat rest3 None ;; Ok (format_03d num ++ s)
                    | None => Undefined
                    end
                  else Undefined
              | _ => Undefined
              end
        end
      else s <- vformat rest arg ;; Ok (String c s)
  end.

(** [snprintf (buf, size, fmt, num)]: at most [size - 1] characters. *)
Definition snprintf (size : nat) (fmt : string) (num : Z) : result string :=
  s <- vformat fmt (Some num) ;; Ok (substring 0 (size - 1) s).

(** *** Split-file names *)

Definition fn_ends_with (path suffix : string) : bool :=
  if (String.length path <? String.length suffix)%nat then false
  else String.eqb (substr_from path (String.length path - String.length suffix)) suffix.

Definition is_multipart_file (fn : string) : bool :=
  fn_ends_with fn ".000" || fn_ends_with fn ".001" || fn_ends_with fn "001.vmdk".

(** [make_list_template]: the template and the first number to probe. *)
Definition make_list_template (path : string) : result (string * Z) :=
  let p := match rfind path "000" with
           | Some p => Some p
           | None => rfind path "001"
           end in
  match p with
  | None => Throw assertion_failed
  | Some p =>
      let start := atoi (substring p 3 path) + 1 in
      Ok (replace path p 3 "%03d", start)
  end.

Local Close Scope string_scope.

(** ** The file system *)

Record directory_entry : Type := {
  entry_path : string;
  is_regular_file : bool
}.

(** What [add_file] finds on a block device: the size [get_filesize]
    returns, or the device cannot be opened ([ReadError]), or the
    probing of [get_filesize] gives up ([SeekError]). *)
Inductive device_size : Type :=
| DeviceSize (size : Z)
| CannotOpen
| CannotSeek.

Record filesystem : Type := {
  (** [std::filesystem::exists], [is_directory], [is_block_file] *)
  fs_exists : string -> bool;
  fs_is_directory : string -> bool;
  fs_is_block_file : string -> bool;
  (** [std::filesystem::file_size]; [None] when it throws *)
  fs_file_size : string -> option Z;
  (** [::open] on a block device followed by [get_filesize] *)
  fs_get_filesize : string -> device_size;
  (** the stream [file_info]'s constructor opens on a path *)
  fs_stream : string -> ifstream;
  (** paths produced by [directory_iterator] *)
  fs_directory_iterator : string -> list string;
  (** entries produced by [recursive_directory_iterator] *)
  fs_recursive_directory_iterator : string -> list directory_entry;
  (** [sbuf_t::map_file] *)
  fs_map_file : string -> result sbuf_t
}.

(** The container decoder as the factory sees it: what
    [process_ewf::open] leaves in [ewf_filesize] and [handle], or the
    exception it throws. *)
Definition libewf_t : Type := string -> result (Z * libewf_handle).

Section Platform.

(** [PATH_MAX] of the platform (65536 when the headers give none),
    whether libewf was compiled in, the file system and the decoder. *)
Variable PATH_MAX : nat.
Variable HAVE_LIBEWF : bool.
Variable fs : filesystem.
Variable libewf : libewf_t.

(** [process_raw::process_raw]: the constructor only passes the name,
    the page size and the margin on; the table is empty and the running
    total is zero until [open] adds the primary file. *)
Definition new_process_raw (fname : string) (pagesize_ margin_ : Z) : process_raw :=
  {| raw_fname := fname; raw_pagesize := pagesize_; raw_margin := margin_;
     file_list := []; raw_filesize := 0 |}.

(** [process_raw::add_file] (POSIX branch). *)
Definition path_filesize (path : string) : result Z :=
  if negb (fs_is_block_file fs path) then
    match fs_file_size fs path with
    | Some sz => Ok (ssize_of sz)
    | None => Throw filesystem_error
    end
  else
    match fs_get_filesize fs path with
    | DeviceSize sz => Ok (ssize_of sz)
    | CannotOpen => Throw ReadError
    | CannotSeek => Throw SeekError
    end.

Definition add_file (this : process_raw) (path : string) : result process_raw :=
  path_filesize <- path_filesize path ;;
  Ok {| raw_fname := raw_fname this;
        raw_pagesize := raw_pagesize this;
        raw_margin := raw_margin this;
        file_list := file_list this ++
          [ {| fi_path := path;
               fi_offset := raw_filesize this;
               fi_length := wrap64 path_filesize;
               fi_stream := fs_stream fs path |} ];
        raw_filesize := wrap64 (raw_filesize this + path_filesize) |}.

(** The probing loop of [process_raw::open], [for (;;num++)].  [None]
    when [fuel] iterations were not enough. *)
Fixpoint probe_loop (fuel : nat) (templ : string) (num : Z) (this : process_raw)
  : option (result process_raw) :=
  match fuel with
  | O => None
  | S fuel' =>
      match snprintf PATH_MAX templ num with
      | Ok probename =>
          if fs_exists fs probename then
            match add_file this probename with
            | Ok this' =>
                if num =? 2 ^ 31 - 1 then Some Undefined
                else probe_loop fuel' templ (num + 1) this'
            | Throw e => Some (Throw e)
            | Undefined => Some Undefined
            end
          else Some (Ok this)
      | Throw e => Some (Throw e)
      | Undefined => Some Undefined
      end
  end.

(** [process_raw::open]; it returns 0 whenever it returns. *)
Definition process_raw_open (fuel : nat) (this : process_raw)
  : option (result process_raw) :=
  match add_file this (raw_fname this) with
  | Ok this1 =>
      if is_multipart_file (raw_fname this) then
        match make_list_template (raw_fname this) with
        | Ok (templ, num) => probe_loop fuel templ num this1
        | Throw e => Some (Throw e)
        | Undefined => Some Undefined
        end
      else Some (Ok this1)
  | Throw e => Some (Throw e)
  | Undefined => Some Undefined
  end.

(** [process_dir::process_dir]: the regular files below the directory. *)
Definition new_process_dir (image_dir : string) : process_dir :=
  {| dir_fname := image_dir;
     files := map entry_path
                  (filter is_regular_file
                          (fs_recursive_directory_iterator fs image_dir)) |}.

(** [process_dir::sbuf_alloc]. *)
Definition process_dir_sbuf_alloc (this : process_dir) (it : iterator)
  : iterator * result (option sbuf_t) :=
  match nth_error (files this) (Z.to_nat (file_number it)) with
  | Some fname => (it, sbuf <- fs_map_file fs fname ;; Ok (Some sbuf))
  | None => (it, Undefined)
  end.

Definition sbuf_alloc (ip : image_process) (it : iterator)
  : iterator * result (option sbuf_t) :=
  match ip with
  | Raw r => process_raw_.sbuf_alloc r it
  | Ewf e => process_ewf_.sbuf_alloc e it
  | Dir d => process_dir_sbuf_alloc d it
  end.

(** The test of the directory scan in [image_process::open]. *)
Definition is_disk_image_entry (p : string) : bool :=
  (String.eqb (extension p) ".E01" ||
   String.eqb (extension p) ".000" ||
   String.eqb (extension p) ".001")%string.

(** [image_process::open], the factory. *)
Definition image_process_open (fuel : nat) (fn : string)
           (opt_recurse : bool) (pagesize_ margin_ : Z)
  : option (result image_process) :=
  let fname_string := fn in
  if negb (fs_exists fs fn) then Some (Throw (NoSuchFile fname_string))
  else if fs_is_directory fs fn then
    if negb opt_recurse then Some (Throw (IsADirectory fname_string))
    else if existsb is_disk_image_entry (fs_directory_iterator fs fn)
    then Some (Throw (FoundDiskImage fname_string))
    else Some (Ok (Dir (new_process_dir fn)))
  else
    let ext := transform_tolower (extension fn) in
    if (String.eqb ext "e01" ||
        match find fname_string ".E01" with Some _ => true | None => false end)%string
    then
      if HAVE_LIBEWF then
        match libewf fn with
        | Ok (size, h) =>
            Some (Ok (Ewf {| ewf_fname := fn; ewf_pagesize := pagesize_;
                             ewf_margin := margin_; ewf_filesize := size;
                             handle := h |}))
        | Throw e => Some (Throw e)
        | Undefined => Some Undefined
        end
      else Some (Throw (NoSupport "This program was compiled without E01 support"))
    else
      match process_raw_open fuel (new_process_raw fn pagesize_ margin_) with
      | Some r => Some (result_map Raw r)
      | None => None
      end.

End Platform.

(** * Specification vocabulary *)

(** The Segment Table invariant: segments lie end to end from [start],
    none of negative length. *)
Fixpoint contiguous (start : Z) (fl : file_list_t) : Prop :=
  match fl with
  | [] => True
  | fi :: rest =>
      fi_offset fi = start /\ 0 <= fi_length fi /\
      contiguous (start + fi_length fi) rest
  end.

Definition sum_lengths (fl : file_list_t) : Z :=
  fold_right (fun fi acc => fi_length fi + acc) 0 fl.

(** A well-formed table covers [0, total) and [total] is a [uint64_t]. *)
Definition well_formed (fl : file_list_t) (total : Z) : Prop :=
  contiguous 0 fl /\ total = sum_lengths fl /\ total < two64.

(** The half-open range test of the specification. *)
Definition in_segment (fi : file_info) (o : Z) : Prop :=
  fi_offset fi <= o < fi_offset fi + fi_length fi.

(** Every segment's stream is in the good state and holds as many bytes
    as the table says, a count that a [streamoff] can hold. *)
Definition readable (fi : file_info) : Prop :=
  rdstate (fi_stream fi) = goodbit /\
  Z.of_nat (List.length (content (fi_stream fi))) = fi_length fi /\
  fi_length fi < 2 ^ 63.

Definition segments_readable (fl : file_list_t) : Prop := Forall readable fl.

(** The logical image: the segments' bytes in table order. *)
Definition image_bytes (fl : file_list_t) : list byte :=
  flat_map (fun fi => content (fi_stream fi)) fl.

(** [n] bytes of [l] from position [o]. *)
Definition slice (l : list byte) (o n : Z) : list byte :=
  firstn (Z.to_nat n) (skipn (Z.to_nat o) l).

(** One activation of [pread] calling the next: callee, then caller. *)
Inductive pread_calls (fl : file_list_t) : Z * Z -> Z * Z -> Prop :=
| pread_calls_intro bytes offset bytes_read data bytes' offset' :
    pread_body fl bytes offset = Recurse bytes_read data bytes' offset' ->
    pread_calls fl (bytes', offset') (bytes, offset).

(** The table [open] is expected to build from the sizes found: each
    segment starts at the running total of the lengths before it. *)
Fixpoint layout (fs : filesystem) (start : Z) (names : list string) (sizes : list Z)
  : file_list_t :=
  match names, sizes with
  | name :: names', sz :: sizes' =>
      {| fi_path := name; fi_offset := start; fi_length := sz;
         fi_stream := fs_stream fs name |} :: layout fs (start + sz) names' sizes'
  | _, _ => []
  end.

Definition sum_sizes (sizes : list Z) : Z := fold_right Z.add 0 sizes.

(** The probes for [num], [num + 1], ... produce the names [sibs] and
    the file system has each of them. *)
Fixpoint probes_present (PATH_MAX : nat) (fs : filesystem) (templ : string)
         (num : Z) (sibs : list string) : Prop :=
  match sibs with
  | [] => True
  | name :: rest =>
      snprintf PATH_MAX templ num = Ok name /\ fs_exists fs name = true /\
      probes_present PATH_MAX fs templ (num + 1) rest
  end.

(** [add_file] finds [sz] bytes, not a negative count, for each name. *)
Definition sizes_found (fs : filesystem) (names : list string) (sizes : list Z) : Prop :=
  Forall2 (fun name sz => path_filesize fs name = Ok sz /\ 0 <= sz) names sizes.

(** [this] with another segment table. *)
Definition with_segments (this : process_raw) (fl : file_list_t) (total : Z)
  : process_raw :=
  {| raw_fname := raw_fname this; raw_pagesize := raw_pagesize this;
     raw_margin := raw_margin this; file_list := fl; raw_filesize := total |}.

(** A name without a percent sign, which [printf] copies as it is. *)
Fixpoint no_percent (s : string) : bool :=
  match s with
  | EmptyString => true
  | String c s' => negb (Ascii.eqb c "%") && no_percent s'
  end.

(** The backend can serve a read of [count] bytes at [offset]: the
    segment table of a split image is well formed and its segments are
    readable; the decoder of a container image reports a count between
    zero and the request, that is, no decoding error. *)
Definition serves (ip : image_process) (offset count : Z) : Prop :=
  match ip with
  | Raw r => well_formed (file_list r) (raw_filesize r) /\
             segments_readable (file_list r)
  | Ewf e => 0 <= fst (handle e count offset) <= count
  | Dir _ => False
  end.

(** The names of a split image, in the specification's terms: the file
    numbered [n] of the family [pre], [suf] is [pre], then [n] in
    decimal padded with zeros to three digits, then [suf]; its
    successors are the files numbered [first], [first + 1], ... *)
Definition numbered (pre suf : string) (n : Z) : string :=
  (pre ++ format_03d n ++ suf)%string.

Fixpoint numbered_from (pre suf : string) (first : Z) (count : nat) : list string :=
  match count with
  | O => []
  | S count' => numbered pre suf first :: numbered_from pre suf (first + 1) count'
  end.

(** The primaries the split-file convention names: [stem.000],
    [stem.001] and [pre001.vmdk], the last two with no [000] elsewhere
    in the path. *)
Definition split_family (pre suf : string) (k : Z) : Prop :=
  (k = 0 /\ suf = ""%string /\ exists stem, pre = (stem ++ ".")%string) \/
  (k = 1 /\ rfind (numbered pre suf 1) "000" = None /\
   (suf = ".vmdk"%string \/ (suf = ""%string /\ exists stem, pre = (stem ++ ".")%string))).

(** The extensions the directory scan refuses. *)
Definition image_extension (e : string) : Prop :=
  e = ".E01"%string \/ e = ".000"%string \/ e = ".001"%string.

(** ** Further functions of [image_process.cpp] *)

(** *** get_filesize

    The descriptor as [get_filesize] sees it: what [fstat] reports in
    [st_size] ([None] when it fails), and whether [pread64] of one byte
    at an offset delivers that byte. *)
Record descriptor : Type := {
  fstat_size : option Z;
  pread64_one : Z -> bool
}.

(** Phase 1, [for (bits=0; bits<60; bits++)]: the pair [(bits, filesize)]
    the loop leaves behind; [fuel] is the number of values [bits] can
    still take. *)
Fixpoint seek_limit (fd : descriptor) (fuel : nat) (bits filesize : Z) : Z * Z :=
  match fuel with
  | O => (bits, filesize)
  | S fuel' =>
      let filesize := Z.shiftl 1 bits in
      if negb (pread64_one fd filesize) then (bits, filesize)
      else seek_limit fd fuel' (bits + 1) filesize
  end.

(** Phase 2, [for (i=bits; i>=0; i--)], as the iterations
    [i = n-1, ..., 0]. *)
Fixpoint blank_bits (fd : descriptor) (n : nat) (filesize : Z) : Z :=
  match n with
  | O => filesize
  | S i =>
      let test := Z.shiftl 1 (Z.of_nat i) in
      let test_filesize := Z.lor filesize (Z.shiftl 1 (Z.of_nat i)) in
      let filesize :=
        if pread64_one fd test_filesize
        then Z.lor filesize test
        else Z.land filesize (Z.lnot test) in
      blank_bits fd i filesize
  end.

(** [process_raw::get_filesize] where [st_size] has eight bytes. *)
Definition get_filesize (fd : descriptor) : result Z :=
  let probe :=
    let '(bits, filesize) := seek_limit fd 60 0 0 in
    if bits =? 60 then Throw SeekError
    else
      let filesize := blank_bits fd (S (Z.to_nat bits)) filesize in
      Ok (if filesize >? 0 then filesize + 1 else filesize) in
  match fstat_size fd with
  | Some st_size => if st_size >? 0 then Ok st_size else probe
  | None => probe
  end.

(** A device of [size] bytes whose [fstat] gives no size: one byte can
    be read at every offset below [size] and at no other. *)
Definition device (size : Z) : descriptor :=
  {| fstat_size := None; pread64_one := fun off => (0 <=? off) && (off <? size) |}.

(** *** max_blocks *)

(** [process_raw::max_blocks]; a page size of zero divides by zero. *)
Definition process_raw_max_blocks (this : process_raw) : result Z :=
  if raw_pagesize this =? 0 then Undefined
  else Ok (wrap64 (raw_filesize this + raw_pagesize this - 1) / raw_pagesize this).

(** [process_ewf::max_blocks]. *)
Definition process_ewf_max_blocks (this : process_ewf) : result Z :=
  if ewf_pagesize this =? 0 then Undefined
  else Ok (ewf_filesize this / ewf_pagesize this).

(** [process_dir::max_blocks]. *)
Definition process_dir_max_blocks (this : process_dir) : result Z :=
  Ok (process_dir_.size this).

Definition max_blocks (ip : image_process) : result Z :=
  match ip with
  | Raw r => process_raw_max_blocks r
  | Ewf e => process_ewf_max_blocks e
  | Dir d => process_dir_max_blocks d
  end.

(** *** Driving a cursor *)

(** What a caller can do to a cursor it holds. *)
Inductive cursor_op : Type :=
| op_increment
| op_seek_block (block : Z).

Definition apply_op (ip : image_process) (it : iterator) (op : cursor_op) : iterator :=
  match op with
  | op_increment => increment_iterator ip it
  | op_seek_block block => fst (seek_block ip it block)
  end.

Definition run_ops (ip : image_process) (ops : list cursor_op) (it : iterator)
  : iterator :=
  fold_left (apply_op ip) ops it.

(** The loop [for (it = begin(); ...; ++it) sbuf_alloc (it)] run for at
    most [n] pages: the usable bytes of each page it gets, until
    [sbuf_alloc] returns no page. *)
Fixpoint usable_pages (fs : filesystem) (ip : image_process) (n : nat) (it : iterator)
  : list (list byte) :=
  match n with
  | O => []
  | S n' =>
      match sbuf_alloc fs ip it with
      | (it', Ok (Some sbuf)) =>
          firstn (Z.to_nat (sbuf_pagesize sbuf)) (sbuf_buf sbuf)
            :: usable_pages fs ip n' (increment_iterator ip it')
      | _ => []
      end
  end.

(** ** The block-hash scanner, [scan_hashdb.cpp] *)

Module hashdb.

(** The user settings, file-scope variables of the scanner. *)
Record settings : Type := {
  hashdb_mode : string;
  hashdb_block_size : Z;
  hashdb_ignore_empty_blocks : bool;
  hashdb_scan_sector_size : Z;
  hashdb_import_sector_size : Z
}.

Inductive mode_type_t : Type := MODE_NONE | MODE_SCAN | MODE_IMPORT.

(** How [PHASE_INIT] ends: with the mode set, or in [exit (1)]. *)
Inductive init_outcome : Type :=
| Initialized (mode : mode_type_t)
| Exit (status : Z).

(** The validation of [PHASE_INIT], checks in the order of the source. *)
Definition phase_init (s : settings) : init_outcome :=
  let parsed :=
    if String.eqb (hashdb_mode s) "none" then Some MODE_NONE
    else if String.eqb (hashdb_mode s) "import" then Some MODE_IMPORT
    else if String.eqb (hashdb_mode s) "scan" then Some MODE_SCAN
    else None in
  match parsed with
  | None => Exit 1
  | Some mode =>
      if hashdb_block_size s =? 0 then Exit 1
      else if hashdb_scan_sector_size s =? 0 then Exit 1
      else if match mode with MODE_SCAN => true | _ => false end &&
              negb (hashdb_block_size s mod hashdb_scan_sector_size s =? 0)
      then Exit 1
      else if hashdb_import_sector_size s =? 0 then Exit 1
      else if match mode with MODE_IMPORT => true | _ => false end &&
              negb (hashdb_block_size s mod hashdb_import_sector_size s =? 0)
      then Exit 1
      else Initialized mode
  end.

(** [is_empty_block (buf)]: [buf] is what lies from the pointer to the
    end of the buffer; an index past it is undefined.  [n] iterations
    are left, the next one at index [i]. *)
Fixpoint is_empty_block_loop (buf : list byte) (n i : nat) : result bool :=
  match n with
  | O => Ok true
  | S n' =>
      match nth_error buf i, nth_error buf 0 with
      | Some b, Some b0 =>
          if Strings.Byte.eqb b b0 then is_empty_block_loop buf n' (S i)
          else Ok false
      | _, _ => Undefined
      end
  end.

Definition is_empty_block (block_size : Z) (buf : list byte) : result bool :=
  is_empty_block_loop buf (Z.to_nat (block_size - 1)) 1.

(** The count of blocks to process: [bufsize / sector_size], then
    [while (count * sector + (block - sector) > pagesize) --count],
    in [size_t] arithmetic.  [None] when [fuel] iterations were not
    enough. *)
Fixpoint trim_count (fuel : nat) (sector_size block_size pagesize_ count : Z)
  : option Z :=
  match fuel with
  | O => None
  | S fuel' =>
      if wrap64 (wrap64 (count * sector_size) + wrap64 (block_size - sector_size))
         >? pagesize_
      then trim_count fuel' sector_size block_size pagesize_ (wrap64 (count - 1))
      else Some count
  end.

Definition block_count (fuel : nat) (sector_size block_size : Z) (sbuf : sbuf_t)
  : option (result Z) :=
  if sector_size =? 0 then Some Undefined
  else
    match trim_count fuel sector_size block_size (sbuf_pagesize sbuf)
                     (sbuf_bufsize sbuf / sector_size) with
    | Some count => Some (Ok count)
    | None => None
    end.

Section Scan.

(** The hash generator, [hash_generator::hash_buf], on the bytes of one
    block. *)
Variable hash_t : Type.
Variable hash_buf : list byte -> hash_t.

(** The [block_size] bytes at [offset], when the buffer has them. *)
Definition block_at (buf : list byte) (offset block_size : Z) : option (list byte) :=
  let rest := skipn (Z.to_nat offset) buf in
  if block_size <=? Z.of_nat (List.length rest)
  then Some (firstn (Z.to_nat block_size) rest)
  else None.

(** The first loop of [do_scan], [for (i=0; i<count; ++i)], from index
    [i] with [n] iterations left: the scan input and the offset lookup
    table it builds. *)
Fixpoint scan_loop (s : settings) (buf : list byte) (n : nat) (i : Z)
         (scan_input : list hash_t) (offset_lookup_table : list Z)
  : result (list hash_t * list Z) :=
  match n with
  | O => Ok (scan_input, offset_lookup_table)
  | S n' =>
      let offset := wrap64 (i * hashdb_scan_sector_size s) in
      skip <- (if hashdb_ignore_empty_blocks s
               then is_empty_block (hashdb_block_size s) (skipn (Z.to_nat offset) buf)
               else Ok false) ;;
      if skip then scan_loop s buf n' (i + 1) scan_input offset_lookup_table
      else
        match block_at buf offset (hashdb_block_size s) with
        | Some block =>
            scan_loop s buf n' (i + 1)
                      (scan_input ++ [hash_buf block])
                      (offset_lookup_table ++ [offset])
        | None => Undefined
        end
  end.

(** [do_scan] up to the call of the database: nothing to do on a page
    shorter than a block, else the two vectors. *)
Definition do_scan_input (fuel : nat) (s : settings) (sbuf : sbuf_t)
  : option (result (list hash_t * list Z)) :=
  if sbuf_pagesize sbuf <? hashdb_block_size s then Some (Ok ([], []))
  else
    match block_count fuel (hashdb_scan_sector_size s) (hashdb_block_size s) sbuf with
    | Some (Ok count) =>
        Some (scan_loop s (sbuf_buf sbuf) (Z.to_nat count) 0 [] [])
    | Some (Throw e) => Some (Throw e)
    | Some Undefined => Some Undefined
    | None => None
    end.

End Scan.

End hashdb.

(** What [do_scan] is expected to select: a block is kept unless empty
    blocks are ignored and it is one; the offsets kept among the first
    [count] sector boundaries. *)
Definition kept_block (s : hashdb.settings) (buf : list byte) (offset : Z) : bool :=
  if hashdb.hashdb_ignore_empty_blocks s then
    match hashdb.is_empty_block (hashdb.hashdb_block_size s)
                                (skipn (Z.to_nat offset) buf) with
    | Ok true => false
    | _ => true
    end
  else true.

Definition sector_offsets (s : hashdb.settings) (first count : nat) : list Z :=
  map (fun i => Z.of_nat i * hashdb.hashdb_scan_sector_size s) (seq first count).

Definition kept_offsets (s : hashdb.settings) (buf : list byte) (first count : nat)
  : list Z :=
  filter (kept_block s buf) (sector_offsets s first count).

(** The number of sector boundaries whose block ends within the usable
    page, and the table [do_scan] is expected to build on a page. *)
Definition blocks_in_page (s : hashdb.settings) (sbuf : sbuf_t) : nat :=
  if sbuf_pagesize sbuf <? hashdb.hashdb_block_size s then O
  else Z.to_nat ((sbuf_pagesize sbuf - hashdb.hashdb_block_size s)
                 / hashdb.hashdb_scan_sector_size s + 1).

Definition expected_table (s : hashdb.settings) (sbuf : sbuf_t) : list Z :=
  kept_offsets s (sbuf_buf sbuf) 0 (blocks_in_page s sbuf).

(** ** Sample images *)

Module Examples.

Local Open Scope string_scope.

(** A segment of [length] bytes, all equal to [fill]. *)
Definition segment (path : string) (offset length : Z) (fill : byte) : file_info :=
  {| fi_path := path; fi_offset := offset; fi_length := length;
     fi_stream := {| content := repeat fill (Z.to_nat length);
                     rdstate := goodbit |} |}.

(** [0,100) all 0xAA, [100,200) all 0xBB. *)
Definition two_segments : file_list_t :=
  [segment "img.000" 0 100 xaa; segment "img.001" 100 100 xbb].

Definition raw_image : process_raw :=
  {| raw_fname := "img.000"; raw_pagesize := 64; raw_margin := 16;
     file_list := two_segments; raw_filesize := 200 |}.

(** A decoder that delivers the bytes asked for, all zero. *)
Definition zero_decoder : libewf_handle :=
  fun bytes _ => (bytes, repeat x00 (Z.to_nat bytes)).

(** A decoder that delivers nothing. *)
Definition silent_decoder : libewf_handle := fun _ _ => (0, []).

Definition ewf_image (h : libewf_handle) : process_ewf :=
  {| ewf_fname := "img.E01"; ewf_pagesize := 10; ewf_margin := 0;
     ewf_filesize := 100; handle := h |}.

(** A file system of regular files with the given sizes, and of
    directories with the given entries. *)
Definition lookup {A : Type} (p : string) (l : list (string * A)) : option A :=
  option_map snd (List.find (fun e => String.eqb p (fst e)) l).

Definition sample_fs (regular : list (string * Z))
           (dirs : list (string * list string)) : filesystem :=
  {| fs_exists := fun p =>
       match lookup p regular, lookup p dirs with
       | None, None => false
       | _, _ => true
       end;
     fs_is_directory := fun p =>
       match lookup p dirs with Some _ => true | None => false end;
     fs_is_block_file := fun _ => false;
     fs_file_size := fun p => lookup p regular;
     fs_get_filesize := fun _ => CannotOpen;
     fs_stream := fun p =>
       match lookup p regular with
       | Some sz => {| content := repeat x00 (Z.to_nat sz); rdstate := goodbit |}
       | None => {| content := [];
                    rdstate := {| failbit := true; badbit := false; eofbit := false |} |}
       end;
     fs_directory_iterator := fun p =>
       match lookup p dirs with Some l => l | None => [] end;
     fs_recursive_directory_iterator := fun p =>
       match lookup p dirs with
       | Some l => map (fun q => {| entry_path := q;
                                    is_regular_file :=
                                      match lookup q regular with
                                      | Some _ => true
                                      | None => false
                                      end |}) l
       | None => []
       end;
     fs_map_file := fun _ => Throw (runtime_error "map_file") |}.

(** [img.000] .. [img.004] present, [img.005] absent; a directory
    holding a container file, one holding plain files, and a file
    with the lower-case container extension. *)
Definition five_parts : filesystem :=
  sample_fs [("img.000", 512); ("img.001", 512); ("img.002", 512);
             ("img.003", 512); ("img.004", 100);
             ("evidence/disk.E01", 4096); ("notes/a.txt", 10);
             ("disk.e01", 2048)]
            [("evidence", ["evidence/disk.E01"]);
             ("notes", ["notes/a.txt"])].

Definition no_decoder : libewf_t := fun _ => Throw (NoSuchFile "libewf_open").

(** A split image below a directory whose name has three zeros:
    [case000/img.001] and [case000/img.002], nothing else. *)
Definition case000 : filesystem :=
  sample_fs [("case000/img.001", 512); ("case000/img.002", 512)] [].

End Examples.

(** * Properties *)

(** ** Machine integers *)

Lemma two64_eq : two64 = 18446744073709551616.
Proof. reflexivity. Qed.

Lemma wrap64_small z : 0 <= z < two64 -> wrap64 z = z.
Proof. intros H. unfold wrap64. apply Z.mod_small. exact H. Qed.

Lemma wrap64_range z : 0 <= wrap64 z < two64.
Proof. unfold wrap64. apply Z.mod_pos_bound. reflexivity. Qed.

Lemma ssize_of_small z : 0 <= z < 2 ^ 63 -> ssize_of z = z.
Proof.
  intros H. unfold ssize_of, signed.
  change (64 - 1) with 63.
  rewrite Z.mod_small by (change (2 ^ 64) with (2 * 2 ^ 63); lia).
  destruct (Z.ltb_spec z (2 ^ 63)); lia.
Qed.

Lemma int_of_small z : 0 <= z < 2 ^ 31 -> int_of z = z.
Proof.
  intros H. unfold int_of, signed.
  change (32 - 1) with 31.
  rewrite Z.mod_small by (change (2 ^ 32) with (2 * 2 ^ 31); lia).
  destruct (Z.ltb_spec z (2 ^ 31)); lia.
Qed.

(** ** The recursion of [pread] *)

(** [pread] written with its body: the C++ function, one call deep. *)
Lemma pread_eq file_list bytes offset :
  pread file_list bytes offset =
  match pread_body file_list bytes offset with
  | Return n data => Ok (n, data)
  | Raise e => Throw e
  | Recurse bytes_read data bytes' offset' =>
      match pread file_list bytes' offset' with
      | Ok (bytes_read2, data2) =>
          if bytes_read2 <? 0 then Ok (-1, data ++ data2)
          else Ok (ssize_of (wrap64 (bytes_read + bytes_read2)), data ++ data2)
      | Throw e => Throw e
      | Undefined => Undefined
      end
  end.
Proof.
  rewrite pread_equation_1. unfold pread_unfold_clause_1.
  destruct (inspect (pread_body file_list bytes offset)) as [a Ha].
  destruct a; cbn beta iota; rewrite Ha; reflexivity.
Qed.

(** A segment that [find_offset] returns passes the range test, so the
    sum [offset + length] did not wrap for it. *)
Lemma find_offset_some fl pos fi :
  find_offset fl pos = Some fi ->
  In fi fl /\ fi_offset fi <= pos < wrap64 (fi_offset fi + fi_length fi).
Proof.
  induction fl as [|it rest IH]; simpl; [discriminate|].
  destruct (Z.leb_spec (fi_offset it) pos) as [Hle|Hgt]; simpl.
  - destruct (Z.ltb_spec pos (wrap64 (fi_offset it + fi_length it))) as [Hlt|Hge].
    + intros E. inversion E; subst. split; [left; reflexivity | lia].
    + intros E. destruct (IH E) as [Hin Hr]. split; [right; exact Hin | exact Hr].
  - intros E. destruct (IH E) as [Hin Hr]. split; [right; exact Hin | exact Hr].
Qed.

(** The two assertions at the head of [pread] never fire. *)
Lemma pread_body_no_assertion fl bytes offset :
  pread_body fl bytes offset <> Raise assertion_failed.
Proof.
  unfold pread_body.
  destruct (find_offset fl offset) as [fi|] eqn:Hf; [|discriminate].
  apply find_offset_some in Hf. destruct Hf as [_ [H1 H2]].
  destruct (Z.leb_spec (fi_offset fi) offset); [|lia]. simpl.
  destruct (Z.ltb_spec offset (wrap64 (fi_offset fi + fi_length fi))); [|lia]. simpl.
  destruct (failbit _ || badbit _); [discriminate|].
  destruct (stream_read _ _ _ _) as [d st'].
  destruct (failbit st'); [discriminate|].
  destruct (badbit st'); [discriminate|].
  destruct (eofbit st'); [discriminate|].
  destruct (_ =? bytes); [discriminate|].
  destruct (_ =? 0); discriminate.
Qed.

(** The requested count shrinks on every recursive call, by the number
    of bytes the first read delivered. *)
Lemma pread_body_recurse fl bytes offset br data bytes' offset' :
  pread_body fl bytes offset = Recurse br data bytes' offset' ->
  0 < br < bytes /\ bytes' = wrap64 (bytes - br) /\
  offset' = wrap64 (offset + br) /\ 0 <= bytes' < bytes.
Proof.
  unfold pread_body. intros H.
  destruct (find_offset fl offset) as [fi|]; [|discriminate].
  destruct (negb (fi_offset fi <=? offset)); [discriminate|].
  destruct (negb (offset <? wrap64 (fi_offset fi + fi_length fi))); [discriminate|].
  destruct (failbit _ || badbit _); [discriminate|].
  destruct (stream_read _ _ _ _) as [d st'].
  destruct (failbit st'); [discriminate|].
  destruct (badbit st'); [discriminate|].
  destruct (eofbit st'); [discriminate|].
  set (av := wrap64 (fi_length fi - wrap64 (offset - fi_offset fi))) in *.
  pose proof (wrap64_range (fi_length fi - wrap64 (offset - fi_offset fi))) as Hav.
  fold av in Hav.
  destruct (Z.gtb_spec bytes av) as [Hgt|Hle].
  - destruct (Z.eqb_spec av bytes); [discriminate|].
    destruct (Z.eqb_spec av 0); [discriminate|].
    inversion H; subst.
    pose proof (wrap64_range (bytes - av)).
    assert (wrap64 (bytes - av) <= bytes - av)
      by (apply Z.mod_le; [lia | reflexivity]).
    repeat split; lia.
  - rewrite Z.eqb_refl in H. discriminate.
Qed.

Lemma pread_calls_decrease fl callee caller :
  pread_calls fl callee caller ->
  (Z.to_nat (fst callee) < Z.to_nat (fst caller))%nat.
Proof.
  intros [bytes offset br data bytes' offset' H].
  apply pread_body_recurse in H. simpl. lia.
Qed.

(** C9.  [process_raw::pread] terminates on every input.  The relation
    "this activation calls that one" is well founded, whatever the
    segment table; a recursive call is issued only after a first read of
    more than zero and fewer than the requested bytes, for the remaining
    count, which is smaller; an offset with no owning segment returns 0
    at once; no activation recurses after a read of zero bytes; and an
    activation that returns without a recursive call returns the whole
    count or 0. *)
Theorem pread_terminates (fl : file_list_t) :
  well_founded (pread_calls fl) /\
  (forall bytes offset br data bytes' offset',
      pread_body fl bytes offset = Recurse br data bytes' offset' ->
      0 < br < bytes /\ bytes' = wrap64 (bytes - br) /\
      offset' = wrap64 (offset + br) /\ 0 <= bytes' < bytes) /\
  (forall bytes offset,
      find_offset fl offset = None ->
      pread_body fl bytes offset = Return 0 [] /\
      pread fl bytes offset = Ok (0, [])) /\
  (forall bytes offset data bytes' offset',
      pread_body fl bytes offset <> Recurse 0 data bytes' offset') /\
  (forall bytes offset n data,
      pread_body fl bytes offset = Return n data ->
      pread fl bytes offset = Ok (n, data) /\ (n = 0 \/ n = ssize_of bytes)).
Proof.
  split; [|split; [|split; [|split]]].
  - apply (well_founded_lt_compat _ (fun p => Z.to_nat (fst p))).
    intros x y H. apply (pread_calls_decrease _ _ _ H).
  - intros. eapply pread_body_recurse; eassumption.
  - intros bytes offset Hnone.
    assert (Hb : pread_body fl bytes offset = Return 0 [])
      by (unfold pread_body; rewrite Hnone; reflexivity).
    split; [exact Hb|]. rewrite pread_eq, Hb. reflexivity.
  - intros bytes offset data bytes' offset' H.
    apply pread_body_recurse in H. lia.
  - intros bytes offset n data H.
    split; [rewrite pread_eq, H; reflexivity|].
    revert H. unfold pread_body.
    destruct (find_offset fl offset) as [fi|];
      [|intros H; inversion H; left; reflexivity].
    destruct (negb (fi_offset fi <=? offset)); [discriminate|].
    destruct (negb (offset <? wrap64 (fi_offset fi + fi_length fi))); [discriminate|].
    destruct (failbit _ || badbit _); [discriminate|].
    destruct (stream_read _ _ _ _) as [d st'].
    destruct (failbit st'); [discriminate|].
    destruct (badbit st'); [discriminate|].
    destruct (eofbit st'); [discriminate|].
    match goal with |- context [?x =? bytes] => destruct (Z.eqb_spec x bytes) as [E|] end.
    + intros H. inversion H. right. rewrite E. reflexivity.
    + match goal with |- context [?x =? 0] => destruct (x =? 0) end;
        [|discriminate].
      intros H. inversion H. left. reflexivity.
Qed.

(** ** The segment table *)

Lemma sum_lengths_nonneg start fl : contiguous start fl -> 0 <= sum_lengths fl.
Proof.
  revert start. induction fl as [|fi rest IH]; simpl; intros start H; [lia|].
  destruct H as (_ & Hlen & Hrest). specialize (IH _ Hrest). lia.
Qed.

Lemma contiguous_lower_bound start fl j fj :
  contiguous start fl -> nth_error fl j = Some fj ->
  start <= fi_offset fj /\ fi_offset fj + fi_length fj <= start + sum_lengths fl.
Proof.
  revert start j. induction fl as [|fi rest IH]; intros start j H Hj.
  - destruct j; discriminate.
  - simpl in H. destruct H as (Hoff & Hlen & Hrest).
    pose proof (sum_lengths_nonneg _ _ Hrest) as Hs.
    destruct j as [|j]; simpl in Hj.
    + inversion Hj; subst fj. simpl. lia.
    + destruct (IH _ _ Hrest Hj) as [H1 H2]. simpl. lia.
Qed.

Lemma find_offset_outside start fl o :
  0 <= start -> contiguous start fl -> start + sum_lengths fl < two64 ->
  o < start \/ start + sum_lengths fl <= o ->
  find_offset fl o = None.
Proof.
  revert start. induction fl as [|fi rest IH]; intros start Hs H Hfit Ho;
    [reflexivity|].
  simpl in H. destruct H as (Hoff & Hlen & Hrest).
  pose proof (sum_lengths_nonneg _ _ Hrest) as Hsum.
  simpl in Hfit, Ho. simpl.
  rewrite Hoff, (wrap64_small (start + fi_length fi)) by lia.
  replace ((start <=? o) && (o <? start + fi_length fi)) with false.
  - apply (IH (start + fi_length fi)); [lia | exact Hrest | lia | lia].
  - symmetry. apply andb_false_iff.
    destruct Ho; [left; apply Z.leb_gt | right; apply Z.ltb_ge]; lia.
Qed.

Lemma find_offset_inside start fl o :
  0 <= start -> contiguous start fl -> start + sum_lengths fl < two64 ->
  start <= o < start + sum_lengths fl ->
  exists i fi,
    nth_error fl i = Some fi /\ find_offset fl o = Some fi /\
    in_segment fi o /\
    forall j fj, nth_error fl j = Some fj -> in_segment fj o -> j = i.
Proof.
  revert start. induction fl as [|fi rest IH]; intros start Hs H Hfit Ho.
  - simpl in Ho. lia.
  - simpl in H. destruct H as (Hoff & Hlen & Hrest).
    pose proof (sum_lengths_nonneg _ _ Hrest) as Hsum.
    simpl in Hfit, Ho.
    destruct (Z.lt_ge_cases o (start + fi_length fi)) as [Hin|Hout].
    + exists O, fi. split; [reflexivity|]. split; [|split].
      * simpl. rewrite Hoff, (wrap64_small (start + fi_length fi)) by lia.
        replace (start <=? o) with true by (symmetry; apply Z.leb_le; lia).
        replace (o <? start + fi_length fi) with true
          by (symmetry; apply Z.ltb_lt; lia).
        reflexivity.
      * unfold in_segment. lia.
      * intros [|j] fj Hj Hseg; [reflexivity|]. simpl in Hj.
        destruct (contiguous_lower_bound _ _ _ _ Hrest Hj) as [Hlow _].
        unfold in_segment in Hseg. lia.
    + destruct (IH (start + fi_length fi)) as (i & fi' & Hnth & Hfind & Hseg & Huniq);
        [lia | exact Hrest | lia | lia |].
      exists (S i), fi'. split; [exact Hnth|]. split; [|split].
      * simpl. rewrite Hoff, (wrap64_small (start + fi_length fi)) by lia.
        replace (o <? start + fi_length fi) with false
          by (symmetry; apply Z.ltb_ge; lia).
        rewrite andb_false_r. exact Hfind.
      * exact Hseg.
      * intros [|j] fj Hj Hsegj.
        -- simpl in Hj. inversion Hj; subst fj. unfold in_segment in Hsegj. lia.
        -- simpl in Hj. f_equal. apply (Huniq _ _ Hj Hsegj).
Qed.

Lemma well_formed_inside fl total o :
  well_formed fl total -> 0 <= o < total ->
  exists i fi,
    nth_error fl i = Some fi /\ find_offset fl o = Some fi /\
    in_segment fi o /\
    forall j fj, nth_error fl j = Some fj -> in_segment fj o -> j = i.
Proof.
  intros (Hc & Htot & Hfit) Ho. subst total.
  apply (find_offset_inside 0); [lia | exact Hc | lia | lia].
Qed.

Lemma well_formed_outside fl total o :
  well_formed fl total -> total <= o -> find_offset fl o = None.
Proof.
  intros (Hc & Htot & Hfit) Ho. subst total.
  apply (find_offset_outside 0); [lia | exact Hc | lia | lia].
Qed.

(** C2.  On a well-formed segment table, [find_offset o] for
    [0 <= o < total_size] returns a segment of the table whose half-open
    range [start, start+length) contains [o], and that segment is the
    only one of the table that does; for [o >= total_size] it returns
    the null pointer. *)
Theorem find_offset_locate (fl : file_list_t) (total o : Z) :
  well_formed fl total ->
  (0 <= o < total ->
   exists i fi,
     nth_error fl i = Some fi /\ find_offset fl o = Some fi /\
     in_segment fi o /\
     forall j fj, nth_error fl j = Some fj -> in_segment fj o -> j = i) /\
  (total <= o -> find_offset fl o = None).
Proof.
  intros Hwf. split.
  - apply well_formed_inside. exact Hwf.
  - apply well_formed_outside. exact Hwf.
Qed.

(** ** Reads across segments *)

Lemma firstn_plus {A : Type} (a b : nat) (l : list A) :
  firstn (a + b) l = firstn a l ++ firstn b (skipn a l).
Proof.
  revert l. induction a as [|a IH]; intros l; [reflexivity|].
  destruct l as [|x l]; simpl.
  - rewrite firstn_nil. reflexivity.
  - rewrite IH. reflexivity.
Qed.

Lemma slice_add l o n1 n2 :
  0 <= o -> 0 <= n1 -> 0 <= n2 ->
  slice l o (n1 + n2) = slice l o n1 ++ slice l (o + n1) n2.
Proof.
  intros Ho H1 H2. unfold slice.
  rewrite (Z2Nat.inj_add n1 n2), firstn_plus by lia.
  rewrite skipn_skipn, (Z2Nat.inj_add o n1) by lia.
  rewrite (Nat.add_comm (Z.to_nat n1)). reflexivity.
Qed.

Lemma slice_app_left a b o n :
  0 <= o -> 0 <= n -> o + n <= Z.of_nat (List.length a) ->
  slice (a ++ b) o n = slice a o n.
Proof.
  intros Ho Hn Hfit. unfold slice.
  rewrite skipn_app, firstn_app, length_skipn.
  replace (Z.to_nat n - (List.length a - Z.to_nat o))%nat with O by lia.
  rewrite firstn_O, app_nil_r. reflexivity.
Qed.

Lemma slice_app_right a b o n :
  Z.of_nat (List.length a) <= o ->
  slice (a ++ b) o n = slice b (o - Z.of_nat (List.length a)) n.
Proof.
  intros Ho. unfold slice.
  rewrite skipn_app, skipn_all2 by lia. simpl.
  replace (Z.to_nat o - List.length a)%nat
    with (Z.to_nat (o - Z.of_nat (List.length a))) by lia.
  reflexivity.
Qed.

Lemma slice_length l o n :
  0 <= o -> 0 <= n -> o + n <= Z.of_nat (List.length l) ->
  Z.of_nat (List.length (slice l o n)) = n.
Proof.
  intros Ho Hn Hfit. unfold slice.
  rewrite length_firstn, length_skipn. lia.
Qed.

Lemma image_bytes_length start fl :
  contiguous start fl -> segments_readable fl ->
  Z.of_nat (List.length (image_bytes fl)) = sum_lengths fl.
Proof.
  revert start. induction fl as [|fi rest IH]; intros start Hc Hr; [reflexivity|].
  simpl in *. destruct Hc as (_ & _ & Hc). inversion Hr as [|? ? Hfi Hrest]; subst.
  rewrite length_app, Nat2Z.inj_add, (IH _ Hc Hrest).
  destruct Hfi as (_ & Hlen & _). lia.
Qed.

(** The bytes of a located segment are the bytes of the logical image at
    the same logical offsets. *)
Lemma segment_slice start fl o fi n :
  contiguous start fl -> segments_readable fl ->
  find_offset fl o = Some fi ->
  0 <= n -> o + n <= fi_offset fi + fi_length fi ->
  slice (content (fi_stream fi)) (o - fi_offset fi) n =
  slice (image_bytes fl) (o - start) n.
Proof.
  revert start. induction fl as [|it rest IH]; intros start Hc Hr Hf Hn Hfit;
    [discriminate|].
  simpl in Hc. destruct Hc as (Hoff & Hlen & Hc).
  inversion Hr as [|? ? Hit Hrest]; subst.
  destruct Hit as (_ & Hsz & _). simpl in Hf. simpl image_bytes.
  destruct ((fi_offset it <=? o) && (o <? wrap64 (fi_offset it + fi_length it)))
    eqn:Hcond.
  - inversion Hf; subst fi. apply andb_true_iff in Hcond.
    destruct Hcond as [Hle _]. apply Z.leb_le in Hle.
    rewrite slice_app_left by lia. reflexivity.
  - destruct (find_offset_some _ _ _ Hf) as [Hin [Hlo _]].
    apply In_nth_error in Hin. destruct Hin as [j Hj].
    destruct (contiguous_lower_bound _ _ _ _ Hc Hj) as [Hlow _].
    rewrite slice_app_right by lia.
    rewrite (IH (fi_offset it + fi_length it) Hc Hrest Hf Hn Hfit).
    f_equal. lia.
Qed.

Lemma seekg_good s pos :
  rdstate s = goodbit -> 0 <= pos < 2 ^ 63 -> seekg s pos = goodbit.
Proof.
  intros Hs Hp. unfold seekg. rewrite Hs.
  change (failbit goodbit || badbit goodbit) with false. cbv iota.
  destruct (Z.leb_spec (2 ^ 63) pos); [lia | reflexivity].
Qed.

Lemma stream_read_good s pos n :
  0 <= pos -> 0 <= n < 2 ^ 63 ->
  pos + n <= Z.of_nat (List.length (content s)) ->
  stream_read s goodbit pos n = (slice (content s) pos n, goodbit).
Proof.
  intros Hp Hn Hfit. unfold stream_read.
  change (failbit goodbit || badbit goodbit || eofbit goodbit) with false.
  cbv iota zeta. rewrite length_skipn.
  destruct (Z.ltb_spec n (2 ^ 63)); [|lia].
  destruct (Z.leb_spec n (Z.of_nat (List.length (content s) - Z.to_nat pos)));
    [reflexivity | lia].
Qed.

(** One activation of [pread] on a well-formed, readable table, for a
    request that stays inside the image. *)
Lemma pread_body_in_range fl total b o :
  well_formed fl total -> segments_readable fl ->
  0 < b < 2 ^ 63 -> 0 <= o -> o + b <= total ->
  exists fi,
    find_offset fl o = Some fi /\ in_segment fi o /\
    let av := fi_offset fi + fi_length fi - o in
    let d := slice (image_bytes fl) o (Z.min b av) in
    d = slice (content (fi_stream fi)) (o - fi_offset fi) (Z.min b av) /\
    pread_body fl b o =
      if b <=? av then Return b d else Recurse av d (b - av) (o + av).
Proof.
  intros Hwf Hr Hb Ho Hfit.
  destruct (well_formed_inside fl total o Hwf) as (i & fi & Hnth & Hfind & Hseg & _);
    [lia|].
  destruct Hwf as (Hc & Htot & Htwo).
  exists fi. split; [exact Hfind|]. split; [exact Hseg|].
  unfold in_segment in Hseg.
  assert (Hfi : readable fi).
  { unfold segments_readable in Hr. rewrite Forall_forall in Hr.
    apply Hr. eapply nth_error_In. exact Hnth. }
  destruct Hfi as (Hgood & Hsz & H63).
  destruct (contiguous_lower_bound _ _ _ _ Hc Hnth) as [Hlow Hhigh].
  set (av := fi_offset fi + fi_length fi - o).
  assert (Hd : slice (image_bytes fl) o (Z.min b av) =
               slice (content (fi_stream fi)) (o - fi_offset fi) (Z.min b av)).
  { rewrite (segment_slice 0 fl o fi (Z.min b av) Hc Hr Hfind) by (unfold av; lia).
    f_equal. lia. }
  cbv zeta. split; [exact Hd|]. rewrite Hd.
  unfold pread_body. rewrite Hfind.
  rewrite (wrap64_small (fi_offset fi + fi_length fi)) by lia.
  destruct (Z.leb_spec (fi_offset fi) o); [|lia].
  destruct (Z.ltb_spec o (fi_offset fi + fi_length fi)); [|lia].
  cbn [negb]. cbv iota.
  rewrite (wrap64_small (o - fi_offset fi)) by lia.
  rewrite (wrap64_small (fi_length fi - (o - fi_offset fi))) by lia.
  replace (fi_length fi - (o - fi_offset fi)) with av by (unfold av; lia).
  rewrite seekg_good by (try assumption; lia).
  change (failbit goodbit || badbit goodbit) with false. cbv iota.
  assert (Hmin : (if b >? av then av else b) = Z.min b av).
  { destruct (Z.gtb_spec b av); lia. }
  rewrite Hmin.
  rewrite stream_read_good by (unfold av; lia).
  cbn [failbit badbit eofbit goodbit]. cbv iota.
  destruct (Z.leb_spec b av) as [Hle|Hgt].
  - rewrite Z.min_l by lia. rewrite Z.eqb_refl.
    rewrite ssize_of_small by lia. reflexivity.
  - rewrite Z.min_r by lia.
    destruct (Z.eqb_spec av b); [lia|].
    destruct (Z.eqb_spec av 0); [unfold av in *; lia|].
    rewrite (wrap64_small (b - av)) by (unfold av in *; lia).
    rewrite (wrap64_small (o + av)) by (unfold av in *; lia).
    reflexivity.
Qed.

(** A request inside the image is served in full, with the bytes of the
    logical image, however many segments it crosses. *)
Lemma pread_in_range fl total :
  well_formed fl total -> segments_readable fl ->
  forall b o,
    0 <= b < 2 ^ 63 -> 0 <= o -> o + b <= total ->
    pread fl b o = Ok (b, slice (image_bytes fl) o b).
Proof.
  intros Hwf Hr b.
  assert (Hind : forall n b, Z.to_nat b = n -> forall o,
             0 <= b < 2 ^ 63 -> 0 <= o -> o + b <= total ->
             pread fl b o = Ok (b, slice (image_bytes fl) o b));
    [|exact (Hind _ b eq_refl)].
  clear b. intros n. induction n as [n IH] using lt_wf_ind.
  intros b Hn o Hb Ho Hfit.
  destruct (Z.eq_dec b 0) as [->|Hnz].
  - (* an empty request *)
    rewrite pread_eq. unfold slice at 1. simpl firstn.
    destruct (Z.lt_ge_cases o total) as [Hlt|Hge].
    + destruct (well_formed_inside fl total o Hwf)
        as (i & fi & Hnth & Hfind & Hseg & _); [lia|].
      destruct Hwf as (Hc & Htot & Htwo).
      assert (Hfi : readable fi).
      { unfold segments_readable in Hr. rewrite Forall_forall in Hr.
        apply Hr. eapply nth_error_In. exact Hnth. }
      destruct Hfi as (Hgood & Hsz & H63). unfold in_segment in Hseg.
      destruct (contiguous_lower_bound _ _ _ _ Hc Hnth) as [Hlow Hhigh].
      unfold pread_body. rewrite Hfind.
      rewrite (wrap64_small (fi_offset fi + fi_length fi)) by lia.
      destruct (Z.leb_spec (fi_offset fi) o); [|lia].
      destruct (Z.ltb_spec o (fi_offset fi + fi_length fi)); [|lia].
      cbn [negb]. cbv iota.
      rewrite (wrap64_small (o - fi_offset fi)) by lia.
      rewrite (wrap64_small (fi_length fi - (o - fi_offset fi))) by lia.
      rewrite seekg_good by (try assumption; lia).
      change (failbit goodbit || badbit goodbit) with false. cbv iota.
      destruct (Z.gtb_spec 0 (fi_length fi - (o - fi_offset fi))); [lia|].
      rewrite stream_read_good by lia.
      cbn [failbit badbit eofbit goodbit]. cbv iota.
      reflexivity.
    + unfold pread_body.
      rewrite (well_formed_outside fl total o Hwf Hge). reflexivity.
  - destruct (pread_body_in_range fl total b o Hwf Hr) as (fi & Hfind & Hseg & Hd & Hbody);
      try lia.
    cbv zeta in Hd, Hbody. unfold in_segment in Hseg.
    set (av := fi_offset fi + fi_length fi - o) in *.
    rewrite pread_eq, Hbody.
    destruct (Z.leb_spec b av) as [Hle|Hgt].
    + rewrite Z.min_l by lia. reflexivity.
    + rewrite Z.min_r by lia.
      rewrite (IH (Z.to_nat (b - av))) by (unfold av in *; lia).
      destruct (Z.ltb_spec (b - av) 0); [lia|].
      replace (av + (b - av)) with b by lia.
      rewrite wrap64_small by (change two64 with (2 * 2 ^ 63); lia).
      rewrite ssize_of_small by lia.
      assert (Hsl : slice (image_bytes fl) o (av + (b - av)) =
                    slice (image_bytes fl) o av ++
                    slice (image_bytes fl) (o + av) (b - av))
        by (apply slice_add; unfold av in *; lia).
      replace (av + (b - av)) with b in Hsl by lia.
      rewrite Hsl. reflexivity.
Qed.

(** C1.  On a well-formed, readable split image, a read of [b > 0] bytes
    at [o] with [o + b <= total_size] that runs past the end of the
    segment owning [o] is served in full: the first activation reads the
    [bytes_read] bytes left in that segment and calls [pread] for the
    remaining [b - bytes_read] bytes at [o + bytes_read]; that call
    delivers them all; the counts are added and the second part lands
    behind the first, so [pread] returns [b] and the buffer holds the
    bytes of the logical image from [o] on, segment after segment. *)
Theorem pread_straddles_boundary (fl : file_list_t) (total b o : Z) (fi : file_info) :
  well_formed fl total -> segments_readable fl ->
  0 < b < 2 ^ 63 -> 0 <= o -> o + b <= total ->
  find_offset fl o = Some fi ->
  fi_offset fi + fi_length fi < o + b ->
  let bytes_read := fi_offset fi + fi_length fi - o in
  let data1 := slice (content (fi_stream fi)) (o - fi_offset fi) bytes_read in
  let data2 := slice (image_bytes fl) (o + bytes_read) (b - bytes_read) in
  0 < bytes_read < b /\
  pread_body fl b o = Recurse bytes_read data1 (b - bytes_read) (o + bytes_read) /\
  pread fl (b - bytes_read) (o + bytes_read) = Ok (b - bytes_read, data2) /\
  pread fl b o = Ok (bytes_read + (b - bytes_read), data1 ++ data2) /\
  pread fl b o = Ok (b, slice (image_bytes fl) o b) /\
  Z.of_nat (List.length (slice (image_bytes fl) o b)) = b.
Proof.
  intros Hwf Hr Hb Ho Hfit Hfind Hstr. cbv zeta.
  destruct (pread_body_in_range fl total b o Hwf Hr Hb Ho Hfit)
    as (fi' & Hfind' & Hseg & Hd & Hbody).
  rewrite Hfind in Hfind'. inversion Hfind'; subst fi'. clear Hfind'.
  cbv zeta in Hd, Hbody. unfold in_segment in Hseg.
  set (av := fi_offset fi + fi_length fi - o) in *.
  rewrite Z.min_r in Hd, Hbody by (unfold av; lia).
  destruct (Z.leb_spec b av) as [Hle|Hgt]; [unfold av in Hle; lia|].
  rewrite Hd in Hbody.
  assert (H2 : pread fl (b - av) (o + av) =
               Ok (b - av, slice (image_bytes fl) (o + av) (b - av))).
  { apply (pread_in_range fl total Hwf Hr); unfold av in *; lia. }
  assert (Hall : pread fl b o = Ok (b, slice (image_bytes fl) o b)).
  { apply (pread_in_range fl total Hwf Hr); lia. }
  split; [unfold av; lia|]. split; [exact Hbody|]. split; [exact H2|].
  split; [|split; [exact Hall|]].
  - rewrite Hall. f_equal. f_equal; [lia|].
    rewrite <- Hd. rewrite <- slice_add by (unfold av in *; lia).
    f_equal. lia.
  - destruct Hwf as (Hc & Htot & Htwo).
    apply slice_length; try lia.
    rewrite (image_bytes_length 0 fl Hc Hr). lia.
Qed.

(** ** Building the segment table *)

Lemma sizes_found_nonneg fs names sizes :
  sizes_found fs names sizes -> 0 <= sum_sizes sizes.
Proof.
  induction 1 as [|name sz names sizes [_ Hsz] _ IH]; simpl; lia.
Qed.

Lemma layout_contiguous fs start names sizes :
  sizes_found fs names sizes -> contiguous start (layout fs start names sizes).
Proof.
  intros H. revert start.
  induction H as [|name sz names sizes [_ Hsz] _ IH]; intros start; simpl;
    [exact I|].
  repeat split; [exact Hsz | apply IH].
Qed.

Lemma layout_sum fs start names sizes :
  sizes_found fs names sizes ->
  sum_lengths (layout fs start names sizes) = sum_sizes sizes.
Proof.
  intros H. revert start.
  induction H as [|name sz names sizes _ _ IH]; intros start; simpl;
    [reflexivity|].
  rewrite IH. reflexivity.
Qed.

Lemma layout_paths fs start names sizes :
  sizes_found fs names sizes ->
  map fi_path (layout fs start names sizes) = names.
Proof.
  intros H. revert start.
  induction H as [|name sz names sizes _ _ IH]; intros start; simpl;
    [reflexivity|].
  rewrite IH. reflexivity.
Qed.

Lemma add_file_found fs this path sz :
  path_filesize fs path = Ok sz -> 0 <= sz ->
  0 <= raw_filesize this -> raw_filesize this + sz < two64 ->
  add_file fs this path =
  Ok (with_segments this
        (file_list this ++ layout fs (raw_filesize this) [path] [sz])
        (raw_filesize this + sz)).
Proof.
  intros Hp Hsz H0 Hfit. unfold add_file. rewrite Hp. simpl.
  rewrite (wrap64_small sz), (wrap64_small (raw_filesize this + sz)) by lia.
  reflexivity.
Qed.

(** The probing loop appends one segment per probe that exists and
    stops at the first probe that is missing. *)
Lemma probe_loop_found PATH_MAX fs templ sibs :
  forall sizes num this fuel next,
    probes_present PATH_MAX fs templ num sibs ->
    sizes_found fs sibs sizes ->
    snprintf PATH_MAX templ (num + Z.of_nat (List.length sibs)) = Ok next ->
    fs_exists fs next = false ->
    num + Z.of_nat (List.length sibs) <= 2 ^ 31 - 1 ->
    (List.length sibs < fuel)%nat ->
    0 <= raw_filesize this ->
    raw_filesize this + sum_sizes sizes < two64 ->
    probe_loop PATH_MAX fs fuel templ num this =
    Some (Ok (with_segments this
                (file_list this ++ layout fs (raw_filesize this) sibs sizes)
                (raw_filesize this + sum_sizes sizes))).
Proof.
  induction sibs as [|name rest IH];
    intros sizes num this fuel next Hp Hs Hnext Hmiss Hint Hfuel H0 Hfit.
  - inversion Hs; subst. cbn [List.length Z.of_nat] in Hnext.
    rewrite Z.add_0_r in Hnext.
    destruct fuel as [|fuel]; [cbn [List.length] in Hfuel; lia|]. cbn [probe_loop].
    rewrite Hnext, Hmiss. cbn [layout]. rewrite app_nil_r.
    change (sum_sizes []) with 0. rewrite Z.add_0_r.
    destruct this; reflexivity.
  - inversion Hs as [|? sz ? sizes' [Hsz Hpos] Hs']; subst.
    simpl in Hp. destruct Hp as (Hname & Hex & Hp).
    pose proof (sizes_found_nonneg _ _ _ Hs') as Hsum.
    cbn [List.length] in Hint, Hnext, Hfuel.
    rewrite Nat2Z.inj_succ in Hint, Hnext.
    change (sum_sizes (sz :: sizes')) with (sz + sum_sizes sizes') in Hfit.
    destruct fuel as [|fuel]; [lia|]. cbn [probe_loop].
    rewrite Hname, Hex.
    rewrite (add_file_found fs this name sz Hsz Hpos H0) by lia.
    destruct (Z.eqb_spec num (2 ^ 31 - 1)) as [E|_]; [lia|].
    rewrite (IH sizes' (num + 1) _ fuel next Hp Hs').
    + unfold with_segments. cbn [raw_fname raw_pagesize raw_margin file_list raw_filesize layout].
      rewrite <- app_assoc. cbn [app].
      change (sum_sizes (sz :: sizes')) with (sz + sum_sizes sizes').
      rewrite Z.add_assoc. reflexivity.
    + rewrite <- Hnext. f_equal. lia.
    + exact Hmiss.
    + lia.
    + lia.
    + cbn [with_segments raw_filesize]. lia.
    + cbn [with_segments raw_filesize]. lia.
Qed.

(** [process_raw::open] on a multipart name, in terms of the probes the
    code makes: when the probes [start], [start+1], ... exist as the
    files [sibs] and the next probe is missing, the segment table is
    the primary followed by [sibs] in probe order, each segment starts
    at the running total of the lengths before it, and [raw_filesize]
    is the sum of the lengths.  The total of the sizes is taken to fit
    [uint64_t] and the probe number to fit [int]. *)
Lemma open_builds_segment_table
        (PATH_MAX : nat) (fs : filesystem) (fname : string) (ps mg : Z)
        (templ : string) (start : Z) (sibs : list string) (next : string)
        (size0 : Z) (sizes : list Z) (fuel : nat) :
  is_multipart_file fname = true ->
  make_list_template fname = Ok (templ, start) ->
  probes_present PATH_MAX fs templ start sibs ->
  snprintf PATH_MAX templ (start + Z.of_nat (List.length sibs)) = Ok next ->
  fs_exists fs next = false ->
  sizes_found fs (fname :: sibs) (size0 :: sizes) ->
  sum_sizes (size0 :: sizes) < two64 ->
  start + Z.of_nat (List.length sibs) <= 2 ^ 31 - 1 ->
  (List.length sibs < fuel)%nat ->
  exists r,
    process_raw_open PATH_MAX fs fuel (new_process_raw fname ps mg) = Some (Ok r) /\
    file_list r = layout fs 0 (fname :: sibs) (size0 :: sizes) /\
    map fi_path (file_list r) = fname :: sibs /\
    contiguous 0 (file_list r) /\
    raw_filesize r = sum_lengths (file_list r) /\
    raw_filesize r = sum_sizes (size0 :: sizes) /\
    well_formed (file_list r) (raw_filesize r).
Proof.
  intros Hmulti Htempl Hp Hnext Hmiss Hs Hfit Hint Hfuel.
  pose proof (layout_contiguous fs 0 _ _ Hs) as Hc.
  pose proof (layout_sum fs 0 _ _ Hs) as Hsum.
  pose proof (layout_paths fs 0 _ _ Hs) as Hpaths.
  assert (Hs0 : path_filesize fs fname = Ok size0 /\ 0 <= size0)
    by (inversion Hs; assumption).
  assert (Hs' : sizes_found fs sibs sizes) by (inversion Hs; assumption).
  destruct Hs0 as [Hsz0 Hpos0].
  pose proof (sizes_found_nonneg _ _ _ Hs') as Hnn.
  change (sum_sizes (size0 :: sizes)) with (size0 + sum_sizes sizes) in Hfit.
  exists (with_segments (new_process_raw fname ps mg)
            (layout fs 0 (fname :: sibs) (size0 :: sizes))
            (sum_sizes (size0 :: sizes))).
  cbn [with_segments file_list raw_filesize].
  split; [|split; [reflexivity|]; split; [exact Hpaths|]; split; [exact Hc|];
           split; [symmetry; exact Hsum|]; split; [reflexivity|];
           split; [exact Hc|]; split; [symmetry; exact Hsum | exact Hfit]].
  unfold process_raw_open. cbn [new_process_raw raw_fname].
  rewrite (add_file_found fs _ fname size0 Hsz0 Hpos0)
    by (unfold new_process_raw; cbn [raw_filesize]; lia).
  rewrite Hmulti, Htempl.
  rewrite (probe_loop_found PATH_MAX fs templ sibs sizes start _ fuel next);
    try assumption.
  all: unfold new_process_raw;
    cbn [with_segments raw_fname raw_pagesize raw_margin file_list raw_filesize
         layout app];
    rewrite ?Z.add_0_l; try reflexivity; lia.
Qed.

(** ** The sample split image *)

Lemma two_segments_well_formed : well_formed Examples.two_segments 200.
Proof.
  unfold well_formed, Examples.two_segments. simpl.
  repeat split; try reflexivity; lia.
Defined.

Lemma two_segments_readable : segments_readable Examples.two_segments.
Proof.
  unfold segments_readable, Examples.two_segments.
  repeat constructor.
Defined.

(** The 20-byte read at offset 95 of the specification: five bytes 0xAA
    from the first segment, then fifteen bytes 0xBB from the second. *)
Lemma pread_straddles_boundary_witness :
  pread Examples.two_segments 20 95 = Ok (20, repeat xaa 5 ++ repeat xbb 15).
Proof.
  pose proof (pread_straddles_boundary Examples.two_segments 200 20 95
                (Examples.segment "img.000" 0 100 xaa)
                two_segments_well_formed two_segments_readable
                ltac:(lia) ltac:(lia) ltac:(lia) eq_refl ltac:(simpl; lia)) as H.
  cbv zeta in H. destruct H as (_ & _ & _ & _ & H & _).
  rewrite H. reflexivity.
Defined.

Lemma find_offset_locate_witness :
  (exists fi, find_offset Examples.two_segments 150 = Some fi /\ in_segment fi 150) /\
  find_offset Examples.two_segments 200 = None.
Proof.
  destruct (find_offset_locate Examples.two_segments 200 150 two_segments_well_formed)
    as [Hin _].
  destruct (find_offset_locate Examples.two_segments 200 200 two_segments_well_formed)
    as [_ Hout].
  split; [|apply Hout; lia].
  destruct Hin as (i & fi & _ & Hfind & Hseg & _); [lia|].
  exists fi. split; assumption.
Defined.

(** ** The cursor *)

Lemma increment_iterator_eof ip it : eof (increment_iterator ip it) = eof it.
Proof.
  destruct ip as [r|e|d]; simpl;
    unfold process_raw_.increment_iterator, process_ewf_.increment_iterator,
           process_dir_.increment_iterator; simpl;
    match goal with |- context [if ?c then _ else _] => destruct c end;
    reflexivity.
Qed.

(** One [operator++] on a byte-addressed backend, when the sum fits
    [uint64_t]. *)
Lemma increment_iterator_offset ip it :
  byte_addressed ip = true ->
  0 <= raw_offset it -> 0 <= pagesize ip ->
  raw_offset it + pagesize ip < two64 ->
  raw_offset (increment_iterator ip it) =
  Z.min (raw_offset it + pagesize ip) (total_size ip).
Proof.
  intros Hb Ho Hp Hfit.
  destruct ip as [r|e|d]; [| |discriminate]; simpl in *.
  - unfold process_raw_.increment_iterator. simpl.
    rewrite wrap64_small by lia.
    destruct (Z.gtb_spec (raw_offset it + raw_pagesize r) (raw_filesize r));
      simpl; lia.
  - unfold process_ewf_.increment_iterator. simpl.
    rewrite wrap64_small by lia.
    destruct (Z.gtb_spec (raw_offset it + ewf_pagesize e) (ewf_filesize e));
      simpl; lia.
Qed.

Lemma begin_offset ip :
  byte_addressed ip = true -> raw_offset (begin ip) = 0 /\ eof (begin ip) = false.
Proof.
  destruct ip as [r|e|d]; [| |discriminate]; intros _; split; reflexivity.
Qed.

(** C5, as the code has it.  Iterating from [begin()] by [operator++]
    on a byte-addressed backend with a page size above zero (and
    [total_size + pagesize] within [uint64_t]): each step adds
    [pagesize] to the offset, clamped to [total_size]; after [n] steps
    the offset is [min (n * pagesize, total_size)]; the offsets increase
    strictly until [total_size] is reached, which happens exactly from
    step [ceil (total_size / pagesize)] on; and [operator++] never
    touches the [eof] flag, which therefore stays false: the end is
    told by the offset, the one [end()] carries. *)
Theorem advance_from_begin (ip : image_process) (n : nat) :
  byte_addressed ip = true ->
  0 < pagesize ip -> 0 <= total_size ip ->
  total_size ip + pagesize ip < two64 ->
  let it := advance ip n (begin ip) in
  raw_offset it = Z.min (Z.of_nat n * pagesize ip) (total_size ip) /\
  raw_offset (increment_iterator ip it) =
    Z.min (raw_offset it + pagesize ip) (total_size ip) /\
  (raw_offset it < total_size ip ->
   raw_offset it < raw_offset (increment_iterator ip it)) /\
  (raw_offset it = total_size ip <-> total_size ip <= Z.of_nat n * pagesize ip) /\
  raw_offset (end_ ip) = total_size ip /\
  eof it = false.
Proof.
  intros Hb Hp Ht Hfit. cbv zeta.
  assert (Hoff : forall m, raw_offset (advance ip m (begin ip)) =
                           Z.min (Z.of_nat m * pagesize ip) (total_size ip)).
  { induction m as [|m IH].
    - simpl. rewrite (proj1 (begin_offset ip Hb)). lia.
    - cbn [advance].
      rewrite increment_iterator_offset by (try assumption; rewrite ?IH; lia).
      rewrite IH. lia. }
  assert (Heof : forall m, eof (advance ip m (begin ip)) = false).
  { induction m as [|m IH].
    - simpl. apply (begin_offset ip Hb).
    - cbn [advance]. rewrite increment_iterator_eof. exact IH. }
  assert (Hstep : raw_offset (increment_iterator ip (advance ip n (begin ip))) =
                  Z.min (raw_offset (advance ip n (begin ip)) + pagesize ip)
                        (total_size ip)).
  { apply increment_iterator_offset; try assumption; rewrite ?Hoff; lia. }
  split; [apply Hoff|]. split; [exact Hstep|].
  split; [rewrite Hstep; lia|].
  split; [rewrite Hoff; lia|].
  split; [destruct ip as [r|e|d]; [reflexivity | reflexivity | discriminate]|].
  apply Heof.
Qed.

Lemma advance_from_begin_witness :
  raw_offset (advance (Raw Examples.raw_image) 3 (begin (Raw Examples.raw_image))) = 192 /\
  raw_offset (advance (Raw Examples.raw_image) 4 (begin (Raw Examples.raw_image))) = 200.
Proof.
  split.
  - rewrite (proj1 (advance_from_begin (Raw Examples.raw_image) 3 eq_refl
                      ltac:(simpl; lia) ltac:(simpl; lia) eq_refl)).
    reflexivity.
  - rewrite (proj1 (advance_from_begin (Raw Examples.raw_image) 4 eq_refl
                      ltac:(simpl; lia) ltac:(simpl; lia) eq_refl)).
    reflexivity.
Defined.

(** C5, as stated, fails: on the sample image (200 bytes, pages of 64)
    four increments from [begin()] bring the offset to [total_size], and
    the [eof] flag is still false. *)
Lemma increment_reaches_end_without_eof :
  let ip := Raw Examples.raw_image in
  let it := advance ip 4 (begin ip) in
  raw_offset it = total_size ip /\ eof it = false.
Proof. split; reflexivity. Qed.

(** The division in [process_raw::seek_block] is never by zero. *)
Lemma seek_block_divisor (this : process_raw) (block : Z) :
  0 <= raw_filesize this ->
  (wrap64 (block * raw_pagesize this) >? raw_filesize this) = true ->
  raw_pagesize this <> 0.
Proof.
  intros Ht H E. rewrite E, Z.mul_0_r in H.
  change (wrap64 0) with 0 in H.
  destruct (Z.gtb_spec 0 (raw_filesize this)); [lia | discriminate].
Qed.

(** [process_raw::seek_block]: when [block * pagesize] fits [uint64_t],
    the cursor lands on [block * pagesize] if that is within the image,
    and else on the last page boundary at or below [total_size]; the
    block returned is the one the cursor is on. *)
Lemma seek_block_raw (this : process_raw) (it : iterator) (block : Z) :
  0 <= block -> 0 <= raw_pagesize this -> 0 <= raw_filesize this < two64 ->
  block * raw_pagesize this < two64 ->
  let '(it', b) := process_raw_.seek_block this it block in
  b = (if block * raw_pagesize this >? raw_filesize this
       then raw_filesize this / raw_pagesize this else block) /\
  raw_offset it' = b * raw_pagesize this /\
  0 <= raw_offset it' <= raw_filesize this /\
  raw_offset it' <= block * raw_pagesize this.
Proof.
  intros Hb Hp Ht Hfit. unfold process_raw_.seek_block.
  rewrite (wrap64_small (block * raw_pagesize this)) by lia.
  destruct (Z.gtb_spec (block * raw_pagesize this) (raw_filesize this)) as [Hgt|Hle].
  - assert (Hps : 0 < raw_pagesize this) by nia.
    pose proof (Z.mul_div_le (raw_filesize this) (raw_pagesize this) Hps) as Hdiv.
    assert (0 <= raw_filesize this / raw_pagesize this)
      by (apply Z.div_pos; lia).
    cbn [set_raw_offset raw_offset].
    rewrite wrap64_small by nia.
    repeat split; try nia; try lia.
  - cbn [set_raw_offset raw_offset].
    rewrite wrap64_small by lia.
    repeat split; try nia; try lia.
Qed.

(** C6, as the code has it.  On a byte-addressed backend, for a block
    number [n] whose [n * pagesize] fits [uint64_t]: [seek_block] leaves
    the cursor on [b * pagesize], where [b] is the block it returns, and
    does not touch [eof]; when [n * pagesize <= total_size], [b] is [n];
    on the segmented-raw backend, when [n * pagesize > total_size], [b]
    is [total_size / pagesize], so the cursor is on the last page
    boundary at or below [total_size], less than a page from it. *)
Theorem seek_block_offset (ip : image_process) (it : iterator) (n : Z) :
  byte_addressed ip = true ->
  0 <= n -> 0 <= pagesize ip -> 0 <= total_size ip < two64 ->
  n * pagesize ip < two64 ->
  let it' := fst (seek_block ip it n) in
  let b := snd (seek_block ip it n) in
  raw_offset it' = b * pagesize ip /\
  eof it' = eof it /\
  (n * pagesize ip <= total_size ip -> b = n /\ raw_offset it' = n * pagesize ip) /\
  (forall r, ip = Raw r -> total_size ip < n * pagesize ip ->
             b = total_size ip / pagesize ip /\
             total_size ip - pagesize ip < raw_offset it' <= total_size ip).
Proof.
  intros Hb Hn Hp Ht Hfit. cbv zeta.
  destruct ip as [r|e|d]; [| |discriminate]; simpl in *.
  - pose proof (seek_block_raw r it n Hn Hp Ht Hfit) as H.
    unfold process_raw_.seek_block in *.
    rewrite (wrap64_small (n * raw_pagesize r)) in * by lia.
    destruct (Z.gtb_spec (n * raw_pagesize r) (raw_filesize r)) as [Hgt|Hle];
      cbn [fst snd set_raw_offset raw_offset eof] in *;
      destruct H as (Hblock & Hoff & Hrange & _).
    + split; [exact Hoff|]. split; [reflexivity|]. split; [lia|].
      intros r' _ _. split; [reflexivity|].
      assert (Hps : 0 < raw_pagesize r) by nia.
      pose proof (Z.mod_pos_bound (raw_filesize r) (raw_pagesize r) Hps).
      pose proof (Z.div_mod (raw_filesize r) (raw_pagesize r)).
      rewrite Hoff. nia.
    + split; [exact Hoff|]. split; [reflexivity|].
      split; [intros _; split; [reflexivity | exact Hoff]|].
      intros r' _ Hgt. lia.
  - unfold process_ewf_.seek_block. cbn [fst snd set_raw_offset raw_offset eof].
    rewrite (Z.mul_comm (ewf_pagesize e) n), wrap64_small by lia.
    split; [reflexivity|]. split; [reflexivity|].
    split; [intros _; split; reflexivity|].
    intros r' Hr'. discriminate Hr'.
Qed.

Lemma seek_block_offset_witness :
  let ip := Raw Examples.raw_image in
  raw_offset (fst (seek_block ip (begin ip) 20)) = 192 /\
  snd (seek_block ip (begin ip) 20) = 3 /\
  raw_offset (fst (seek_block ip (begin ip) 2)) = 128.
Proof.
  cbv zeta.
  destruct (seek_block_offset (Raw Examples.raw_image)
              (begin (Raw Examples.raw_image)) 20 eq_refl
              ltac:(lia) ltac:(simpl; lia) ltac:(simpl; unfold two64; lia)
              ltac:(simpl; unfold two64; lia)) as (Hoff & _ & _ & Hpast).
  destruct (Hpast Examples.raw_image eq_refl ltac:(simpl; lia)) as [Hb _].
  destruct (seek_block_offset (Raw Examples.raw_image)
              (begin (Raw Examples.raw_image)) 2 eq_refl
              ltac:(lia) ltac:(simpl; lia) ltac:(simpl; unfold two64; lia)
              ltac:(simpl; unfold two64; lia)) as (_ & _ & Hin & _).
  destruct (Hin ltac:(simpl; lia)) as [_ Hoff2].
  split; [rewrite Hoff, Hb; reflexivity|]. split; [rewrite Hb; reflexivity|].
  rewrite Hoff2. reflexivity.
Defined.

(** C6, as stated, fails.  On the sample split image (200 bytes, pages
    of 64) [seek_block (it, 20)] goes to block 3, offset 192, not to
    [total_size], which is what clamping [20 * 64] to [0, 200] gives.
    On a container image of 100 bytes with pages of 10,
    [seek_block (it, 20)] leaves the cursor at offset 200, past
    [total_size], and returns 20: [process_ewf::seek_block] has no
    bound at all. *)
Lemma seek_block_not_clamped_to_total_size :
  (let ip := Raw Examples.raw_image in
   let it' := fst (seek_block ip (begin ip) 20) in
   raw_offset it' = 192 /\ snd (seek_block ip (begin ip) 20) = 3 /\
   raw_offset it' <> Z.max 0 (Z.min (20 * pagesize ip) (total_size ip))) /\
  (let ip := Ewf (Examples.ewf_image Examples.zero_decoder) in
   let it' := fst (seek_block ip (begin ip) 20) in
   raw_offset it' = 200 /\ snd (seek_block ip (begin ip) 20) = 20 /\
   total_size ip = 100 /\ total_size ip < raw_offset it').
Proof. vm_compute. repeat split; congruence. Qed.

(** ** The page producer *)

(** The page geometry both [sbuf_alloc]s compute before they read. *)
Lemma page_geometry (pagesize_ margin_ filesize offset : Z) :
  0 <= pagesize_ -> 0 <= margin_ -> 0 <= offset <= filesize ->
  filesize + pagesize_ + margin_ < two64 ->
  let count0 := wrap64 (pagesize_ + margin_) in
  let count :=
    if filesize <? wrap64 (offset + count0)
    then wrap64 (filesize - offset) else count0 in
  count = Z.min (pagesize_ + margin_) (filesize - offset) /\
  (if pagesize_ >? count then count else pagesize_) = Z.min pagesize_ count.
Proof.
  intros Hp Hm Ho Hfit. cbv zeta.
  rewrite (wrap64_small (pagesize_ + margin_)) by lia.
  rewrite (wrap64_small (offset + (pagesize_ + margin_))) by lia.
  rewrite (wrap64_small (filesize - offset)) by lia.
  destruct (Z.ltb_spec filesize (offset + (pagesize_ + margin_))) as [Hlt|Hge].
  - split; [lia|]. destruct (Z.gtb_spec pagesize_ (filesize - offset)); lia.
  - split; [lia|]. destruct (Z.gtb_spec pagesize_ (pagesize_ + margin_)); lia.
Qed.

(** What a page that [sbuf_alloc] returns looks like, whatever the
    arithmetic did. *)
Lemma sbuf_alloc_returns fs ip it it' page :
  byte_addressed ip = true ->
  sbuf_alloc fs ip it = (it', Ok (Some page)) ->
  let count0 := wrap64 (pagesize ip + margin ip) in
  let count :=
    if total_size ip <? wrap64 (raw_offset it + count0)
    then wrap64 (total_size ip - raw_offset it) else count0 in
  it' = it /\
  sbuf_bufsize page = count /\
  sbuf_pagesize page = (if pagesize ip >? count then count else pagesize ip) /\
  pos0_offset (sbuf_pos0 page) = raw_offset it.
Proof.
  intros Hb H. destruct ip as [r|e|d]; [| |discriminate]; simpl in *.
  - unfold process_raw_.sbuf_alloc in H.
    destruct (pread _ _ _) as [[n data]| |]; try discriminate.
    destruct (int_of n =? 0); [discriminate|].
    destruct (int_of n <? 0); [discriminate|].
    inversion H; subst. repeat split; reflexivity.
  - unfold process_ewf_.sbuf_alloc in H.
    destruct (process_ewf_.pread _ _ _) as [[n data]| |]; try discriminate.
    destruct (int_of n <? 0); [discriminate|].
    destruct (_ =? 0); [discriminate|].
    inversion H; subst. repeat split; reflexivity.
Qed.

(** On the segmented-raw backend a read whose count, taken as the
    [int count_read], is 0 ends the image: the cursor's [eof] is set,
    [EndOfImage] is raised, no page is returned and no [read_error] is
    reported. *)
Lemma sbuf_alloc_raw_zero (this : process_raw) (it : iterator) count n data :
  count = (let count0 := wrap64 (raw_pagesize this + raw_margin this) in
           if raw_filesize this <? wrap64 (raw_offset it + count0)
           then wrap64 (raw_filesize this - raw_offset it) else count0) ->
  pread (file_list this) count (raw_offset it) = Ok (n, data) ->
  int_of n = 0 ->
  process_raw_.sbuf_alloc this it = (set_eof it true, Throw EndOfImage).
Proof.
  intros Hc Hread Hn. unfold process_raw_.sbuf_alloc.
  cbv zeta in Hc. rewrite <- Hc, Hread, Hn. reflexivity.
Qed.

(** C7 at a failing input.  A container image of 100 bytes, pages of
    10, cursor at offset 0, and a decoder that returns 0 for the read of
    10 bytes: [process_ewf::sbuf_alloc] tests the requested [count], not
    [count_read], so it returns the page and leaves [eof] false.  With
    the cursor advanced to the end of the sample split image, where
    [pread] returns 0, [process_raw::sbuf_alloc] sets [eof] and raises
    [EndOfImage]. *)
Theorem sbuf_alloc_ewf_zero_read_returns_page :
  let ip := Ewf (Examples.ewf_image Examples.silent_decoder) in
  let it := begin ip in
  process_ewf_.pread (Examples.ewf_image Examples.silent_decoder) 10 0 = Ok (0, []) /\
  (exists page,
      sbuf_alloc Examples.five_parts ip it = (it, Ok (Some page)) /\
      sbuf_bufsize page = 10 /\ sbuf_buf page = []) /\
  eof (fst (sbuf_alloc Examples.five_parts ip it)) = false /\
  (let raw := Raw Examples.raw_image in
   let at_end := advance raw 4 (begin raw) in
   raw_offset at_end = 200 /\ eof at_end = false /\
   pread Examples.two_segments 0 200 = Ok (0, []) /\
   sbuf_alloc Examples.five_parts raw at_end =
     (set_eof at_end true, Throw EndOfImage)).
Proof.
  cbv zeta. split; [reflexivity|]. split; [|split; [reflexivity|]].
  - eexists. split; [vm_compute; reflexivity|]. split; reflexivity.
  - repeat split; vm_compute; reflexivity.
Qed.

(** ** Strings and paths *)

Local Open Scope string_scope.

Lemma string_app_assoc (a b c : string) : (a ++ b) ++ c = a ++ (b ++ c).
Proof. induction a as [|x a IH]; simpl; [reflexivity | rewrite IH; reflexivity]. Qed.

Lemma string_app_length (a b : string) :
  String.length (a ++ b) = (String.length a + String.length b)%nat.
Proof. induction a as [|x a IH]; simpl; [reflexivity | rewrite IH; reflexivity]. Qed.

Lemma substring_all (s : string) : substring 0 (String.length s) s = s.
Proof. induction s as [|c s IH]; simpl; [reflexivity | rewrite IH; reflexivity]. Qed.

Lemma substr_from_cons c s k : substr_from (String c s) (S k) = substr_from s k.
Proof. reflexivity. Qed.

(** A string is what comes before a position followed by what comes
    from it. *)
Lemma substring_split (s : string) (k : nat) :
  s = substring 0 k s ++ substr_from s k.
Proof.
  revert s. induction k as [|k IH]; intros s.
  - unfold substr_from. rewrite Nat.sub_0_r, substring_all.
    destruct s; reflexivity.
  - destruct s as [|c s]; [reflexivity|].
    rewrite substr_from_cons. simpl. rewrite <- IH. reflexivity.
Qed.

Lemma substr_from_app (pre suf : string) :
  substr_from (pre ++ suf) (String.length pre) = suf.
Proof.
  induction pre as [|c pre IH]; simpl.
  - unfold substr_from. rewrite Nat.sub_0_r. apply substring_all.
  - rewrite substr_from_cons. exact IH.
Qed.

Lemma fn_ends_with_iff (path suffix : string) :
  fn_ends_with path suffix = true <-> exists pre, path = pre ++ suffix.
Proof.
  unfold fn_ends_with. split.
  - destruct (Nat.ltb_spec (String.length path) (String.length suffix));
      [discriminate|].
    intros E. apply String.eqb_eq in E.
    exists (substring 0 (String.length path - String.length suffix) path).
    rewrite <- E at 2. apply substring_split.
  - intros [pre ->]. rewrite string_app_length.
    destruct (Nat.ltb_spec (String.length pre + String.length suffix)
                           (String.length suffix)); [lia|].
    replace (String.length pre + String.length suffix - String.length suffix)%nat
      with (String.length pre) by lia.
    rewrite substr_from_app. apply String.eqb_refl.
Qed.

(** Two ways of cutting a string before suffixes of one length cut it at
    the same place. *)
Lemma same_length_suffix (pre pre' a b : string) :
  String.length a = String.length b -> pre ++ a = pre' ++ b -> a = b.
Proof.
  revert pre'. induction pre as [|c pre IH]; intros pre' Hlen E.
  - destruct pre' as [|c' pre']; [exact E|].
    apply (f_equal String.length) in E. simpl in E.
    rewrite string_app_length in E. lia.
  - destruct pre' as [|c' pre'].
    + apply (f_equal String.length) in E. simpl in E.
      rewrite string_app_length in E. lia.
    + simpl in E. inversion E. eapply IH; eassumption.
Qed.

Lemma fn_ends_with_distinct (path a b : string) :
  String.length a = String.length b -> a <> b ->
  fn_ends_with path a = true -> fn_ends_with path b = false.
Proof.
  intros Hlen Hne Ha. destruct (fn_ends_with path b) eqn:Hb; [|reflexivity].
  apply fn_ends_with_iff in Ha. apply fn_ends_with_iff in Hb.
  destruct Ha as [pre Ea]. destruct Hb as [pre' Eb].
  exfalso. apply Hne. apply (same_length_suffix pre pre' a b Hlen).
  rewrite <- Ea. exact Eb.
Qed.

Lemma fn_ends_with_app (pre s suffix : string) :
  fn_ends_with s suffix = true -> fn_ends_with (pre ++ s) suffix = true.
Proof.
  intros H. apply fn_ends_with_iff in H. destruct H as [p ->].
  apply fn_ends_with_iff. exists (pre ++ p). symmetry. apply string_app_assoc.
Qed.

Lemma filename_suffix (p : string) : exists pre, p = pre ++ filename p.
Proof.
  unfold filename. destruct (rfind p "/") as [i|].
  - exists (substring 0 (S i) p). apply substring_split.
  - exists "". reflexivity.
Qed.

(** Where [rfind] finds the pattern, the pattern is. *)
Lemma rfind_prefix (s pat : string) (i : nat) :
  rfind s pat = Some i -> prefix pat (substr_from s i) = true.
Proof.
  revert i. induction s as [|c s IH]; intros i H.
  - cbn [rfind] in H. destruct (prefix pat "") eqn:Hp; [|discriminate].
    inversion H; subst. exact Hp.
  - cbn [rfind] in H. destruct (rfind s pat) as [p|].
    + inversion H; subst. rewrite substr_from_cons. apply IH. reflexivity.
    + destruct (prefix pat (String c s)) eqn:Hp; [|discriminate].
      inversion H; subst. unfold substr_from.
      rewrite Nat.sub_0_r, substring_all. exact Hp.
Qed.

(** An extension is empty or begins with its period. *)
Lemma extension_shape (p : string) :
  extension p = "" \/ exists rest, extension p = String "." rest.
Proof.
  unfold extension.
  destruct (String.eqb (filename p) "." || String.eqb (filename p) "..");
    [left; reflexivity|].
  destruct (rfind (filename p) ".") as [[|i]|] eqn:Hr;
    [left; reflexivity | | left; reflexivity].
  right. apply rfind_prefix in Hr.
  destruct (substr_from (filename p) (S i)) as [|c rest]; [discriminate|].
  cbn [prefix] in Hr. destruct (ascii_dec "." c) as [<-|]; [|discriminate].
  exists rest. reflexivity.
Qed.

(** The lower-cased extension is never the string [e01]: it keeps its
    leading period. *)
Lemma lowercase_extension_not_e01 (p : string) :
  transform_tolower (extension p) <> "e01".
Proof.
  destruct (extension_shape p) as [-> | [rest ->]]; simpl; discriminate.
Qed.

Local Close Scope string_scope.

(** ** The factory *)

Lemma is_disk_image_entry_iff (p : string) :
  is_disk_image_entry p = true <-> image_extension (extension p).
Proof.
  unfold is_disk_image_entry, image_extension.
  rewrite !orb_true_iff, !String.eqb_eq. tauto.
Qed.

Lemma add_file_throws fs this path e :
  add_file fs this path = Throw e ->
  e = filesystem_error \/ e = ReadError \/ e = SeekError.
Proof.
  unfold add_file, path_filesize.
  destruct (negb (fs_is_block_file fs path)).
  - destruct (fs_file_size fs path); simpl; [discriminate|].
    intros H. inversion H. auto.
  - destruct (fs_get_filesize fs path); simpl; [discriminate| |];
      intros H; inversion H; auto.
Qed.

(** C8.  [image_process::open] on an existing directory with recursion
    permitted: if one of the entries of the directory has the extension
    [.E01], [.000] or [.001], the factory raises [FoundDiskImage] (the
    specification's FoundUnexpectedImageFile) and builds no backend;
    if none has, it builds the Directory backend. *)
Theorem open_directory_refuses_images
        (PATH_MAX : nat) (HAVE_LIBEWF : bool) (fs : filesystem) (libewf : libewf_t)
        (fuel : nat) (fn : string) (pagesize_ margin_ : Z) :
  fs_exists fs fn = true -> fs_is_directory fs fn = true ->
  ((exists child, In child (fs_directory_iterator fs fn) /\
                  image_extension (extension child)) ->
   image_process_open PATH_MAX HAVE_LIBEWF fs libewf fuel fn true pagesize_ margin_
   = Some (Throw (FoundDiskImage fn))) /\
  ((forall child, In child (fs_directory_iterator fs fn) ->
                  ~ image_extension (extension child)) ->
   image_process_open PATH_MAX HAVE_LIBEWF fs libewf fuel fn true pagesize_ margin_
   = Some (Ok (Dir (new_process_dir fs fn)))).
Proof.
  intros Hex Hdir. unfold image_process_open. rewrite Hex, Hdir. cbn [negb].
  split.
  - intros (child & Hin & Hext).
    replace (existsb is_disk_image_entry (fs_directory_iterator fs fn)) with true;
      [reflexivity|].
    symmetry. apply existsb_exists. exists child. split; [exact Hin|].
    apply is_disk_image_entry_iff. exact Hext.
  - intros Hnone.
    destruct (existsb is_disk_image_entry (fs_directory_iterator fs fn)) eqn:E;
      [|reflexivity].
    apply existsb_exists in E. destruct E as (child & Hin & Hext).
    exfalso. apply (Hnone child Hin). apply is_disk_image_entry_iff. exact Hext.
Qed.

(** A directory holding [disk.E01] is refused; one holding [a.txt] is
    opened as a directory. *)
Lemma open_directory_refuses_images_witness :
  image_process_open 4096 true Examples.five_parts Examples.no_decoder 8
                     "evidence" true 64 16
  = Some (Throw (FoundDiskImage "evidence")) /\
  image_process_open 4096 true Examples.five_parts Examples.no_decoder 8
                     "notes" true 64 16
  = Some (Ok (Dir (new_process_dir Examples.five_parts "notes"))).
Proof.
  split.
  - apply (open_directory_refuses_images 4096 true Examples.five_parts
             Examples.no_decoder 8 "evidence" 64 16 eq_refl eq_refl).
    exists "evidence/disk.E01"%string. split; [left; reflexivity|].
    left. reflexivity.
  - apply (open_directory_refuses_images 4096 true Examples.five_parts
             Examples.no_decoder 8 "notes" 64 16 eq_refl eq_refl).
    intros child [<-|[]]. vm_compute. intros [H|[H|H]]; discriminate H.
Defined.

Lemma e01_name_not_multipart (fn : string) :
  fn_ends_with (filename fn) ".e01" = true -> is_multipart_file fn = false.
Proof.
  intros H. destruct (filename_suffix fn) as [pre E].
  assert (Hfn : fn_ends_with fn ".e01" = true)
    by (rewrite E; apply fn_ends_with_app; exact H).
  unfold is_multipart_file.
  rewrite (fn_ends_with_distinct fn ".e01" ".000" eq_refl) by (discriminate || exact Hfn).
  rewrite (fn_ends_with_distinct fn ".e01" ".001" eq_refl) by (discriminate || exact Hfn).
  destruct (fn_ends_with fn "001.vmdk") eqn:Hv; [|reflexivity].
  exfalso. apply fn_ends_with_iff in Hv. destruct Hv as [p Ev].
  apply fn_ends_with_iff in Hfn. destruct Hfn as [q Eq].
  assert (Habs : ".e01"%string = "vmdk"%string).
  { apply (same_length_suffix q (p ++ "001.") ".e01" "vmdk" eq_refl).
    rewrite <- Eq, Ev, string_app_assoc. reflexivity. }
  discriminate Habs.
Qed.

(** C10.  [image_process::open] on an existing path that is not a
    directory, whose file name ends in [.e01] and which does not
    contain [.E01]: the lower-cased extension still has its period, so
    it is not the string [e01]; the search for [.E01] finds nothing; the
    factory therefore builds the segmented-raw backend and opens it as a
    single segment.  The outcome is never the container backend and
    never [NoSupport], with or without libewf. *)
Theorem open_lowercase_e01_is_raw
        (PATH_MAX : nat) (HAVE_LIBEWF : bool) (fs : filesystem) (libewf : libewf_t)
        (fuel : nat) (fn : string) (opt_recurse : bool) (pagesize_ margin_ : Z) :
  fs_exists fs fn = true -> fs_is_directory fs fn = false ->
  fn_ends_with (filename fn) ".e01" = true ->
  find fn ".E01" = None ->
  let opened :=
    image_process_open PATH_MAX HAVE_LIBEWF fs libewf fuel fn opt_recurse
                       pagesize_ margin_ in
  transform_tolower (extension fn) <> "e01"%string /\
  opened = Some (result_map Raw (add_file fs (new_process_raw fn pagesize_ margin_) fn)) /\
  (forall e, opened <> Some (Ok (Ewf e))) /\
  (forall what, opened <> Some (Throw (NoSupport what))).
Proof.
  intros Hex Hdir Hname Hfind. cbv zeta.
  pose proof (lowercase_extension_not_e01 fn) as Hext.
  assert (Hopen :
    image_process_open PATH_MAX HAVE_LIBEWF fs libewf fuel fn opt_recurse
                       pagesize_ margin_ =
    Some (result_map Raw (add_file fs (new_process_raw fn pagesize_ margin_) fn))).
  { unfold image_process_open. rewrite Hex, Hdir, Hfind. cbn [negb].
    apply String.eqb_neq in Hext. rewrite Hext. cbn [orb].
    unfold process_raw_open. cbn [new_process_raw raw_fname].
    rewrite (e01_name_not_multipart fn Hname).
    destruct (add_file fs _ fn); reflexivity. }
  split; [exact Hext|]. split; [exact Hopen|]. rewrite Hopen.
  split.
  - intros e H. inversion H as [H1].
    destruct (add_file fs _ fn); discriminate H1.
  - intros what H. inversion H as [H1].
    destruct (add_file fs _ fn) as [r|e|] eqn:Ha; try discriminate H1.
    simpl in H1. inversion H1; subst e.
    apply add_file_throws in Ha. destruct Ha as [Ha|[Ha|Ha]]; discriminate Ha.
Qed.

(** [disk.e01] is opened as a raw image of one segment, also when
    libewf is compiled in. *)
Lemma open_lowercase_e01_is_raw_witness :
  exists r,
    image_process_open 4096 true Examples.five_parts Examples.no_decoder 8
                       "disk.e01" false 64 16 = Some (Ok (Raw r)) /\
    raw_filesize r = 2048.
Proof.
  destruct (open_lowercase_e01_is_raw 4096 true Examples.five_parts
              Examples.no_decoder 8 "disk.e01" false 64 16
              eq_refl eq_refl eq_refl eq_refl) as (_ & Hopen & _).
  eexists. split; [rewrite Hopen; vm_compute; reflexivity | reflexivity].
Defined.

(** ** Pages are produced, templates are found *)

(** On a well-formed, readable split image, with a page and margin of
    less than 2^31 bytes together, [sbuf_alloc] at an offset below
    [total_size] returns the page, filled with the bytes of the logical
    image from that offset on. *)
Lemma sbuf_alloc_raw_produces (this : process_raw) (it : iterator) :
  well_formed (file_list this) (raw_filesize this) ->
  segments_readable (file_list this) ->
  0 <= raw_pagesize this -> 0 <= raw_margin this ->
  0 < raw_pagesize this + raw_margin this < 2 ^ 31 ->
  0 <= raw_offset it < raw_filesize this ->
  raw_filesize this + raw_pagesize this + raw_margin this < two64 ->
  let count := Z.min (raw_pagesize this + raw_margin this)
                     (raw_filesize this - raw_offset it) in
  process_raw_.sbuf_alloc this it =
  (it, Ok (Some (sbuf_malloc (process_raw_.get_pos0 this it) count
                             (Z.min (raw_pagesize this) count)
                             (slice (image_bytes (file_list this))
                                    (raw_offset it) count)))).
Proof.
  intros Hwf Hr Hp Hm Hpm Ho Hfit. cbv zeta.
  destruct (page_geometry (raw_pagesize this) (raw_margin this)
                          (raw_filesize this) (raw_offset it))
    as [Hcount Husable]; try lia.
  cbv zeta in Hcount, Husable.
  unfold process_raw_.sbuf_alloc. rewrite Husable, Hcount.
  set (count := Z.min (raw_pagesize this + raw_margin this)
                      (raw_filesize this - raw_offset it)) in *.
  assert (Hc : 0 < count < 2 ^ 31) by (unfold count; lia).
  rewrite (pread_in_range _ _ Hwf Hr count (raw_offset it))
    by (unfold count; lia).
  rewrite int_of_small by lia.
  destruct (Z.eqb_spec count 0); [lia|].
  destruct (Z.ltb_spec count 0); [lia|].
  reflexivity.
Qed.

(** The container sibling: when the decoder reports a count that is not
    negative, [sbuf_alloc] at an offset below [total_size] returns the
    page, filled with what the decoder stored. *)
Lemma sbuf_alloc_ewf_produces (this : process_ewf) (it : iterator) :
  0 <= ewf_pagesize this -> 0 <= ewf_margin this ->
  0 < ewf_pagesize this + ewf_margin this < 2 ^ 31 ->
  0 <= raw_offset it < ewf_filesize this ->
  ewf_filesize this + ewf_pagesize this + ewf_margin this < two64 ->
  let count := Z.min (ewf_pagesize this + ewf_margin this)
                     (ewf_filesize this - raw_offset it) in
  0 <= fst (handle this count (raw_offset it)) <= count ->
  process_ewf_.sbuf_alloc this it =
  (it, Ok (Some (sbuf_malloc (process_ewf_.get_pos0 this it) count
                             (Z.min (ewf_pagesize this) count)
                             (snd (handle this count (raw_offset it)))))).
Proof.
  intros Hp Hm Hpm Ho Hfit. cbv zeta.
  destruct (page_geometry (ewf_pagesize this) (ewf_margin this)
                          (ewf_filesize this) (raw_offset it))
    as [Hcount Husable]; try lia.
  cbv zeta in Hcount, Husable.
  unfold process_ewf_.sbuf_alloc, process_ewf_.pread. rewrite Husable, Hcount.
  set (count := Z.min (ewf_pagesize this + ewf_margin this)
                      (ewf_filesize this - raw_offset it)) in *.
  assert (Hc : 0 < count < 2 ^ 31) by (unfold count; lia).
  destruct (handle this count (raw_offset it)) as [r data]. cbn [fst snd].
  intros Hr.
  rewrite (int_of_small r) by lia. rewrite (int_of_small r) by lia.
  destruct (Z.ltb_spec r 0); [lia|].
  destruct (Z.eqb_spec count 0); [lia|].
  reflexivity.
Qed.

(** C4.  At a cursor offset below [total_size], [sbuf_alloc] on a
    byte-addressed backend that can serve the read produces a page, and
    the page has total length
    [count = min (pagesize + margin, total_size - offset)] and usable
    length [min (pagesize, count)], never more than [pagesize]; for the
    final page of the iteration (offset a multiple of [pagesize] with
    [total_size <= offset + pagesize]) the usable length is
    [total_size mod pagesize], or [pagesize] when that is zero.  The
    cursor is left where it was.  A page has at least one byte to ask
    for, and the sizes are taken to fit their types: [pagesize + margin]
    the [int count_read], the image and one page [uint64_t]. *)
Theorem sbuf_alloc_page_lengths
        (fs : filesystem) (ip : image_process) (it : iterator) :
  byte_addressed ip = true ->
  0 <= pagesize ip -> 0 <= margin ip ->
  0 < pagesize ip + margin ip < 2 ^ 31 ->
  0 <= raw_offset it < total_size ip ->
  total_size ip + pagesize ip + margin ip < two64 ->
  let count := Z.min (pagesize ip + margin ip) (total_size ip - raw_offset it) in
  serves ip (raw_offset it) count ->
  exists page,
    sbuf_alloc fs ip it = (it, Ok (Some page)) /\
    sbuf_bufsize page = count /\
    sbuf_pagesize page = Z.min (pagesize ip) count /\
    sbuf_pagesize page <= pagesize ip /\
    (forall k, raw_offset it = k * pagesize ip ->
               total_size ip <= raw_offset it + pagesize ip ->
               sbuf_pagesize page =
               if total_size ip mod pagesize ip =? 0
               then pagesize ip else total_size ip mod pagesize ip).
Proof.
  intros Hb Hp Hm Hint Ho Hfit count Hserves.
  assert (Hfinal : forall k, raw_offset it = k * pagesize ip ->
             total_size ip <= raw_offset it + pagesize ip ->
             Z.min (pagesize ip) count =
             if total_size ip mod pagesize ip =? 0
             then pagesize ip else total_size ip mod pagesize ip).
  { intros k Hk Hlast.
    set (r := total_size ip - raw_offset it) in *.
    assert (Hr : 0 < r <= pagesize ip) by (unfold r; lia).
    assert (Hpg : Z.min (pagesize ip) count = r) by (unfold count; lia).
    rewrite Hpg.
    assert (Htot : total_size ip = r + k * pagesize ip) by (unfold r; lia).
    destruct (Z.eq_dec r (pagesize ip)) as [E|NE].
    - replace (total_size ip mod pagesize ip) with 0.
      + cbn [Z.eqb]. exact E.
      + rewrite Htot, E.
        replace (pagesize ip + k * pagesize ip) with ((1 + k) * pagesize ip) by ring.
        symmetry. apply Z.mod_mul. lia.
    - assert (Hmod : total_size ip mod pagesize ip = r).
      { rewrite Htot, Z.mod_add by lia. apply Z.mod_small. lia. }
      rewrite Hmod. destruct (Z.eqb_spec r 0); [lia | reflexivity]. }
  destruct ip as [r|e|d]; [| |discriminate]; cbn [sbuf_alloc].
  - destruct Hserves as [Hwf Hread].
    eexists. split.
    + apply (sbuf_alloc_raw_produces r it Hwf Hread); cbn in *; lia.
    + cbn [sbuf_bufsize sbuf_pagesize sbuf_malloc].
      split; [reflexivity|]. split; [reflexivity|]. split; [cbn in *; lia|].
      exact Hfinal.
  - eexists. split.
    + apply (sbuf_alloc_ewf_produces e it); cbn in *; try lia. exact Hserves.
    + cbn [sbuf_bufsize sbuf_pagesize sbuf_malloc].
      split; [reflexivity|]. split; [reflexivity|]. split; [cbn in *; lia|].
      exact Hfinal.
Qed.

(** The final page of the sample split image, at offset 192 of 200
    bytes with pages of 64: 8 bytes, all usable, [200 mod 64]; and the
    second page of the sample container image, 10 bytes at offset 10. *)
Lemma sbuf_alloc_page_lengths_witness :
  (exists page,
      sbuf_alloc Examples.five_parts (Raw Examples.raw_image)
                 (set_raw_offset new_iterator 192)
      = (set_raw_offset new_iterator 192, Ok (Some page)) /\
      sbuf_bufsize page = 8 /\ sbuf_pagesize page = 8) /\
  (exists page,
      sbuf_alloc Examples.five_parts (Ewf (Examples.ewf_image Examples.zero_decoder))
                 (set_raw_offset new_iterator 10)
      = (set_raw_offset new_iterator 10, Ok (Some page)) /\
      sbuf_bufsize page = 10 /\ sbuf_pagesize page = 10).
Proof.
  split.
  - destruct (sbuf_alloc_page_lengths Examples.five_parts (Raw Examples.raw_image)
                (set_raw_offset new_iterator 192)
                eq_refl ltac:(simpl; lia) ltac:(simpl; lia) ltac:(simpl; lia)
                ltac:(simpl; lia) eq_refl
                (conj two_segments_well_formed two_segments_readable))
      as (page & Halloc & Hbuf & Hpage & _).
    exists page. split; [exact Halloc|]. split; [exact Hbuf | exact Hpage].
  - destruct (sbuf_alloc_page_lengths Examples.five_parts
                (Ewf (Examples.ewf_image Examples.zero_decoder))
                (set_raw_offset new_iterator 10)
                eq_refl ltac:(simpl; lia) ltac:(simpl; lia) ltac:(simpl; lia)
                ltac:(simpl; lia) eq_refl ltac:(simpl; lia))
      as (page & Halloc & Hbuf & Hpage & _).
    exists page. split; [exact Halloc|]. split; [exact Hbuf | exact Hpage].
Defined.

Local Open Scope string_scope.

Lemma prefix_rfind (s pat : string) :
  prefix pat s = true -> rfind s pat <> None.
Proof.
  intros H. destruct s as [|c s]; cbn [rfind].
  - rewrite H. discriminate.
  - destruct (rfind s pat); [discriminate|]. rewrite H. discriminate.
Qed.

Lemma rfind_app (pre s pat : string) :
  rfind s pat <> None -> rfind (pre ++ s) pat <> None.
Proof.
  intros H. induction pre as [|c pre IH]; [exact H|].
  cbn [append rfind]. destruct (rfind (pre ++ s) pat); [discriminate|].
  exfalso. apply IH. reflexivity.
Qed.

Lemma fn_ends_with_rfind (path pre pat tail : string) :
  fn_ends_with path (pre ++ pat ++ tail) = true ->
  prefix pat (pat ++ tail) = true ->
  rfind path pat <> None.
Proof.
  intros H Hp. apply fn_ends_with_iff in H. destruct H as [q ->].
  rewrite <- string_app_assoc. apply rfind_app, prefix_rfind, Hp.
Qed.

(** The assertion of [make_list_template] holds for every name that
    [is_multipart_file] accepts: the template is made. *)
Lemma make_list_template_defined (fn : string) :
  is_multipart_file fn = true ->
  exists templ start, make_list_template fn = Ok (templ, start).
Proof.
  unfold is_multipart_file, make_list_template. intros H.
  destruct (rfind fn "000") as [p|] eqn:H0; [eexists; eexists; reflexivity|].
  destruct (rfind fn "001") as [p|] eqn:H1; [eexists; eexists; reflexivity|].
  exfalso. apply orb_true_iff in H. destruct H as [H|H];
    [apply orb_true_iff in H; destruct H as [H|H]|].
  - apply (fn_ends_with_rfind fn "." "000" "" H eq_refl). exact H0.
  - apply (fn_ends_with_rfind fn "." "001" "" H eq_refl). exact H1.
  - apply (fn_ends_with_rfind fn "" "001" ".vmdk" H eq_refl). exact H1.
Qed.

Local Close Scope string_scope.

(** ** Names ending in [.000] *)

Local Open Scope string_scope.

Lemma rfind_final_digits (pre : string) :
  rfind (pre ++ ".000") "000" = Some (S (String.length pre)).
Proof.
  induction pre as [|c pre IH]; [reflexivity|].
  cbn [append rfind String.length]. rewrite IH. reflexivity.
Qed.

Lemma substring_skip (pre s : string) (k m : nat) :
  substring (String.length pre + k) m (pre ++ s) = substring k m s.
Proof. induction pre as [|c pre IH]; [reflexivity | exact IH]. Qed.

Lemma substring_take (pre s : string) (m : nat) :
  substring 0 (String.length pre + m) (pre ++ s) = pre ++ substring 0 m s.
Proof.
  induction pre as [|c pre IH]; [reflexivity|].
  cbn [append String.length Nat.add substring]. rewrite IH. reflexivity.
Qed.

(** For [pre.000] the template is [pre.%03d] and probing starts at 1. *)
Lemma make_list_template_000 (pre : string) :
  make_list_template (pre ++ ".000") = Ok (pre ++ ".%03d", 1).
Proof.
  unfold make_list_template. rewrite rfind_final_digits.
  replace (S (String.length pre)) with (String.length pre + 1)%nat by lia.
  rewrite substring_skip. cbn [substring]. unfold replace, substr_from.
  rewrite substring_take.
  replace (String.length pre + 1 + 3)%nat with (String.length pre + 4)%nat by lia.
  rewrite substring_skip, string_app_length.
  replace (String.length pre + String.length ".000" - (String.length pre + 4))%nat
    with O by (simpl; lia).
  cbn [substring]. rewrite string_app_assoc. reflexivity.
Qed.

Lemma vformat_plain (pre rest : string) (arg : option Z) :
  no_percent pre = true ->
  vformat (pre ++ rest) arg = (s <- vformat rest arg ;; Ok (pre ++ s)).
Proof.
  induction pre as [|c pre IH]; intros H.
  - simpl. destruct (vformat rest arg); reflexivity.
  - cbn [no_percent] in H. apply andb_true_iff in H. destruct H as [Hc Hpre].
    cbn [append vformat]. apply negb_true_iff in Hc. rewrite Hc, (IH Hpre).
    destruct (vformat rest arg); reflexivity.
Qed.

Lemma string_app_nil_r (s : string) : s ++ "" = s.
Proof. induction s as [|c s IH]; simpl; [reflexivity | rewrite IH; reflexivity]. Qed.

Lemma substring_whole (s : string) (k : nat) :
  (String.length s <= k)%nat -> substring 0 k s = s.
Proof.
  revert k. induction s as [|c s IH]; intros [|k] H; simpl in *;
    try reflexivity; try lia.
  rewrite IH by lia. reflexivity.
Qed.

Lemma vformat_digits (num : Z) :
  vformat ".%03d" (Some num) = Ok (String "." (format_03d num ++ "")).
Proof. reflexivity. Qed.

(** The probe for [num] made from the template of [pre.000], when the
    name has no percent sign and fits the buffer: [pre.] followed by
    [num] in at least three digits. *)
Lemma probe_name_000 (PATH_MAX : nat) (pre : string) (num : Z) :
  no_percent pre = true ->
  (String.length (pre ++ "." ++ format_03d num) <= PATH_MAX - 1)%nat ->
  snprintf PATH_MAX (pre ++ ".%03d") num = Ok (pre ++ "." ++ format_03d num).
Proof.
  intros Hpre Hfit. unfold snprintf.
  rewrite (vformat_plain pre _ _ Hpre), vformat_digits, string_app_nil_r.
  cbn [bind]. rewrite substring_whole by exact Hfit. reflexivity.
Qed.

Local Close Scope string_scope.

(** * Further properties *)

(** ** get_filesize *)

Lemma land_multiple_pow2 (k i : Z) :
  0 <= i -> Z.land (k * 2 ^ (i + 1)) (2 ^ i) = 0.
Proof.
  intros Hi. apply Z.bits_inj'. intros n Hn.
  rewrite Z.land_spec, Z.bits_0, Z.pow2_bits_eqb by exact Hi.
  destruct (Z.eqb_spec i n) as [<-|]; [|apply andb_false_r].
  rewrite Z.mul_pow2_bits_low by lia. reflexivity.
Qed.

Lemma lor_multiple_pow2 (k i : Z) :
  0 <= i -> Z.lor (k * 2 ^ (i + 1)) (2 ^ i) = k * 2 ^ (i + 1) + 2 ^ i.
Proof.
  intros Hi. pose proof (Z.add_lor_land (k * 2 ^ (i + 1)) (2 ^ i)) as H.
  rewrite land_multiple_pow2 in H by exact Hi. lia.
Qed.

Lemma land_lnot_multiple_pow2 (k i : Z) :
  0 <= i -> Z.land (k * 2 ^ (i + 1)) (Z.lnot (2 ^ i)) = k * 2 ^ (i + 1).
Proof.
  intros Hi. apply Z.bits_inj'. intros n Hn.
  rewrite Z.land_spec, Z.lnot_spec, Z.pow2_bits_eqb by lia.
  destruct (Z.eqb_spec i n) as [<-|]; [|apply andb_true_r].
  rewrite Z.mul_pow2_bits_low by lia. reflexivity.
Qed.

(** Phase 2 is a binary search: from a multiple [m] of [2^n] with the
    last readable offset [t] in [m, m + 2^n), it arrives at [t]. *)
Lemma blank_bits_search (fd : descriptor) (t : Z) :
  (forall off, 1 <= off -> pread64_one fd off = (off <=? t)) ->
  forall (n : nat) (k : Z),
    0 <= k ->
    k * 2 ^ Z.of_nat n <= t < k * 2 ^ Z.of_nat n + 2 ^ Z.of_nat n ->
    blank_bits fd n (k * 2 ^ Z.of_nat n) = t.
Proof.
  intros Hread. induction n as [|i IH]; intros k Hk Hrange.
  - simpl in *. lia.
  - cbn [blank_bits].
    assert (Hi : 0 <= Z.of_nat i) by lia.
    replace (Z.of_nat (S i)) with (Z.of_nat i + 1) in * by lia.
    rewrite Z.shiftl_1_l.
    assert (Hpow : 2 ^ (Z.of_nat i + 1) = 2 * 2 ^ Z.of_nat i)
      by (rewrite Z.pow_add_r by lia; lia).
    assert (Hpos : 0 < 2 ^ Z.of_nat i) by (apply Z.pow_pos_nonneg; lia).
    rewrite lor_multiple_pow2 by exact Hi.
    rewrite Hread by nia.
    destruct (Z.leb_spec (k * 2 ^ (Z.of_nat i + 1) + 2 ^ Z.of_nat i) t) as [Hle|Hgt].
    + replace (k * 2 ^ (Z.of_nat i + 1) + 2 ^ Z.of_nat i)
        with ((2 * k + 1) * 2 ^ Z.of_nat i) in * by nia.
      apply IH; nia.
    + rewrite land_lnot_multiple_pow2 by exact Hi.
      replace (k * 2 ^ (Z.of_nat i + 1)) with ((2 * k) * 2 ^ Z.of_nat i) in * by nia.
      apply IH; nia.
Qed.

(** Phase 1 on a device: it stops at the first power of two that is not
    below the size, or runs through all sixty. *)
Lemma seek_limit_device (size : Z) (fuel : nat) :
  forall bits filesize,
    0 <= bits -> bits + Z.of_nat fuel = 60 ->
    (bits = 0 \/ 2 ^ (bits - 1) < size) ->
    let '(b, f) := seek_limit (device size) fuel bits filesize in
    (b = 60 /\ 2 ^ 59 < size) \/
    (0 <= b < 60 /\ f = 2 ^ b /\ size <= 2 ^ b).
Proof.
  induction fuel as [|fuel IH]; intros bits filesize Hb Hsum Hprev.
  - simpl. left. replace bits with 60 in * by lia.
    split; [reflexivity|]. destruct Hprev as [H|H]; [lia | exact H].
  - cbn [seek_limit]. rewrite Z.shiftl_1_l.
    assert (Hpos : 0 < 2 ^ bits) by (apply Z.pow_pos_nonneg; lia).
    unfold device at 1. cbn [pread64_one].
    destruct (Z.leb_spec 0 (2 ^ bits)); [|lia].
    destruct (Z.ltb_spec (2 ^ bits) size) as [Hlt|Hge]; cbn [andb negb].
    + specialize (IH (bits + 1) (2 ^ bits)).
      apply IH; [lia | lia |].
      right. replace (bits + 1 - 1) with bits by lia. exact Hlt.
    + right. split; [lia|]. split; [reflexivity | exact Hge].
Qed.

(** X1.  [get_filesize] on a device of [size] bytes for which [fstat]
    gives no size: the probing finds [size] when [2 <= size <= 2^59];
    it reports 0 for a device of one byte, as for an empty one (offset 0
    is never probed and the final [+1] is skipped at 0); and it throws
    [SeekError] when the device is larger than 2^59 bytes. *)
Theorem get_filesize_device (size : Z) :
  get_filesize (device size) =
  if 2 ^ 59 <? size then Throw SeekError
  else if size <=? 1 then Ok 0
  else Ok size.
Proof.
  unfold get_filesize. cbn [device fstat_size].
  pose proof (seek_limit_device size 60 0 0 ltac:(lia) ltac:(lia) ltac:(left; reflexivity))
    as Hp1.
  destruct (seek_limit (device size) 60 0 0) as [b f].
  destruct Hp1 as [[-> Hbig] | (Hb & -> & Hsmall)].
  - change (60 =? 60) with true. cbv iota.
    destruct (Z.ltb_spec (2 ^ 59) size); [reflexivity | lia].
  - destruct (Z.eqb_spec b 60); [lia|].
    assert (H59 : 2 ^ b <= 2 ^ 59) by (apply Z.pow_le_mono_r; lia).
    destruct (Z.ltb_spec (2 ^ 59) size); [lia|].
    assert (Hpos : 0 < 2 ^ b) by (apply Z.pow_pos_nonneg; lia).
    set (t := Z.max 0 (size - 1)).
    assert (Hread : forall off, 1 <= off ->
                                pread64_one (device size) off = (off <=? t)).
    { intros off Hoff. cbn [device pread64_one].
      destruct (Z.leb_spec 0 off); [|lia]. cbn [andb].
      destruct (Z.ltb_spec off size); destruct (Z.leb_spec off t);
        try reflexivity; unfold t in *; lia. }
    assert (Hsearch : blank_bits (device size) (S (Z.to_nat b)) (2 ^ b) = t).
    { cbn [blank_bits]. rewrite Z2Nat.id, Z.shiftl_1_l by lia.
      rewrite Z.lor_diag, Hread by lia.
      destruct (Z.leb_spec (2 ^ b) t); [unfold t in *; lia|].
      rewrite Z.land_lnot_diag.
      pose proof (blank_bits_search (device size) t Hread (Z.to_nat b) 0) as Hs.
      rewrite Z2Nat.id in Hs by lia. rewrite Z.mul_0_l in Hs.
      apply Hs; unfold t; lia. }
    rewrite Hsearch.
    destruct (Z.leb_spec size 1).
    + replace t with 0 by (unfold t; lia). reflexivity.
    + destruct (Z.gtb_spec t 0); unfold t in *; [f_equal; lia | lia].
Qed.

(** ** Reads on any table *)

Lemma seekg_survives (s : ifstream) (pos : Z) :
  failbit (seekg s pos) || badbit (seekg s pos) = false ->
  seekg s pos = goodbit.
Proof.
  unfold seekg.
  destruct (failbit (rdstate s) || badbit (rdstate s)) eqn:E;
    [intros H; rewrite H in E; discriminate|].
  destruct (2 ^ 63 <=? pos); [discriminate | reflexivity].
Qed.

Lemma stream_read_survives (s : ifstream) (pos n : Z) (d : list byte) (st' : iostate) :
  0 <= n ->
  stream_read s goodbit pos n = (d, st') -> failbit st' = false ->
  st' = goodbit /\ Z.of_nat (List.length d) = n /\
  d = slice (content s) pos n /\
  n <= Z.of_nat (List.length (skipn (Z.to_nat pos) (content s))).
Proof.
  intros Hn. unfold stream_read.
  change (failbit goodbit || badbit goodbit || eofbit goodbit) with false.
  cbv iota zeta.
  destruct ((n <? 2 ^ 63) &&
            (n <=? Z.of_nat (List.length (skipn (Z.to_nat pos) (content s))))) eqn:E.
  - intros H _. inversion H; subst. apply andb_true_iff in E.
    destruct E as [_ E]. apply Z.leb_le in E.
    split; [reflexivity|]. split; [|split; [reflexivity | exact E]].
    rewrite length_firstn. lia.
  - intros H Hf. inversion H; subst. discriminate Hf.
Qed.

(** What one activation of [pread] can do, on any table and any
    streams. *)
Lemma pread_body_shape (fl : file_list_t) (bytes offset : Z) :
  0 <= bytes < 2 ^ 63 ->
  match pread_body fl bytes offset with
  | Return n d => 0 <= n <= bytes /\ Z.of_nat (List.length d) = n
  | Raise e => e = SeekError \/ e = ReadError
  | Recurse br d b' o' =>
      0 < br < bytes /\ Z.of_nat (List.length d) = br /\ b' = bytes - br
  end.
Proof.
  intros Hb. unfold pread_body.
  destruct (find_offset fl offset) as [fi|] eqn:Hf; [|simpl; lia].
  destruct (find_offset_some _ _ _ Hf) as [_ [H1 H2]].
  destruct (Z.leb_spec (fi_offset fi) offset); [|lia].
  destruct (Z.ltb_spec offset (wrap64 (fi_offset fi + fi_length fi))); [|lia].
  cbn [negb]. cbv iota.
  set (fo := wrap64 (offset - fi_offset fi)).
  set (av := wrap64 (fi_length fi - fo)).
  pose proof (wrap64_range (fi_length fi - fo)) as Hav. fold av in Hav.
  set (btr := if bytes >? av then av else bytes).
  assert (Hbtr : 0 <= btr <= bytes)
    by (unfold btr; destruct (Z.gtb_spec bytes av); lia).
  destruct (failbit (seekg (fi_stream fi) fo) || badbit (seekg (fi_stream fi) fo))
    eqn:Hseek; [left; reflexivity|].
  rewrite (seekg_survives _ _ Hseek).
  destruct (stream_read (fi_stream fi) goodbit fo btr) as [d st'] eqn:Hread.
  destruct (failbit st') eqn:Hfail; [right; reflexivity|].
  destruct (stream_read_survives _ _ _ _ _ (proj1 Hbtr) Hread Hfail)
    as (-> & Hlen & _ & _).
  cbn [badbit eofbit goodbit]. cbv iota.
  destruct (Z.eqb_spec btr bytes) as [E|NE].
  - rewrite ssize_of_small by lia. lia.
  - destruct (Z.eqb_spec btr 0) as [E0|NE0]; [lia|].
    assert (btr < bytes) by lia.
    rewrite (wrap64_small (bytes - btr)) by (change two64 with (2 * 2 ^ 63); lia).
    lia.
Qed.

(** X2.  Whatever the segment table and the state of the streams, a
    [pread] of fewer than 2^63 bytes that returns has stored exactly the
    number of bytes it reports, a number between 0 and the request: it
    never returns -1, although the code provides for it. *)
Theorem pread_result_bounds (fl : file_list_t) (bytes offset n : Z) (data : list byte) :
  0 <= bytes < 2 ^ 63 ->
  pread fl bytes offset = Ok (n, data) ->
  0 <= n <= bytes /\ Z.of_nat (List.length data) = n.
Proof.
  intros Hb. revert offset n data.
  assert (Hind : forall k bytes, Z.to_nat bytes = k -> 0 <= bytes < 2 ^ 63 ->
             forall offset n data, pread fl bytes offset = Ok (n, data) ->
             0 <= n <= bytes /\ Z.of_nat (List.length data) = n);
    [|exact (Hind _ bytes eq_refl Hb)].
  clear bytes Hb. intros k. induction k as [k IH] using lt_wf_ind.
  intros bytes Hk Hb offset n data. rewrite pread_eq.
  pose proof (pread_body_shape fl bytes offset Hb) as Hshape.
  destruct (pread_body fl bytes offset) as [n0 d0|e|br d b' o'].
  - intros H. inversion H; subst. exact Hshape.
  - discriminate.
  - destruct Hshape as (Hbr & Hlen & ->).
    destruct (pread fl (bytes - br) o') as [[n2 d2]|e|] eqn:Hrec; try discriminate.
    destruct (IH (Z.to_nat (bytes - br)) ltac:(lia) (bytes - br) eq_refl
                 ltac:(lia) o' n2 d2 Hrec) as [Hn2 Hl2].
    destruct (Z.ltb_spec n2 0) as [Hneg|Hnn]; [lia|].
    intros Hres. inversion Hres; subst.
    rewrite wrap64_small by (change two64 with (2 * 2 ^ 63); lia).
    rewrite ssize_of_small by lia.
    rewrite length_app, Nat2Z.inj_add. lia.
Qed.

Lemma pread_result_bounds_witness :
  pread Examples.two_segments 20 195 = Ok (5, repeat xbb 5) /\
  0 <= 5 <= 20.
Proof.
  assert (H : pread Examples.two_segments 20 195 = Ok (5, repeat xbb 5))
    by (vm_compute; reflexivity).
  split; [exact H|].
  exact (proj1 (pread_result_bounds Examples.two_segments 20 195 5 (repeat xbb 5)
                  ltac:(lia) H)).
Defined.

(** X3.  [pread] throws nothing but [SeekError] and [ReadError], on any
    table and for any request: the assertions hold for every segment
    [find_offset] returns, and the test for [eofbit] comes after the
    test for [failbit], which a read that runs into the end of the file
    sets as well, so [EndOfImage] is never thrown here. *)
Theorem pread_throws_seek_or_read (fl : file_list_t) (bytes offset : Z) (e : exn) :
  pread fl bytes offset = Throw e -> e = SeekError \/ e = ReadError.
Proof.
  revert offset.
  assert (Hind : forall k bytes, Z.to_nat bytes = k -> forall offset,
             pread fl bytes offset = Throw e -> e = SeekError \/ e = ReadError);
    [|exact (Hind _ bytes eq_refl)].
  clear bytes. intros k. induction k as [k IH] using lt_wf_ind.
  intros bytes Hk offset. rewrite pread_eq.
  destruct (pread_body fl bytes offset) as [n0 d0|e0|br d b' o'] eqn:Hbody.
  - discriminate.
  - intros H. inversion H; subst e0. revert Hbody. unfold pread_body.
    destruct (find_offset fl offset) as [fi|] eqn:Hf; [|discriminate].
    destruct (find_offset_some _ _ _ Hf) as [_ [H1 H2]].
    destruct (Z.leb_spec (fi_offset fi) offset); [|lia].
    destruct (Z.ltb_spec offset (wrap64 (fi_offset fi + fi_length fi))); [|lia].
    cbn [negb]. cbv iota.
    match goal with |- context [seekg ?s ?p] =>
      destruct (failbit (seekg s p) || badbit (seekg s p)) eqn:Hseek;
        [intros E; inversion E; left; reflexivity|];
      rewrite (seekg_survives _ _ Hseek)
    end.
    match goal with |- context [stream_read ?s ?st ?p ?n] =>
      destruct (stream_read s st p n) as [d st'] eqn:Hread
    end.
    destruct (failbit st') eqn:Hfail; [intros E; inversion E; right; reflexivity|].
    assert (Hst : st' = goodbit).
    { revert Hread Hfail. unfold stream_read.
      change (failbit goodbit || badbit goodbit || eofbit goodbit) with false.
      cbv iota zeta.
      match goal with |- context [if ?c then _ else _] => destruct c end;
        intros E Hf'; inversion E; subst; [reflexivity | discriminate Hf']. }
    rewrite Hst. cbn [badbit eofbit goodbit]. cbv iota.
    match goal with |- context [?x =? bytes] => destruct (x =? bytes) end;
      [discriminate|].
    match goal with |- context [?x =? 0] => destruct (x =? 0) end; discriminate.
  - apply pread_body_recurse in Hbody. destruct Hbody as (_ & _ & _ & Hb').
    destruct (pread fl b' o') as [[n2 d2]|e2|] eqn:Hrec.
    + destruct (n2 <? 0); discriminate.
    + intros H. inversion H; subst e2.
      apply (IH (Z.to_nat b') ltac:(lia) b' eq_refl o' Hrec).
    + discriminate.
Qed.

Lemma pread_throws_seek_or_read_witness :
  pread [ {| fi_path := "short"; fi_offset := 0; fi_length := 100;
             fi_stream := {| content := repeat x00 50; rdstate := goodbit |} |} ]
        20 40 = Throw ReadError.
Proof.
  destruct (pread_throws_seek_or_read
              [ {| fi_path := "short"; fi_offset := 0; fi_length := 100;
                   fi_stream := {| content := repeat x00 50; rdstate := goodbit |} |} ]
              20 40 ReadError ltac:(vm_compute; reflexivity)) as [H|H];
    [discriminate H | vm_compute; reflexivity].
Defined.

(** X4.  A segment that cannot deliver what the table promises fails
    the whole read.  When the stream of the owning segment is in a
    failed state, [pread] throws [SeekError]; when it is good but the
    file holds fewer bytes than the clamped read needs (a truncated
    segment), [pread] throws [ReadError]: it does not return the shorter
    count. *)
Theorem pread_on_broken_segment
        (fl : file_list_t) (bytes offset : Z) (fi : file_info) :
  find_offset fl offset = Some fi ->
  0 <= fi_offset fi -> 0 <= fi_length fi < 2 ^ 63 ->
  fi_offset fi + fi_length fi < two64 ->
  0 < bytes ->
  (failbit (rdstate (fi_stream fi)) || badbit (rdstate (fi_stream fi)) = true ->
   pread fl bytes offset = Throw SeekError) /\
  (rdstate (fi_stream fi) = goodbit ->
   Z.of_nat (List.length (content (fi_stream fi))) <
     (offset - fi_offset fi) + Z.min bytes (fi_offset fi + fi_length fi - offset) ->
   pread fl bytes offset = Throw ReadError).
Proof.
  intros Hf Ho Hl Hfit Hb.
  destruct (find_offset_some _ _ _ Hf) as [_ [H1 H2]].
  rewrite wrap64_small in H2 by lia.
  assert (Hbody : forall r,
    (let st := seekg (fi_stream fi) (offset - fi_offset fi) in
     if failbit st || badbit st then Raise SeekError
     else
       let '(data, st') :=
         stream_read (fi_stream fi) st (offset - fi_offset fi)
                     (Z.min bytes (fi_offset fi + fi_length fi - offset)) in
       if failbit st' then Raise ReadError else Return 0 data) = Raise r ->
    (r = SeekError \/ r = ReadError) ->
    pread_body fl bytes offset = Raise r).
  { intros r Hr _. unfold pread_body. rewrite Hf.
    rewrite (wrap64_small (fi_offset fi + fi_length fi)) by lia.
    destruct (Z.leb_spec (fi_offset fi) offset); [|lia].
    destruct (Z.ltb_spec offset (fi_offset fi + fi_length fi)); [|lia].
    cbn [negb]. cbv iota.
    rewrite (wrap64_small (offset - fi_offset fi)) by lia.
    rewrite (wrap64_small (fi_length fi - (offset - fi_offset fi))) by lia.
    replace (fi_length fi - (offset - fi_offset fi))
      with (fi_offset fi + fi_length fi - offset) by lia.
    replace (if bytes >? fi_offset fi + fi_length fi - offset
             then fi_offset fi + fi_length fi - offset else bytes)
      with (Z.min bytes (fi_offset fi + fi_length fi - offset))
      by (destruct (Z.gtb_spec bytes (fi_offset fi + fi_length fi - offset)); lia).
    cbv zeta in Hr.
    destruct (failbit (seekg (fi_stream fi) (offset - fi_offset fi)) ||
              badbit (seekg (fi_stream fi) (offset - fi_offset fi)));
      [exact Hr|].
    destruct (stream_read _ _ _ _) as [d st'].
    destruct (failbit st'); [exact Hr | discriminate Hr]. }
  split.
  - intros Hbad. rewrite pread_eq, (Hbody SeekError); [reflexivity | | left; reflexivity].
    cbv zeta. unfold seekg. rewrite Hbad, Hbad. reflexivity.
  - intros Hgood Hshort.
    rewrite pread_eq, (Hbody ReadError); [reflexivity | | right; reflexivity].
    cbv zeta. rewrite seekg_good by (try assumption; lia).
    change (failbit goodbit || badbit goodbit) with false. cbv iota.
    unfold stream_read.
    change (failbit goodbit || badbit goodbit || eofbit goodbit) with false.
    cbv iota zeta. rewrite length_skipn.
    replace (Z.min bytes (fi_offset fi + fi_length fi - offset) <=?
             Z.of_nat (List.length (content (fi_stream fi)) -
                       Z.to_nat (offset - fi_offset fi)))
      with false by (symmetry; apply Z.leb_gt; lia).
    rewrite andb_false_r. reflexivity.
Qed.

(** A segment recorded with 100 bytes whose file holds 50: the read of
    20 bytes at offset 40 is refused. *)
Lemma pread_on_broken_segment_witness :
  let fi := {| fi_path := "short"; fi_offset := 0; fi_length := 100;
               fi_stream := {| content := repeat x00 50; rdstate := goodbit |} |} in
  pread [fi] 20 40 = Throw ReadError.
Proof.
  cbv zeta.
  apply (pread_on_broken_segment
           [ {| fi_path := "short"; fi_offset := 0; fi_length := 100;
                fi_stream := {| content := repeat x00 50; rdstate := goodbit |} |} ]
           20 40 _ eq_refl); simpl; try reflexivity; try lia.
Defined.

(** ** Reads at the end of the image *)

Lemma slice_past_end (l : list byte) (o n : Z) :
  Z.of_nat (List.length l) <= o -> slice l o n = [].
Proof.
  intros H. unfold slice. rewrite skipn_all2 by lia. apply firstn_nil.
Qed.

(** The first activation of [pread] at an offset inside the image. *)
Lemma pread_body_inside fl total b o :
  well_formed fl total -> segments_readable fl ->
  0 < b < 2 ^ 63 -> 0 <= o < total ->
  exists av,
    0 < av /\ o + av <= total /\
    pread_body fl b o =
      if b <=? av then Return b (slice (image_bytes fl) o b)
      else Recurse av (slice (image_bytes fl) o av) (b - av) (o + av).
Proof.
  intros Hwf Hr Hb Ho.
  destruct (well_formed_inside fl total o Hwf) as (i & fi & Hnth & Hfind & Hseg & _);
    [lia|].
  destruct Hwf as (Hc & Htot & Htwo).
  unfold in_segment in Hseg.
  assert (Hfi : readable fi).
  { unfold segments_readable in Hr. rewrite Forall_forall in Hr.
    apply Hr. eapply nth_error_In. exact Hnth. }
  destruct Hfi as (Hgood & Hsz & H63).
  destruct (contiguous_lower_bound _ _ _ _ Hc Hnth) as [Hlow Hhigh].
  set (av := fi_offset fi + fi_length fi - o).
  exists av. split; [unfold av; lia|]. split; [unfold av; lia|].
  assert (Hd : slice (image_bytes fl) o (Z.min b av) =
               slice (content (fi_stream fi)) (o - fi_offset fi) (Z.min b av)).
  { rewrite (segment_slice 0 fl o fi (Z.min b av) Hc Hr Hfind) by (unfold av; lia).
    f_equal. lia. }
  unfold pread_body. rewrite Hfind.
  rewrite (wrap64_small (fi_offset fi + fi_length fi)) by lia.
  destruct (Z.leb_spec (fi_offset fi) o); [|lia].
  destruct (Z.ltb_spec o (fi_offset fi + fi_length fi)); [|lia].
  cbn [negb]. cbv iota.
  rewrite (wrap64_small (o - fi_offset fi)) by lia.
  rewrite (wrap64_small (fi_length fi - (o - fi_offset fi))) by lia.
  replace (fi_length fi - (o - fi_offset fi)) with av by (unfold av; lia).
  rewrite seekg_good by (try assumption; lia).
  change (failbit goodbit || badbit goodbit) with false. cbv iota.
  assert (Hmin : (if b >? av then av else b) = Z.min b av)
    by (destruct (Z.gtb_spec b av); lia).
  rewrite Hmin.
  rewrite stream_read_good by (unfold av; lia).
  cbn [failbit badbit eofbit goodbit]. cbv iota. rewrite <- Hd.
  destruct (Z.leb_spec b av) as [Hle|Hgt].
  - rewrite Z.min_l by lia. rewrite Z.eqb_refl.
    rewrite ssize_of_small by lia. reflexivity.
  - rewrite Z.min_r by lia.
    destruct (Z.eqb_spec av b); [lia|].
    destruct (Z.eqb_spec av 0); [unfold av in *; lia|].
    rewrite (wrap64_small (b - av))
      by (unfold av in *; change two64 with (2 * 2 ^ 63); lia).
    rewrite (wrap64_small (o + av)) by (unfold av in *; lia).
    reflexivity.
Qed.

(** X5.  End-of-image clipping.  On a well-formed, readable split
    image, [pread] of [b] bytes at any offset [o >= 0] returns
    [min (b, total_size - o)] bytes, or 0 at and beyond the end, and the
    bytes are those of the logical image from [o] on: a request that
    runs past the end is served up to the end and is not an error. *)
Theorem pread_clipped (fl : file_list_t) (total b o : Z) :
  well_formed fl total -> segments_readable fl ->
  0 <= b < 2 ^ 63 -> 0 <= o ->
  pread fl b o =
  Ok (Z.min b (Z.max 0 (total - o)), slice (image_bytes fl) o b).
Proof.
  intros Hwf Hr. revert o.
  assert (Hlen : Z.of_nat (List.length (image_bytes fl)) = total).
  { destruct Hwf as (Hc & -> & _). apply (image_bytes_length 0 fl Hc Hr). }
  assert (Hind : forall k b, Z.to_nat b = k -> forall o,
             0 <= b < 2 ^ 63 -> 0 <= o ->
             pread fl b o =
             Ok (Z.min b (Z.max 0 (total - o)), slice (image_bytes fl) o b));
    [|intros o Hb Ho; exact (Hind _ b eq_refl o Hb Ho)].
  clear b. intros k. induction k as [k IH] using lt_wf_ind.
  intros b Hk o Hb Ho.
  destruct (Z.le_gt_cases total o) as [Hout|Hin].
  - rewrite pread_eq. unfold pread_body.
    rewrite (well_formed_outside fl total o Hwf Hout).
    rewrite slice_past_end by lia. f_equal. f_equal. lia.
  - destruct (Z.le_gt_cases (o + b) total) as [Hfit|Hover].
    + rewrite (pread_in_range fl total Hwf Hr b o Hb Ho Hfit).
      f_equal. f_equal. lia.
    + destruct (pread_body_inside fl total b o Hwf Hr) as (av & Hav & Hend & Hbody);
        try lia.
      rewrite pread_eq, Hbody.
      destruct (Z.leb_spec b av); [lia|].
      rewrite (IH (Z.to_nat (b - av)) ltac:(lia) (b - av) eq_refl (o + av))
        by lia.
      destruct (Z.ltb_spec (Z.min (b - av) (Z.max 0 (total - (o + av)))) 0); [lia|].
      rewrite wrap64_small by (change two64 with (2 * 2 ^ 63); lia).
      rewrite ssize_of_small by lia.
      assert (Hsl : slice (image_bytes fl) o (av + (b - av)) =
                    slice (image_bytes fl) o av ++
                    slice (image_bytes fl) (o + av) (b - av))
        by (apply slice_add; lia).
      replace (av + (b - av)) with b in Hsl by lia.
      rewrite Hsl. f_equal. f_equal. lia.
Qed.

(** The last 5 bytes of the sample image answer a read of 20 bytes at
    offset 195. *)
Lemma pread_clipped_witness :
  pread Examples.two_segments 20 195 = Ok (5, repeat xbb 5).
Proof.
  rewrite (pread_clipped Examples.two_segments 200 20 195
             two_segments_well_formed two_segments_readable
             ltac:(lia) ltac:(lia)).
  reflexivity.
Defined.

(** ** Cursors in use *)

Lemma raw_increment_in_range (r : process_raw) (it : iterator) :
  0 <= raw_filesize r ->
  0 <= raw_offset (process_raw_.increment_iterator r it) <= raw_filesize r.
Proof.
  intros Ht. unfold process_raw_.increment_iterator.
  cbn [set_raw_offset raw_offset].
  pose proof (wrap64_range (raw_offset it + raw_pagesize r)).
  destruct (Z.gtb_spec (wrap64 (raw_offset it + raw_pagesize r)) (raw_filesize r));
    cbn [set_raw_offset raw_offset]; lia.
Qed.

Lemma raw_seek_block_in_range (r : process_raw) (it : iterator) (block : Z) :
  0 <= raw_filesize r < two64 -> 0 <= raw_pagesize r ->
  0 <= raw_offset (fst (process_raw_.seek_block r it block)) <= raw_filesize r.
Proof.
  intros Ht Hp. unfold process_raw_.seek_block.
  pose proof (wrap64_range (block * raw_pagesize r)).
  destruct (Z.gtb_spec (wrap64 (block * raw_pagesize r)) (raw_filesize r)) as [Hgt|Hle];
    cbn [fst set_raw_offset raw_offset]; [|lia].
  assert (Hps : 0 < raw_pagesize r).
  { destruct (Z.eq_dec (raw_pagesize r) 0) as [E|]; [|lia].
    rewrite E, Z.mul_0_r in Hgt. change (wrap64 0) with 0 in Hgt. lia. }
  pose proof (Z.mul_div_le (raw_filesize r) (raw_pagesize r) Hps).
  assert (0 <= raw_filesize r / raw_pagesize r) by (apply Z.div_pos; lia).
  rewrite wrap64_small by nia. nia.
Qed.

(** X6.  A cursor of the segmented-raw backend never leaves the image:
    starting anywhere in [0, total_size] (as [begin()] and [end()] do),
    after any sequence of increments and seeks to any block numbers the
    offset is still in [0, total_size], also when the sums and products
    wrap; and no such step changes the [eof] flag. *)
Theorem raw_cursor_stays_in_image
        (r : process_raw) (ops : list cursor_op) (it : iterator) :
  0 <= raw_filesize r < two64 -> 0 <= raw_pagesize r ->
  0 <= raw_offset it <= raw_filesize r ->
  0 <= raw_offset (run_ops (Raw r) ops it) <= raw_filesize r /\
  eof (run_ops (Raw r) ops it) = eof it.
Proof.
  intros Ht Hp. revert it. unfold run_ops.
  induction ops as [|op ops IH]; intros it Hit; [split; [exact Hit | reflexivity]|].
  cbn [fold_left].
  assert (Hstep : 0 <= raw_offset (apply_op (Raw r) it op) <= raw_filesize r /\
                  eof (apply_op (Raw r) it op) = eof it).
  { destruct op as [|block]; cbn [apply_op increment_iterator seek_block].
    - split; [apply raw_increment_in_range; lia|].
      apply (increment_iterator_eof (Raw r)).
    - split; [apply raw_seek_block_in_range; assumption|].
      unfold process_raw_.seek_block. reflexivity. }
  destruct Hstep as [Hrange Heof].
  destruct (IH _ Hrange) as [H1 H2]. split; [exact H1|].
  rewrite H2. exact Heof.
Qed.

Lemma raw_cursor_stays_in_image_witness :
  let ip := Raw Examples.raw_image in
  0 <= raw_offset (run_ops ip [op_seek_block 2; op_increment; op_increment;
                               op_seek_block (2 ^ 63); op_seek_block 77]
                           (begin ip)) <= 200.
Proof.
  cbv zeta.
  apply (raw_cursor_stays_in_image Examples.raw_image
           [op_seek_block 2; op_increment; op_increment;
            op_seek_block (2 ^ 63); op_seek_block 77]
           (begin (Raw Examples.raw_image))); simpl; unfold two64; lia.
Defined.

(** After [n] increments from [begin()] a byte-addressed cursor is at
    [min (n * pagesize, total_size)]. *)
Lemma advance_offset (ip : image_process) (n : nat) :
  byte_addressed ip = true ->
  0 <= pagesize ip -> 0 <= total_size ip ->
  total_size ip + pagesize ip < two64 ->
  raw_offset (advance ip n (begin ip)) =
  Z.min (Z.of_nat n * pagesize ip) (total_size ip).
Proof.
  intros Hb Hp Ht Hfit. induction n as [|n IH].
  - simpl. rewrite (proj1 (begin_offset ip Hb)). lia.
  - cbn [advance].
    rewrite increment_iterator_offset by (try assumption; rewrite ?IH; lia).
    rewrite IH. lia.
Qed.

(** X7.  [process_raw::max_blocks] is the number of pages of the
    iteration: with a page size above zero it is
    [ceil (total_size / pagesize)]; that many increments from [begin()]
    bring the cursor to [total_size], and after fewer the cursor is
    still below it. *)
Theorem raw_max_blocks_counts_pages (r : process_raw) :
  0 < raw_pagesize r -> 0 <= raw_filesize r ->
  raw_filesize r + raw_pagesize r < two64 ->
  exists m,
    process_raw_max_blocks r = Ok (Z.of_nat m) /\
    (Z.of_nat m - 1) * raw_pagesize r < raw_filesize r <= Z.of_nat m * raw_pagesize r /\
    raw_offset (advance (Raw r) m (begin (Raw r))) = raw_filesize r /\
    (forall n, (n < m)%nat ->
               raw_offset (advance (Raw r) n (begin (Raw r))) < raw_filesize r).
Proof.
  intros Hp Ht Hfit.
  set (q := (raw_filesize r + raw_pagesize r - 1) / raw_pagesize r).
  pose proof (Z.div_mod (raw_filesize r + raw_pagesize r - 1) (raw_pagesize r)
                        ltac:(lia)) as Hdm.
  pose proof (Z.mod_pos_bound (raw_filesize r + raw_pagesize r - 1) (raw_pagesize r) Hp)
    as Hmod.
  fold q in Hdm.
  assert (Hq : 0 <= q) by (apply Z.div_pos; lia).
  exists (Z.to_nat q). rewrite Z2Nat.id by exact Hq.
  assert (Hbounds : (q - 1) * raw_pagesize r < raw_filesize r <= q * raw_pagesize r)
    by nia.
  split; [|split; [exact Hbounds|split]].
  - unfold process_raw_max_blocks.
    destruct (Z.eqb_spec (raw_pagesize r) 0); [lia|].
    rewrite wrap64_small by lia. reflexivity.
  - rewrite (advance_offset (Raw r) _ eq_refl ltac:(simpl; lia) ltac:(simpl; lia)
                            ltac:(simpl; lia)).
    cbn [pagesize total_size]. rewrite Z2Nat.id by exact Hq. lia.
  - intros n Hn.
    rewrite (advance_offset (Raw r) _ eq_refl ltac:(simpl; lia) ltac:(simpl; lia)
                            ltac:(simpl; lia)).
    cbn [pagesize total_size].
    assert (Z.of_nat n <= q - 1) by lia. nia.
Qed.

Lemma raw_max_blocks_counts_pages_witness :
  process_raw_max_blocks Examples.raw_image = Ok 4.
Proof.
  destruct (raw_max_blocks_counts_pages Examples.raw_image
              ltac:(simpl; lia) ltac:(simpl; lia) ltac:(simpl; unfold two64; lia))
    as (m & Hm & _).
  rewrite Hm. change (Ok 4 = Ok (Z.of_nat m)) in Hm. inversion Hm as [E].
  reflexivity.
Defined.

(** X8.  [process_ewf::max_blocks] rounds down: it is
    [floor (total_size / pagesize)], so when [total_size] is not a
    multiple of the page size the cursor is still below [total_size]
    after that many increments from [begin()], and the page it is on,
    the last and partial one, is not counted. *)
Theorem ewf_max_blocks_skips_partial_page (e : process_ewf) :
  0 < ewf_pagesize e -> 0 <= ewf_filesize e ->
  ewf_filesize e + ewf_pagesize e < two64 ->
  ewf_filesize e mod ewf_pagesize e <> 0 ->
  exists m,
    process_ewf_max_blocks e = Ok (Z.of_nat m) /\
    raw_offset (advance (Ewf e) m (begin (Ewf e))) = Z.of_nat m * ewf_pagesize e /\
    raw_offset (advance (Ewf e) m (begin (Ewf e))) < ewf_filesize e /\
    raw_offset (advance (Ewf e) (S m) (begin (Ewf e))) = ewf_filesize e.
Proof.
  intros Hp Ht Hfit Hrem.
  set (q := ewf_filesize e / ewf_pagesize e).
  pose proof (Z.div_mod (ewf_filesize e) (ewf_pagesize e) ltac:(lia)) as Hdm.
  pose proof (Z.mod_pos_bound (ewf_filesize e) (ewf_pagesize e) Hp) as Hmod.
  fold q in Hdm.
  assert (Hq : 0 <= q) by (apply Z.div_pos; lia).
  exists (Z.to_nat q).
  assert (Hoff : raw_offset (advance (Ewf e) (Z.to_nat q) (begin (Ewf e))) =
                 q * ewf_pagesize e).
  { rewrite (advance_offset (Ewf e) _ eq_refl ltac:(simpl; lia) ltac:(simpl; lia)
                            ltac:(simpl; lia)).
    cbn [pagesize total_size]. rewrite Z2Nat.id by exact Hq. nia. }
  rewrite Z2Nat.id by exact Hq.
  split; [|split; [exact Hoff|split]].
  - unfold process_ewf_max_blocks.
    destruct (Z.eqb_spec (ewf_pagesize e) 0); [lia | reflexivity].
  - rewrite Hoff. nia.
  - rewrite (advance_offset (Ewf e) _ eq_refl ltac:(simpl; lia) ltac:(simpl; lia)
                            ltac:(simpl; lia)).
    cbn [pagesize total_size]. rewrite Nat2Z.inj_succ, Z2Nat.id by exact Hq. nia.
Qed.

Lemma ewf_max_blocks_skips_partial_page_witness :
  let e := {| ewf_fname := "img.E01"; ewf_pagesize := 64; ewf_margin := 16;
              ewf_filesize := 200; handle := Examples.zero_decoder |} in
  process_ewf_max_blocks e = Ok 3 /\
  raw_offset (advance (Ewf e) 3 (begin (Ewf e))) = 192.
Proof.
  cbv zeta.
  destruct (ewf_max_blocks_skips_partial_page
              {| ewf_fname := "img.E01"; ewf_pagesize := 64; ewf_margin := 16;
                 ewf_filesize := 200; handle := Examples.zero_decoder |}
              ltac:(simpl; lia) ltac:(simpl; lia)
              ltac:(simpl; unfold two64; lia) ltac:(vm_compute; discriminate))
    as (m & Hm & Hoff & _).
  change (Ok 3 = Ok (Z.of_nat m)) in Hm. inversion Hm as [E].
  assert (Hm3 : m = 3%nat) by lia. subst m.
  split; [reflexivity | rewrite Hoff; reflexivity].
Defined.

(** X9.  Seeking and stepping agree: on a byte-addressed backend, for
    a block [n] inside the image ([n * pagesize <= total_size]),
    [seek_block (it, n)] from any cursor puts the offset where [n]
    increments from [begin()] put it, and returns [n]. *)
Theorem seek_block_is_advance (ip : image_process) (it : iterator) (n : nat) :
  byte_addressed ip = true ->
  0 <= pagesize ip -> total_size ip + pagesize ip < two64 ->
  Z.of_nat n * pagesize ip <= total_size ip ->
  raw_offset (fst (seek_block ip it (Z.of_nat n))) =
    raw_offset (advance ip n (begin ip)) /\
  snd (seek_block ip it (Z.of_nat n)) = Z.of_nat n.
Proof.
  intros Hb Hp Hfit Hin.
  assert (Ht : 0 <= total_size ip) by nia.
  rewrite (advance_offset ip n Hb Hp Ht Hfit), Z.min_l by exact Hin.
  destruct ip as [r|e|d]; [| |discriminate]; cbn [seek_block pagesize total_size] in *.
  - unfold process_raw_.seek_block.
    rewrite (wrap64_small (Z.of_nat n * raw_pagesize r)) by nia.
    destruct (Z.gtb_spec (Z.of_nat n * raw_pagesize r) (raw_filesize r)); [lia|].
    cbn [fst snd set_raw_offset raw_offset].
    rewrite wrap64_small by nia. split; reflexivity.
  - unfold process_ewf_.seek_block. cbn [fst snd set_raw_offset raw_offset].
    rewrite Z.mul_comm, wrap64_small by nia. split; reflexivity.
Qed.

Lemma seek_block_is_advance_witness :
  let ip := Raw Examples.raw_image in
  raw_offset (fst (seek_block ip (end_ ip) 2)) =
  raw_offset (advance ip 2 (begin ip)).
Proof.
  cbv zeta.
  exact (proj1 (seek_block_is_advance (Raw Examples.raw_image)
                  (end_ (Raw Examples.raw_image)) 2 eq_refl
                  ltac:(simpl; lia) ltac:(simpl; unfold two64; lia)
                  ltac:(simpl; lia))).
Defined.

(** ** Pages of a split image *)

Lemma sbuf_alloc_raw_end (r : process_raw) (it : iterator) :
  well_formed (file_list r) (raw_filesize r) ->
  0 <= raw_pagesize r -> 0 <= raw_margin r ->
  raw_filesize r + raw_pagesize r + raw_margin r < two64 ->
  raw_offset it = raw_filesize r ->
  process_raw_.sbuf_alloc r it = (set_eof it true, Throw EndOfImage).
Proof.
  intros Hwf Hp Hm Hfit Hoff.
  assert (Ht : 0 <= raw_filesize r).
  { destruct Hwf as (Hc & -> & _). apply (sum_lengths_nonneg 0 _ Hc). }
  destruct (page_geometry (raw_pagesize r) (raw_margin r)
                          (raw_filesize r) (raw_offset it))
    as [Hcount _]; try lia.
  cbv zeta in Hcount.
  apply (sbuf_alloc_raw_zero r it 0 0 []).
  - cbv zeta. rewrite Hcount. lia.
  - rewrite pread_eq. unfold pread_body.
    rewrite (well_formed_outside _ _ _ Hwf) by lia. reflexivity.
  - reflexivity.
Qed.

(** X10.  At the end of a well-formed split image the page producer
    ends the iteration: with the cursor at [total_size],
    [process_raw::sbuf_alloc] asks for 0 bytes, [pread] finds no owning
    segment and returns 0, the cursor's [eof] is set and [EndOfImage] is
    thrown, and no page is returned. *)
Theorem sbuf_alloc_raw_at_end (r : process_raw) (it : iterator) :
  well_formed (file_list r) (raw_filesize r) ->
  0 <= raw_pagesize r -> 0 <= raw_margin r ->
  raw_filesize r + raw_pagesize r + raw_margin r < two64 ->
  raw_offset it = raw_filesize r ->
  process_raw_.sbuf_alloc r it = (set_eof it true, Throw EndOfImage) /\
  eof (fst (process_raw_.sbuf_alloc r it)) = true.
Proof.
  intros Hwf Hp Hm Hfit Hoff.
  rewrite (sbuf_alloc_raw_end r it Hwf Hp Hm Hfit Hoff).
  split; reflexivity.
Qed.

Lemma sbuf_alloc_raw_at_end_witness :
  let raw := Raw Examples.raw_image in
  eof (fst (sbuf_alloc Examples.five_parts raw (advance raw 4 (begin raw)))) = true.
Proof.
  cbv zeta.
  exact (proj2 (sbuf_alloc_raw_at_end Examples.raw_image
                  (advance (Raw Examples.raw_image) 4 (begin (Raw Examples.raw_image)))
                  two_segments_well_formed ltac:(simpl; lia) ltac:(simpl; lia)
                  ltac:(simpl; unfold two64; lia) eq_refl)).
Defined.

Lemma firstn_slice (l : list byte) (o n u : Z) :
  0 <= u <= n -> firstn (Z.to_nat u) (slice l o n) = slice l o u.
Proof.
  intros Hu. unfold slice. rewrite firstn_firstn.
  replace (Init.Nat.min (Z.to_nat u) (Z.to_nat n)) with (Z.to_nat u) by lia.
  reflexivity.
Qed.

(** X11.  What a page of a split image holds.  On a well-formed,
    readable image, with page and margin below 2^31 bytes together, the
    page [process_raw::sbuf_alloc] returns at an offset below
    [total_size] carries that offset and an empty path as its
    provenance, the bytes of the logical image from the offset on in
    its buffer, and as its usable part the next
    [min (pagesize, total_size - offset)] bytes of the image; the cursor
    is returned unchanged. *)
Theorem sbuf_alloc_raw_page_bytes (r : process_raw) (it : iterator) :
  well_formed (file_list r) (raw_filesize r) ->
  segments_readable (file_list r) ->
  0 <= raw_pagesize r -> 0 <= raw_margin r ->
  0 < raw_pagesize r + raw_margin r < 2 ^ 31 ->
  0 <= raw_offset it < raw_filesize r ->
  raw_filesize r + raw_pagesize r + raw_margin r < two64 ->
  exists page,
    process_raw_.sbuf_alloc r it = (it, Ok (Some page)) /\
    sbuf_pos0 page = {| pos0_path := ""; pos0_offset := raw_offset it |} /\
    sbuf_buf page = slice (image_bytes (file_list r)) (raw_offset it) (sbuf_bufsize page) /\
    Z.of_nat (List.length (sbuf_buf page)) = sbuf_bufsize page /\
    sbuf_pagesize page = Z.min (raw_pagesize r) (raw_filesize r - raw_offset it) /\
    firstn (Z.to_nat (sbuf_pagesize page)) (sbuf_buf page) =
      slice (image_bytes (file_list r)) (raw_offset it) (sbuf_pagesize page).
Proof.
  intros Hwf Hr Hp Hm Hpm Ho Hfit.
  pose proof (sbuf_alloc_raw_produces r it Hwf Hr Hp Hm Hpm Ho Hfit) as H.
  cbv zeta in H.
  set (count := Z.min (raw_pagesize r + raw_margin r)
                      (raw_filesize r - raw_offset it)) in *.
  eexists. split; [exact H|].
  cbn [sbuf_malloc sbuf_pos0 sbuf_buf sbuf_bufsize sbuf_pagesize].
  split; [reflexivity|]. split; [reflexivity|]. split; [|split].
  - apply slice_length; try (unfold count; lia).
    destruct Hwf as (Hc & Htot & _).
    rewrite (image_bytes_length 0 _ Hc Hr). unfold count. lia.
  - unfold count. lia.
  - apply firstn_slice. unfold count. lia.
Qed.

Lemma sbuf_alloc_raw_page_bytes_witness :
  exists page,
    process_raw_.sbuf_alloc Examples.raw_image
      (advance (Raw Examples.raw_image) 1 (begin (Raw Examples.raw_image)))
    = (advance (Raw Examples.raw_image) 1 (begin (Raw Examples.raw_image)),
       Ok (Some page)) /\
    sbuf_pagesize page = 64.
Proof.
  destruct (sbuf_alloc_raw_page_bytes Examples.raw_image
              (advance (Raw Examples.raw_image) 1 (begin (Raw Examples.raw_image)))
              two_segments_well_formed two_segments_readable
              ltac:(simpl; lia) ltac:(simpl; lia) ltac:(simpl; lia)
              ltac:(vm_compute; split; [discriminate | reflexivity])
              ltac:(simpl; unfold two64; lia))
    as (page & Halloc & _ & _ & _ & Hps & _).
  exists page. split; [exact Halloc | rewrite Hps; reflexivity].
Defined.

(** The pages read from a cursor at [o] tile the image from [o] on. *)
Lemma usable_pages_from (fs : filesystem) (r : process_raw) :
  well_formed (file_list r) (raw_filesize r) ->
  segments_readable (file_list r) ->
  0 < raw_pagesize r -> 0 <= raw_margin r ->
  raw_pagesize r + raw_margin r < 2 ^ 31 ->
  raw_filesize r + raw_pagesize r + raw_margin r < two64 ->
  forall (n : nat) (it : iterator),
    0 <= raw_offset it <= raw_filesize r ->
    List.concat (usable_pages fs (Raw r) n it) =
    slice (image_bytes (file_list r)) (raw_offset it)
          (Z.min (Z.of_nat n * raw_pagesize r) (raw_filesize r - raw_offset it)).
Proof.
  intros Hwf Hr Hp Hm Hpm Hfit. induction n as [|n IH]; intros it Ho.
  - simpl. unfold slice. rewrite Z.min_l by lia. reflexivity.
  - cbn [usable_pages sbuf_alloc].
    destruct (Z.eq_dec (raw_offset it) (raw_filesize r)) as [Hend|Hin].
    + rewrite (sbuf_alloc_raw_end r it Hwf ltac:(lia) Hm Hfit Hend).
      rewrite Z.min_r by nia.
      replace (raw_filesize r - raw_offset it) with 0 by lia. reflexivity.
    + rewrite (sbuf_alloc_raw_produces r it Hwf Hr) by lia.
      cbn [sbuf_malloc sbuf_pagesize sbuf_buf concat].
      set (o := raw_offset it) in *.
      set (u := Z.min (raw_pagesize r)
                      (Z.min (raw_pagesize r + raw_margin r) (raw_filesize r - o))).
      assert (Hu : u = Z.min (raw_pagesize r) (raw_filesize r - o)) by (unfold u; lia).
      rewrite firstn_slice by (unfold u; lia).
      assert (Hnext : raw_offset (increment_iterator (Raw r) it) = o + u).
      { rewrite (increment_iterator_offset (Raw r) it eq_refl);
          cbn [pagesize total_size]; fold o; lia. }
      cbn [List.concat]. rewrite IH by (rewrite Hnext; lia).
      rewrite Hnext.
      replace (Z.min (Z.of_nat (S n) * raw_pagesize r) (raw_filesize r - o))
        with (u + Z.min (Z.of_nat n * raw_pagesize r) (raw_filesize r - (o + u)))
        by nia.
      symmetry. apply slice_add; nia.
Qed.

(** X12.  The pages tile the image.  Reading a well-formed, readable
    split image page by page from [begin()], incrementing after each
    page, the usable parts of the first [n] pages put end to end are the
    first [min (n * pagesize, total_size)] bytes of the logical image;
    once [n * pagesize] reaches [total_size] they are the whole image,
    each byte once, and asking for more pages adds nothing. *)
Theorem usable_pages_tile_image (fs : filesystem) (r : process_raw) (n : nat) :
  well_formed (file_list r) (raw_filesize r) ->
  segments_readable (file_list r) ->
  0 < raw_pagesize r -> 0 <= raw_margin r ->
  raw_pagesize r + raw_margin r < 2 ^ 31 ->
  raw_filesize r + raw_pagesize r + raw_margin r < two64 ->
  List.concat (usable_pages fs (Raw r) n (begin (Raw r))) =
    slice (image_bytes (file_list r)) 0
          (Z.min (Z.of_nat n * raw_pagesize r) (raw_filesize r)) /\
  (raw_filesize r <= Z.of_nat n * raw_pagesize r ->
   List.concat (usable_pages fs (Raw r) n (begin (Raw r))) =
   image_bytes (file_list r)).
Proof.
  intros Hwf Hr Hp Hm Hpm Hfit.
  assert (Ht : 0 <= raw_filesize r).
  { destruct Hwf as (Hc & -> & _). apply (sum_lengths_nonneg 0 _ Hc). }
  assert (Hmain :
    List.concat (usable_pages fs (Raw r) n (begin (Raw r))) =
    slice (image_bytes (file_list r)) 0
          (Z.min (Z.of_nat n * raw_pagesize r) (raw_filesize r))).
  { rewrite (usable_pages_from fs r Hwf Hr Hp Hm Hpm Hfit n (begin (Raw r)))
      by (simpl; lia).
    simpl raw_offset. rewrite Z.sub_0_r. reflexivity. }
  split; [exact Hmain|].
  intros Hall. rewrite Hmain, Z.min_r by exact Hall.
  unfold slice. simpl skipn.
  apply firstn_all2.
  destruct Hwf as (Hc & Htot & _).
  pose proof (image_bytes_length 0 _ Hc Hr). lia.
Qed.

Lemma usable_pages_tile_image_witness :
  List.concat (usable_pages Examples.five_parts (Raw Examples.raw_image) 4
                            (begin (Raw Examples.raw_image))) =
  repeat xaa 100 ++ repeat xbb 100.
Proof.
  rewrite (proj2 (usable_pages_tile_image Examples.five_parts Examples.raw_image 4
                    two_segments_well_formed two_segments_readable
                    ltac:(simpl; lia) ltac:(simpl; lia) ltac:(simpl; lia)
                    ltac:(simpl; unfold two64; lia))
                 ltac:(simpl; lia)).
  reflexivity.
Defined.

(** ** The directory backend *)

Lemma dir_advance_file_number (d : process_dir) (n : nat) :
  Z.of_nat (List.length (files d)) < two64 ->
  (n <= List.length (files d))%nat ->
  advance (Dir d) n (begin (Dir d)) =
  {| raw_offset := 0; file_number := Z.of_nat n; eof := false |}.
Proof.
  intros Hfit. induction n as [|n IH]; intros Hn; [reflexivity|].
  cbn [advance increment_iterator]. rewrite IH by lia.
  unfold process_dir_.increment_iterator, process_dir_.size.
  cbn [set_file_number file_number raw_offset eof].
  rewrite (wrap64_small (Z.of_nat n + 1)) by lia.
  rewrite (wrap64_small (Z.of_nat (List.length (files d)))) by lia.
  destruct (Z.gtb_spec (Z.of_nat n + 1) (Z.of_nat (List.length (files d)))); [lia|].
  unfold set_file_number. cbn [file_number raw_offset eof].
  f_equal. lia.
Qed.

(** X13.  The directory backend hands out one file per step, in the
    order of its file list: after [i] increments from [begin()],
    [sbuf_alloc] maps the [i]-th file; the cursor stops at the number of
    files, where [sbuf_alloc] indexes past the vector (undefined), so a
    caller has to compare with [end()] first; and [pread] refuses every
    read of more than zero bytes. *)
Theorem dir_iteration_maps_files (fs : filesystem) (d : process_dir) :
  Z.of_nat (List.length (files d)) + 1 < two64 ->
  (forall i fname,
      nth_error (files d) i = Some fname ->
      snd (sbuf_alloc fs (Dir d) (advance (Dir d) i (begin (Dir d)))) =
      (sbuf <- fs_map_file fs fname ;; Ok (Some sbuf))) /\
  (forall n, (List.length (files d) <= n)%nat ->
      file_number (advance (Dir d) n (begin (Dir d))) =
        Z.of_nat (List.length (files d)) /\
      snd (sbuf_alloc fs (Dir d) (advance (Dir d) n (begin (Dir d)))) = Undefined) /\
  (forall bytes offset, 0 < bytes ->
      process_dir_.pread d bytes offset =
      Throw (runtime_error "process_dir does not support pread")).
Proof.
  intros Hfit1.
  assert (Hfit : Z.of_nat (List.length (files d)) < two64) by lia.
  split; [|split].
  - intros i fname Hnth.
    assert (Hi : (i < List.length (files d))%nat)
      by (apply nth_error_Some; rewrite Hnth; discriminate).
    rewrite dir_advance_file_number by (try assumption; lia).
    cbn [sbuf_alloc]. unfold process_dir_sbuf_alloc. cbn [file_number].
    rewrite Nat2Z.id, Hnth. reflexivity.
  - intros n Hn.
    assert (Hstay : advance (Dir d) n (begin (Dir d)) =
                    {| raw_offset := 0;
                       file_number := Z.of_nat (List.length (files d));
                       eof := false |}).
    { induction n as [|n IH].
      - assert (List.length (files d) = O) by lia.
        rewrite (dir_advance_file_number d 0 Hfit) by lia.
        f_equal. lia.
      - destruct (Nat.eq_dec (List.length (files d)) (S n)) as [E|NE].
        + rewrite (dir_advance_file_number d (S n) Hfit) by lia.
          f_equal. lia.
        + cbn [advance increment_iterator]. rewrite IH by lia.
          unfold process_dir_.increment_iterator, process_dir_.size.
          cbn [set_file_number file_number raw_offset eof].
          rewrite (wrap64_small (Z.of_nat (List.length (files d)))) by lia.
          pose proof (wrap64_range (Z.of_nat (List.length (files d)) + 1)).
          destruct (Z.gtb_spec (wrap64 (Z.of_nat (List.length (files d)) + 1))
                               (Z.of_nat (List.length (files d)))) as [Hgt|Hle];
            [reflexivity|].
          cbn [set_file_number file_number raw_offset eof].
          exfalso. rewrite wrap64_small in Hle by lia. lia. }
    rewrite Hstay. cbn [file_number]. split; [reflexivity|].
    cbn [sbuf_alloc]. unfold process_dir_sbuf_alloc. cbn [file_number].
    rewrite Nat2Z.id.
    replace (nth_error (files d) (List.length (files d))) with (@None string);
      [reflexivity|].
    symmetry. apply nth_error_None. lia.
  - intros bytes offset Hb. unfold process_dir_.pread.
    destruct (Z.gtb_spec bytes 0); [reflexivity | lia].
Qed.

Lemma dir_iteration_maps_files_witness :
  let d := new_process_dir Examples.five_parts "notes" in
  files d = ["notes/a.txt"%string] /\
  snd (sbuf_alloc Examples.five_parts (Dir d) (advance (Dir d) 1 (begin (Dir d))))
  = Undefined.
Proof.
  cbv zeta. split; [reflexivity|].
  exact (proj2 (proj1 (proj2 (dir_iteration_maps_files Examples.five_parts
                  (new_process_dir Examples.five_parts "notes")
                  ltac:(simpl; unfold two64; lia))) 1%nat ltac:(simpl; lia))).
Defined.

(** ** The factory and the names of split files *)

(** X14.  For an existing path that is not a directory the factory
    looks at one thing only, whether the path, directory part included,
    contains [.E01]; the extension plays no part, since its lower-cased
    form is compared with a string without the period.  Without [.E01]
    the segmented-raw backend is built and opened, with or without
    libewf; with it, the container backend is, or [NoSupport] is thrown
    when libewf is not compiled in. *)
Theorem open_file_dispatch
        (PATH_MAX : nat) (fs : filesystem) (libewf : libewf_t)
        (fuel : nat) (fn : string) (opt_recurse : bool) (pagesize_ margin_ : Z) :
  fs_exists fs fn = true -> fs_is_directory fs fn = false ->
  (find fn ".E01" = None ->
   forall HAVE_LIBEWF,
     image_process_open PATH_MAX HAVE_LIBEWF fs libewf fuel fn opt_recurse
                        pagesize_ margin_ =
     option_map (result_map Raw)
                (process_raw_open PATH_MAX fs fuel (new_process_raw fn pagesize_ margin_))) /\
  (find fn ".E01" <> None ->
   image_process_open PATH_MAX false fs libewf fuel fn opt_recurse pagesize_ margin_ =
     Some (Throw (NoSupport "This program was compiled without E01 support")) /\
   image_process_open PATH_MAX true fs libewf fuel fn opt_recurse pagesize_ margin_ =
     Some (x <- libewf fn ;;
           Ok (Ewf {| ewf_fname := fn; ewf_pagesize := pagesize_;
                      ewf_margin := margin_; ewf_filesize := fst x;
                      handle := snd x |}))).
Proof.
  intros Hex Hdir.
  pose proof (lowercase_extension_not_e01 fn) as Hext.
  apply String.eqb_neq in Hext.
  split.
  - intros Hfind HAVE. unfold image_process_open.
    rewrite Hex, Hdir, Hfind, Hext. cbn [negb orb].
    destruct (process_raw_open _ _ _ _); reflexivity.
  - intros Hfind. unfold image_process_open. rewrite Hex, Hdir, Hext.
    destruct (find fn ".E01") as [p|]; [|exfalso; apply Hfind; reflexivity].
    cbn [negb orb]. split; [reflexivity|].
    destruct (libewf fn) as [[size h]| |]; reflexivity.
Qed.

(** A raw file inside a directory named [case.E01] is taken for a
    container. *)
Lemma open_file_dispatch_witness :
  let fs := Examples.sample_fs [("case.E01/disk.raw"%string, 512)] [] in
  image_process_open 4096 false fs Examples.no_decoder 8
                     "case.E01/disk.raw" false 64 16 =
  Some (Throw (NoSupport "This program was compiled without E01 support")).
Proof.
  cbv zeta.
  apply (open_file_dispatch 4096
           (Examples.sample_fs [("case.E01/disk.raw"%string, 512)] [])
           Examples.no_decoder 8 "case.E01/disk.raw" false 64 16 eq_refl eq_refl).
  vm_compute. discriminate.
Defined.

Local Open Scope string_scope.

Lemma substring_of_substr_from (s : string) (p m : nat) :
  substring 0 m (substr_from s p) = substring p m s.
Proof.
  revert p. induction s as [|c s IH]; intros p.
  - destruct p, m; reflexivity.
  - destruct p as [|p].
    + unfold substr_from. rewrite Nat.sub_0_r, substring_all. reflexivity.
    + rewrite substr_from_cons. cbn [substring]. apply IH.
Qed.

Lemma rfind_substring (s pat : string) (p : nat) :
  rfind s pat = Some p -> substring p (String.length pat) s = pat.
Proof.
  intros H. apply rfind_prefix in H. apply prefix_correct in H.
  rewrite substring_of_substr_from in H. exact H.
Qed.

(** X15.  Which digits [make_list_template] replaces.  For a name that
    [is_multipart_file] accepts the assertion never fails.  If [000]
    occurs anywhere in the path, directory part included, its last
    occurrence becomes [%03d] and probing starts at 1, also when the
    name ends in [.001] or [001.vmdk]; only when there is no [000] is
    the last [001] replaced, and probing then starts at 2. *)
Theorem make_list_template_digits (fn : string) :
  is_multipart_file fn = true ->
  (forall p, rfind fn "000" = Some p ->
             make_list_template fn = Ok (replace fn p 3 "%03d", 1)) /\
  (rfind fn "000" = None ->
   exists p, rfind fn "001" = Some p /\
             make_list_template fn = Ok (replace fn p 3 "%03d", 2)).
Proof.
  intros Hmulti. split.
  - intros p Hp. unfold make_list_template. rewrite Hp.
    pose proof (rfind_substring fn "000" p Hp) as Hs.
    cbn [String.length] in Hs. rewrite Hs. reflexivity.
  - intros Hnone.
    destruct (make_list_template_defined fn Hmulti) as (templ & start & Hdef).
    unfold make_list_template in *. rewrite Hnone in *.
    destruct (rfind fn "001") as [p|] eqn:Hp; [|discriminate Hdef].
    exists p. split; [reflexivity|].
    pose proof (rfind_substring fn "001" p Hp) as Hs.
    cbn [String.length] in Hs. rewrite Hs. reflexivity.
Qed.

Lemma make_list_template_digits_witness :
  make_list_template "case000/img.001" = Ok ("case%03d/img.001", 1) /\
  make_list_template "disk-s001.vmdk" = Ok ("disk-s%03d.vmdk", 2).
Proof.
  split.
  - rewrite (proj1 (make_list_template_digits "case000/img.001" eq_refl) 4%nat eq_refl).
    reflexivity.
  - destruct (proj2 (make_list_template_digits "disk-s001.vmdk" eq_refl) eq_refl)
      as (p & Hp & Ht).
    rewrite Ht. vm_compute in Hp. inversion Hp; subst p. reflexivity.
Defined.

(** X16.  [fn_ends_with (path, suffix)] holds exactly when the path is
    some string followed by the suffix; in particular not when the
    suffix is longer than the path, and always for the empty suffix. *)
Theorem fn_ends_with_suffix (path suffix : string) :
  (fn_ends_with path suffix = true <-> exists pre, path = pre ++ suffix) /\
  ((String.length path < String.length suffix)%nat -> fn_ends_with path suffix = false) /\
  fn_ends_with path "" = true.
Proof.
  split; [apply fn_ends_with_iff|]. split.
  - intros Hlen. unfold fn_ends_with.
    destruct (Nat.ltb_spec (String.length path) (String.length suffix));
      [reflexivity | lia].
  - apply fn_ends_with_iff. exists path. symmetry. apply string_app_nil_r.
Qed.

Lemma rfind_final_001 (pre : string) :
  rfind (pre ++ ".001") "000" = None ->
  rfind (pre ++ ".001") "001" = Some (S (String.length pre)).
Proof.
  induction pre as [|c pre IH]; intros H; [reflexivity|].
  cbn [append rfind String.length] in *.
  destruct (rfind (pre ++ ".001") "000"); [discriminate|].
  rewrite IH by reflexivity. reflexivity.
Qed.

(** X17.  The names probed for a split image.  For a primary
    [pre.000] the template is [pre.%03d] and probing starts at 1; for a
    primary [pre.001] with no [000] in its path it is the same template
    and probing starts at 2; and when [pre] has no percent sign and the
    name fits the buffer of [PATH_MAX] bytes, the probe for [num] is
    [pre.] followed by [num] in decimal, padded with zeros to three
    digits. *)
Theorem split_probe_names (PATH_MAX : nat) (pre : string) (num : Z) :
  no_percent pre = true ->
  (String.length (pre ++ "." ++ format_03d num) <= PATH_MAX - 1)%nat ->
  make_list_template (pre ++ ".000") = Ok (pre ++ ".%03d", 1) /\
  (rfind (pre ++ ".001") "000" = None ->
   make_list_template (pre ++ ".001") = Ok (pre ++ ".%03d", 2)) /\
  snprintf PATH_MAX (pre ++ ".%03d") num = Ok (pre ++ "." ++ format_03d num).
Proof.
  intros Hpre Hfit. split; [apply make_list_template_000|]. split.
  - intros Hnone. unfold make_list_template.
    rewrite Hnone, (rfind_final_001 pre Hnone).
    replace (S (String.length pre)) with (String.length pre + 1)%nat by lia.
    rewrite substring_skip. cbn [substring]. unfold replace, substr_from.
    rewrite substring_take.
    replace (String.length pre + 1 + 3)%nat with (String.length pre + 4)%nat by lia.
    rewrite substring_skip, string_app_length.
    replace (String.length pre + String.length ".001" - (String.length pre + 4))%nat
      with O by (simpl; lia).
    cbn [substring]. rewrite string_app_assoc. reflexivity.
  - apply probe_name_000; assumption.
Qed.

Lemma split_probe_names_witness :
  snprintf 4096 "img.%03d" 7 = Ok "img.007" /\
  snprintf 4096 "img.%03d" 1234 = Ok "img.1234".
Proof.
  split.
  - exact (proj2 (proj2 (split_probe_names 4096 "img" 7 eq_refl
                           ltac:(vm_compute; lia)))).
  - exact (proj2 (proj2 (split_probe_names 4096 "img" 1234 eq_refl
                           ltac:(vm_compute; lia)))).
Defined.

Local Close Scope string_scope.

(** ** Growing the segment table *)

Lemma find_offset_app (a b : file_list_t) (o : Z) :
  find_offset (a ++ b) o =
  match find_offset a o with
  | Some fi => Some fi
  | None => find_offset b o
  end.
Proof.
  induction a as [|fi a IH]; [reflexivity|].
  cbn [app find_offset].
  destruct ((fi_offset fi <=? o) && (o <? wrap64 (fi_offset fi + fi_length fi)));
    [reflexivity | exact IH].
Qed.

Lemma sum_lengths_app (a b : file_list_t) :
  sum_lengths (a ++ b) = sum_lengths a + sum_lengths b.
Proof.
  induction a as [|fi a IH]; [reflexivity|].
  cbn [app]. unfold sum_lengths in *. cbn [fold_right]. rewrite IH. lia.
Qed.

Lemma contiguous_app (start : Z) (a b : file_list_t) :
  contiguous start a -> contiguous (start + sum_lengths a) b ->
  contiguous start (a ++ b).
Proof.
  revert start. induction a as [|fi a IH]; intros start Ha Hb.
  - cbn [app]. change (sum_lengths []) with 0 in Hb.
    rewrite Z.add_0_r in Hb. exact Hb.
  - cbn [app contiguous] in *. destruct Ha as (Hoff & Hlen & Ha).
    split; [exact Hoff|]. split; [exact Hlen|].
    apply IH; [exact Ha|].
    change (sum_lengths (fi :: a)) with (fi_length fi + sum_lengths a) in Hb.
    rewrite Z.add_assoc in Hb. exact Hb.
Qed.

(** X18.  [add_file] extends the image at its end and moves nothing.
    On a well-formed table, adding a file of [sz >= 0] bytes (the total
    staying below 2^64) gives a well-formed table whose size has grown
    by [sz]; every offset below the old size is located as before, and
    the offsets from the old size up to the new one belong to the new
    segment, which starts at the old size. *)
Theorem add_file_extends_image
        (fs : filesystem) (this : process_raw) (path : string) (sz : Z) :
  well_formed (file_list this) (raw_filesize this) ->
  path_filesize fs path = Ok sz -> 0 <= sz ->
  raw_filesize this + sz < two64 ->
  exists this',
    add_file fs this path = Ok this' /\
    raw_filesize this' = raw_filesize this + sz /\
    well_formed (file_list this') (raw_filesize this') /\
    (forall o, o < raw_filesize this ->
               find_offset (file_list this') o = find_offset (file_list this) o) /\
    (forall o, raw_filesize this <= o < raw_filesize this + sz ->
               exists fi, find_offset (file_list this') o = Some fi /\
                          fi_path fi = path /\
                          fi_offset fi = raw_filesize this /\
                          fi_length fi = sz).
Proof.
  intros Hwf Hsz Hpos Hfit.
  assert (Ht : 0 <= raw_filesize this).
  { destruct Hwf as (Hc & -> & _). apply (sum_lengths_nonneg 0 _ Hc). }
  rewrite (add_file_found fs this path sz Hsz Hpos Ht Hfit).
  eexists. split; [reflexivity|].
  cbn [with_segments file_list raw_filesize layout].
  split; [reflexivity|].
  set (new := {| fi_path := path; fi_offset := raw_filesize this; fi_length := sz;
                 fi_stream := fs_stream fs path |}).
  assert (Hnew : forall o,
             find_offset [new] o =
             if (raw_filesize this <=? o) && (o <? raw_filesize this + sz)
             then Some new else None).
  { intros o. cbn [find_offset new fi_offset fi_length].
    rewrite wrap64_small by lia. reflexivity. }
  split; [|split].
  - destruct Hwf as (Hc & Htot & Htwo). split; [|split].
    + apply contiguous_app; [exact Hc|].
      cbn [contiguous new fi_offset fi_length]. rewrite <- Htot.
      repeat split; lia.
    + rewrite sum_lengths_app, <- Htot. unfold sum_lengths.
      cbn [fold_right new fi_length]. lia.
    + exact Hfit.
  - intros o Ho. rewrite find_offset_app, Hnew.
    destruct (find_offset (file_list this) o); [reflexivity|].
    destruct (Z.leb_spec (raw_filesize this) o); [lia | reflexivity].
  - intros o Ho. exists new. rewrite find_offset_app, Hnew.
    rewrite (well_formed_outside _ _ o Hwf) by lia.
    destruct (Z.leb_spec (raw_filesize this) o); [|lia].
    destruct (Z.ltb_spec o (raw_filesize this + sz)); [|lia].
    repeat split; reflexivity.
Qed.

Lemma add_file_extends_image_witness :
  exists this',
    add_file Examples.five_parts Examples.raw_image "img.002" = Ok this' /\
    raw_filesize this' = 712.
Proof.
  destruct (add_file_extends_image Examples.five_parts Examples.raw_image
              "img.002" 512 two_segments_well_formed eq_refl
              ltac:(lia) ltac:(simpl; unfold two64; lia))
    as (this' & Hadd & Hsize & _).
  exists this'. split; [exact Hadd | rewrite Hsize; reflexivity].
Defined.

(** ** The block-hash scanner *)

Lemma is_empty_block_loop_spec (buf : list byte) (n i : nat) :
  (1 <= i)%nat -> (i + n <= List.length buf)%nat ->
  exists b,
    hashdb.is_empty_block_loop buf n i = Ok b /\
    (b = true <->
     forall j, (i <= j < i + n)%nat -> nth_error buf j = nth_error buf 0).
Proof.
  revert i. induction n as [|n IH]; intros i Hi Hlen.
  - exists true. split; [reflexivity|]. split; [intros _ j Hj; lia | reflexivity].
  - cbn [hashdb.is_empty_block_loop].
    destruct (nth_error buf i) as [b|] eqn:Hb;
      [|apply nth_error_None in Hb; lia].
    destruct (nth_error buf 0) as [b0|] eqn:Hb0;
      [|apply nth_error_None in Hb0; lia].
    destruct (Strings.Byte.eqb b b0) eqn:E.
    + apply Strings.Byte.byte_dec_bl in E. subst b0.
      destruct (IH (S i) ltac:(lia) ltac:(lia)) as (r & Hr & Hiff).
      exists r. split; [exact Hr|]. rewrite Hiff. split.
      * intros H j Hj. destruct (Nat.eq_dec j i) as [->|]; [exact Hb|].
        apply H. lia.
      * intros H j Hj. apply H. lia.
    + exists false. split; [reflexivity|]. split; [discriminate|].
      intros H. specialize (H i ltac:(lia)). rewrite Hb in H.
      inversion H; subst b0.
      rewrite (@Strings.Byte.byte_dec_lb b b eq_refl) in E. discriminate E.
Qed.

Lemma is_empty_block_enough (block_size : Z) (buf : list byte) :
  block_size <= Z.of_nat (List.length buf) ->
  exists b,
    hashdb.is_empty_block block_size buf = Ok b /\
    (b = true <->
     forall j, (1 <= j < Z.to_nat block_size)%nat ->
               nth_error buf j = nth_error buf 0).
Proof.
  intros Hlen. unfold hashdb.is_empty_block.
  destruct (Z.le_gt_cases block_size 1) as [Hsmall|Hbig].
  - replace (Z.to_nat (block_size - 1)) with O by lia.
    exists true. split; [reflexivity|]. split; [intros _ j Hj; lia | reflexivity].
  - destruct (is_empty_block_loop_spec buf (Z.to_nat (block_size - 1)) 1
                ltac:(lia) ltac:(lia)) as (b & Hb & Hiff).
    exists b. split; [exact Hb|]. rewrite Hiff.
    split; intros H j Hj; apply H; lia.
Qed.

(** X19.  [is_empty_block] on a pointer with at least [block_size]
    bytes behind it answers, and answers true exactly when every byte of
    the block equals the first; for a block size of 0 or 1 it answers
    true without reading any byte, also on an empty buffer. *)
Theorem is_empty_block_all_equal (block_size : Z) (buf : list byte) :
  block_size <= Z.of_nat (List.length buf) ->
  (exists b,
      hashdb.is_empty_block block_size buf = Ok b /\
      (b = true <->
       forall j, (j < Z.to_nat block_size)%nat -> nth_error buf j = nth_error buf 0)) /\
  (forall short : list byte,
      block_size <= 1 -> hashdb.is_empty_block block_size short = Ok true).
Proof.
  intros Hlen. split.
  - destruct (is_empty_block_enough block_size buf Hlen) as (b & Hb & Hiff).
    exists b. split; [exact Hb|]. rewrite Hiff. split.
    + intros H j Hj. destruct j as [|j]; [reflexivity|]. apply H. lia.
    + intros H j Hj. apply H. lia.
  - intros short Hsmall. unfold hashdb.is_empty_block.
    replace (Z.to_nat (block_size - 1)) with O by lia. reflexivity.
Qed.

Lemma is_empty_block_all_equal_witness :
  hashdb.is_empty_block 4 [x00; x00; x00; x00; x01] = Ok true /\
  hashdb.is_empty_block 5 [x00; x00; x00; x00; x01] = Ok false.
Proof.
  split.
  - destruct (proj1 (is_empty_block_all_equal 4 [x00; x00; x00; x00; x01]
                       ltac:(simpl; lia))) as (b & Hb & Hiff).
    rewrite Hb. f_equal. apply Hiff.
    intros j Hj. do 4 (destruct j as [|j]; [reflexivity|]). simpl in Hj. lia.
  - destruct (proj1 (is_empty_block_all_equal 5 [x00; x00; x00; x00; x01]
                       ltac:(simpl; lia))) as (b & Hb & Hiff).
    rewrite Hb. f_equal. destruct b; [|reflexivity].
    specialize (proj1 Hiff eq_refl 4%nat ltac:(simpl; lia)). discriminate.
Defined.

(** The trimming loop stops at the last count whose final block ends
    within the page. *)
Lemma trim_count_spec (sector_size block_size pagesize_ bufsize : Z) :
  0 < sector_size <= block_size -> block_size <= pagesize_ ->
  bufsize + block_size < two64 ->
  forall (fuel : nat) (count : Z),
    0 <= count -> count * sector_size <= bufsize ->
    count < Z.of_nat fuel ->
    hashdb.trim_count fuel sector_size block_size pagesize_ count =
    Some (Z.min count ((pagesize_ - block_size) / sector_size + 1)).
Proof.
  intros Hs Hb Hfit.
  set (q := (pagesize_ - block_size) / sector_size).
  pose proof (Z.div_mod (pagesize_ - block_size) sector_size ltac:(lia)) as Hdm.
  pose proof (Z.mod_pos_bound (pagesize_ - block_size) sector_size ltac:(lia)) as Hmod.
  fold q in Hdm.
  assert (Hq : 0 <= q) by (apply Z.div_pos; lia).
  induction fuel as [|fuel IH]; intros count Hc Hcs Hfuel; [lia|].
  cbn [hashdb.trim_count].
  rewrite (wrap64_small (count * sector_size)) by nia.
  rewrite (wrap64_small (block_size - sector_size)) by lia.
  rewrite wrap64_small by nia.
  destruct (Z.gtb_spec (count * sector_size + (block_size - sector_size)) pagesize_)
    as [Hgt|Hle].
  - assert (Hcq : q + 1 < count) by nia.
    rewrite (wrap64_small (count - 1)) by nia.
    rewrite IH by nia. f_equal. lia.
  - f_equal. assert (count <= q + 1) by nia. lia.
Qed.

(** X20.  The number of blocks [do_scan] and [do_import] process.  For
    a sector size above zero and not above the block size, on a page of
    at least one block, the trimming loop ends at
    [min (bufsize / sector, (pagesize - block) / sector + 1)], at least
    1, without ever wrapping below zero; every block counted, the one at
    [i * sector] for [i < count], ends within the usable page; and if
    the count was trimmed the next block would not. *)
Theorem block_count_within_page
        (fuel : nat) (sector_size block_size : Z) (sbuf : sbuf_t) :
  0 < sector_size <= block_size ->
  block_size <= sbuf_pagesize sbuf <= sbuf_bufsize sbuf ->
  sbuf_bufsize sbuf + block_size < two64 ->
  sbuf_bufsize sbuf / sector_size < Z.of_nat fuel ->
  exists count,
    hashdb.block_count fuel sector_size block_size sbuf = Some (Ok count) /\
    count = Z.min (sbuf_bufsize sbuf / sector_size)
                  ((sbuf_pagesize sbuf - block_size) / sector_size + 1) /\
    1 <= count /\
    (forall i, 0 <= i < count -> i * sector_size + block_size <= sbuf_pagesize sbuf) /\
    (count < sbuf_bufsize sbuf / sector_size ->
     sbuf_pagesize sbuf < count * sector_size + block_size).
Proof.
  intros Hs Hp Hfit Hfuel.
  pose proof (Z.div_mod (sbuf_bufsize sbuf) sector_size ltac:(lia)) as Hdm0.
  pose proof (Z.mod_pos_bound (sbuf_bufsize sbuf) sector_size ltac:(lia)) as Hmod0.
  pose proof (Z.div_mod (sbuf_pagesize sbuf - block_size) sector_size ltac:(lia)) as Hdm.
  pose proof (Z.mod_pos_bound (sbuf_pagesize sbuf - block_size) sector_size ltac:(lia))
    as Hmod.
  set (c0 := sbuf_bufsize sbuf / sector_size) in *.
  set (q := (sbuf_pagesize sbuf - block_size) / sector_size) in *.
  assert (Hc0 : 1 <= c0) by nia.
  assert (Hq : 0 <= q) by nia.
  exists (Z.min c0 (q + 1)).
  split; [|split; [reflexivity|split; [lia|split]]].
  - unfold hashdb.block_count.
    destruct (Z.eqb_spec sector_size 0); [lia|].
    fold c0.
    rewrite (trim_count_spec sector_size block_size (sbuf_pagesize sbuf)
                             (sbuf_bufsize sbuf)) by (try assumption; try lia; nia).
    fold q. reflexivity.
  - intros i Hi. nia.
  - intros Htrim. nia.
Qed.

Lemma block_count_within_page_witness :
  hashdb.block_count 200 512 4096
    {| sbuf_pos0 := {| pos0_path := ""; pos0_offset := 0 |};
       sbuf_bufsize := 80000; sbuf_pagesize := 65536; sbuf_buf := [] |}
  = Some (Ok 121).
Proof.
  destruct (block_count_within_page 200 512 4096
              {| sbuf_pos0 := {| pos0_path := ""; pos0_offset := 0 |};
                 sbuf_bufsize := 80000; sbuf_pagesize := 65536; sbuf_buf := [] |}
              ltac:(lia) ltac:(simpl; lia) ltac:(simpl; unfold two64; lia)
              ltac:(vm_compute; reflexivity))
    as (count & Hc & Heq & _).
  rewrite Hc, Heq. reflexivity.
Defined.

Lemma phase_init_scan (s : hashdb.settings) :
  hashdb.phase_init s = hashdb.Initialized hashdb.MODE_SCAN ->
  hashdb.hashdb_mode s = "scan"%string /\
  hashdb.hashdb_block_size s <> 0 /\
  hashdb.hashdb_scan_sector_size s <> 0 /\
  hashdb.hashdb_import_sector_size s <> 0 /\
  hashdb.hashdb_block_size s mod hashdb.hashdb_scan_sector_size s = 0.
Proof.
  unfold hashdb.phase_init.
  destruct (String.eqb_spec (hashdb.hashdb_mode s) "none") as [|_].
  { repeat match goal with
           | |- context [if ?c then _ else _] => destruct c
           end; discriminate. }
  destruct (String.eqb_spec (hashdb.hashdb_mode s) "import") as [|_].
  { repeat match goal with
           | |- context [if ?c then _ else _] => destruct c
           end; discriminate. }
  destruct (String.eqb_spec (hashdb.hashdb_mode s) "scan") as [Hmode|_];
    [|discriminate].
  destruct (Z.eqb_spec (hashdb.hashdb_block_size s) 0); [discriminate|].
  destruct (Z.eqb_spec (hashdb.hashdb_scan_sector_size s) 0); [discriminate|].
  cbn [andb].
  destruct (Z.eqb_spec (hashdb.hashdb_block_size s mod hashdb.hashdb_scan_sector_size s) 0);
    [|discriminate].
  cbn [negb].
  destruct (Z.eqb_spec (hashdb.hashdb_import_sector_size s) 0); [discriminate|].
  intros _. repeat split; assumption.
Qed.

(** The loop of [do_scan] computes the kept offsets and the hashes of
    their blocks, in step. *)
Lemma scan_loop_spec (hash_t : Type) (hash_buf : list byte -> hash_t)
      (s : hashdb.settings) (buf : list byte) :
  0 < hashdb.hashdb_scan_sector_size s ->
  Z.of_nat (List.length buf) < two64 ->
  forall (n i : nat) (scan_input : list hash_t) (table : list Z),
    (forall j, (i <= j < i + n)%nat ->
               Z.of_nat j * hashdb.hashdb_scan_sector_size s +
               hashdb.hashdb_block_size s <= Z.of_nat (List.length buf)) ->
    0 <= hashdb.hashdb_block_size s ->
    hashdb.scan_loop hash_t hash_buf s buf n (Z.of_nat i) scan_input table =
    Ok (scan_input ++
          map (fun off => hash_buf (slice buf off (hashdb.hashdb_block_size s)))
              (kept_offsets s buf i n),
        table ++ kept_offsets s buf i n).
Proof.
  intros Hsec Hlen. induction n as [|n IH]; intros i scan_input table Hin Hbs.
  - cbn. rewrite !app_nil_r. reflexivity.
  - cbn [hashdb.scan_loop].
    set (off := Z.of_nat i * hashdb.hashdb_scan_sector_size s).
    pose proof (Hin i ltac:(lia)) as Hi. fold off in Hi.
    assert (Hoff : 0 <= off) by (unfold off; nia).
    rewrite (wrap64_small off) by lia.
    assert (Hrest : hashdb.hashdb_block_size s <=
                    Z.of_nat (List.length (skipn (Z.to_nat off) buf)))
      by (rewrite length_skipn; lia).
    assert (Hblock : hashdb.block_at buf off (hashdb.hashdb_block_size s) =
                     Some (slice buf off (hashdb.hashdb_block_size s))).
    { unfold hashdb.block_at.
      destruct (Z.leb_spec (hashdb.hashdb_block_size s)
                           (Z.of_nat (List.length (skipn (Z.to_nat off) buf))));
        [reflexivity | lia]. }
    assert (Hseq : kept_offsets s buf i (S n) =
                   if kept_block s buf off
                   then off :: kept_offsets s buf (S i) n
                   else kept_offsets s buf (S i) n).
    { unfold kept_offsets, sector_offsets. cbn [seq map filter]. reflexivity. }
    replace (Z.of_nat i + 1) with (Z.of_nat (S i)) by lia.
    assert (Hnext : forall j, (S i <= j < S i + n)%nat ->
               Z.of_nat j * hashdb.hashdb_scan_sector_size s +
               hashdb.hashdb_block_size s <= Z.of_nat (List.length buf))
      by (intros j Hj; apply Hin; lia).
    rewrite Hseq. unfold kept_block.
    destruct (hashdb.hashdb_ignore_empty_blocks s).
    + destruct (is_empty_block_enough _ _ Hrest) as (b & Hb & _).
      rewrite Hb. cbn [bind]. destruct b.
      * apply IH; assumption.
      * rewrite Hblock, IH by assumption.
        cbn [map]. rewrite <- !app_assoc. reflexivity.
    + cbn [bind]. rewrite Hblock, IH by assumption.
      cbn [map]. rewrite <- !app_assoc. reflexivity.
Qed.

Lemma StronglySorted_filter {A : Type} (R : A -> A -> Prop) (f : A -> bool)
      (l : list A) :
  StronglySorted R l -> StronglySorted R (filter f l).
Proof.
  induction 1 as [|a l Hsorted IH Hall]; cbn [filter]; [constructor|].
  destruct (f a); [|exact IH].
  constructor; [exact IH|].
  apply Forall_forall. intros x Hx. apply filter_In in Hx.
  destruct Hx as [Hx _]. revert x Hx. apply Forall_forall. exact Hall.
Qed.

Lemma sector_offsets_sorted (s : hashdb.settings) :
  0 < hashdb.hashdb_scan_sector_size s ->
  forall n i, StronglySorted Z.lt (sector_offsets s i n).
Proof.
  intros Hsec. unfold sector_offsets.
  induction n as [|n IH]; intros i; cbn [seq map]; constructor.
  - apply IH.
  - apply Forall_forall. intros off Hoff. apply in_map_iff in Hoff.
    destruct Hoff as (j & <- & Hj). apply in_seq in Hj. nia.
Qed.

Lemma sector_offsets_In (s : hashdb.settings) (n : nat) (off : Z) :
  In off (sector_offsets s 0 n) <->
  exists i, 0 <= i < Z.of_nat n /\ off = i * hashdb.hashdb_scan_sector_size s.
Proof.
  unfold sector_offsets. rewrite in_map_iff. split.
  - intros (j & <- & Hj). apply in_seq in Hj. exists (Z.of_nat j). lia.
  - intros (i & Hi & ->). exists (Z.to_nat i). split.
    + rewrite Z2Nat.id by lia. reflexivity.
    + apply in_seq. lia.
Qed.

(** X21.  What [do_scan] sends to the database.  With settings that
    [PHASE_INIT] accepted in scan mode, on a page whose buffer holds
    [bufsize] bytes, the scan input and the offset lookup table are
    built in step and never read outside the buffer.  The table is
    [expected_table]: it holds, in increasing order, exactly the sector
    boundaries [i * sector_size] whose block ends within the usable page
    and is not skipped as empty, none left out and none added; the scan
    input holds at the same index the hash of the block at that offset;
    a page shorter than one block sends nothing. *)
Theorem do_scan_input_aligned
        (hash_t : Type) (hash_buf : list byte -> hash_t)
        (fuel : nat) (s : hashdb.settings) (sbuf : sbuf_t) :
  hashdb.phase_init s = hashdb.Initialized hashdb.MODE_SCAN ->
  0 <= hashdb.hashdb_block_size s -> 0 <= hashdb.hashdb_scan_sector_size s ->
  Z.of_nat (List.length (sbuf_buf sbuf)) = sbuf_bufsize sbuf ->
  0 <= sbuf_pagesize sbuf <= sbuf_bufsize sbuf ->
  sbuf_bufsize sbuf + hashdb.hashdb_block_size s < two64 ->
  sbuf_bufsize sbuf / hashdb.hashdb_scan_sector_size s < Z.of_nat fuel ->
  hashdb.do_scan_input hash_t hash_buf fuel s sbuf =
    Some (Ok (map (fun off => hash_buf (slice (sbuf_buf sbuf) off
                                             (hashdb.hashdb_block_size s)))
                  (expected_table s sbuf),
              expected_table s sbuf)) /\
  (forall off,
      In off (expected_table s sbuf) <->
      exists i, 0 <= i /\ off = i * hashdb.hashdb_scan_sector_size s /\
                off + hashdb.hashdb_block_size s <= sbuf_pagesize sbuf /\
                kept_block s (sbuf_buf sbuf) off = true) /\
  StronglySorted Z.lt (expected_table s sbuf) /\
  (sbuf_pagesize sbuf < hashdb.hashdb_block_size s -> expected_table s sbuf = []).
Proof.
  intros Hinit Hbs Hss Hlen Hp Hfit Hfuel.
  destruct (phase_init_scan s Hinit) as (_ & Hb0 & Hs0 & _ & Hdiv).
  unfold expected_table, blocks_in_page.
  set (sector := hashdb.hashdb_scan_sector_size s) in *.
  set (block := hashdb.hashdb_block_size s) in *.
  assert (Hspos : 0 < sector) by lia.
  assert (Hle : sector <= block).
  { pose proof (Z.div_mod block sector ltac:(lia)) as Hdm. rewrite Hdiv in Hdm.
    assert (0 < block / sector) by nia. nia. }
  assert (Hsorted : forall n, StronglySorted Z.lt (kept_offsets s (sbuf_buf sbuf) 0 n)).
  { intros n. apply StronglySorted_filter. apply sector_offsets_sorted. exact Hspos. }
  unfold hashdb.do_scan_input. fold block sector.
  destruct (Z.ltb_spec (sbuf_pagesize sbuf) block) as [Hshort|Hlong].
  - split; [reflexivity|]. split; [|split; [constructor | reflexivity]].
    intros off. cbn. split; [intros []|].
    intros (i & Hi & -> & Hend & _). nia.
  - pose proof (Z.div_mod (sbuf_bufsize sbuf) sector ltac:(lia)) as Hdm0.
    pose proof (Z.mod_pos_bound (sbuf_bufsize sbuf) sector ltac:(lia)) as Hmod0.
    pose proof (Z.div_mod (sbuf_pagesize sbuf - block) sector ltac:(lia)) as Hdm.
    pose proof (Z.mod_pos_bound (sbuf_pagesize sbuf - block) sector ltac:(lia)) as Hmod.
    set (c0 := sbuf_bufsize sbuf / sector) in *.
    set (q := (sbuf_pagesize sbuf - block) / sector) in *.
    assert (Hc0 : 1 <= c0) by nia.
    assert (Hq : 0 <= q) by nia.
    assert (Hmin : Z.min c0 (q + 1) = q + 1) by nia.
    split; [|split; [|split; [apply Hsorted | intros Habs; lia]]].
    + unfold hashdb.block_count.
      destruct (Z.eqb_spec sector 0); [lia|]. fold c0.
      rewrite (trim_count_spec sector block (sbuf_pagesize sbuf) (sbuf_bufsize sbuf))
        by (try assumption; try lia; nia).
      fold q. rewrite Hmin.
      pose proof (scan_loop_spec hash_t hash_buf s (sbuf_buf sbuf) Hspos ltac:(lia)
                                 (Z.to_nat (q + 1)) 0 [] []) as Hloop.
      change (Z.of_nat 0) with 0 in Hloop.
      rewrite Hloop.
      * reflexivity.
      * intros j Hj. fold sector block. rewrite Hlen.
        assert (Z.of_nat j * sector + block <= sbuf_pagesize sbuf) by nia. lia.
      * exact Hbs.
    + intros off. unfold kept_offsets. rewrite filter_In, sector_offsets_In.
      fold sector. split.
      * intros ((i & Hi & ->) & Hkept). exists i.
        split; [lia|]. split; [reflexivity|]. split; [nia | exact Hkept].
      * intros (i & Hi & -> & Hend & Hkept). split; [|exact Hkept].
        exists i. split; [|reflexivity]. nia.
Qed.

Lemma do_scan_input_aligned_witness :
  hashdb.do_scan_input (list byte) (fun b => b) 8
    {| hashdb.hashdb_mode := "scan"; hashdb.hashdb_block_size := 4;
       hashdb.hashdb_ignore_empty_blocks := true;
       hashdb.hashdb_scan_sector_size := 2;
       hashdb.hashdb_import_sector_size := 4 |}
    {| sbuf_pos0 := {| pos0_path := ""; pos0_offset := 0 |};
       sbuf_bufsize := 10; sbuf_pagesize := 8;
       sbuf_buf := [x00; x00; x00; x00; x00; x01; x02; x03; x04; x05] |}
  = Some (Ok ([[x00; x00; x00; x01]; [x00; x01; x02; x03]], [2; 4])).
Proof.
  destruct (do_scan_input_aligned (list byte) (fun b => b) 8
              {| hashdb.hashdb_mode := "scan"; hashdb.hashdb_block_size := 4;
                 hashdb.hashdb_ignore_empty_blocks := true;
                 hashdb.hashdb_scan_sector_size := 2;
                 hashdb.hashdb_import_sector_size := 4 |}
              {| sbuf_pos0 := {| pos0_path := ""; pos0_offset := 0 |};
                 sbuf_bufsize := 10; sbuf_pagesize := 8;
                 sbuf_buf := [x00; x00; x00; x00; x00; x01; x02; x03; x04; x05] |}
              eq_refl ltac:(simpl; lia) ltac:(simpl; lia) eq_refl
              ltac:(simpl; lia) ltac:(simpl; unfold two64; lia)
              ltac:(vm_compute; reflexivity))
    as (Hres & _).
  rewrite Hres. reflexivity.
Defined.

(** ** Split images: the files [open] finds *)

Local Open Scope string_scope.

(** The last occurrence of a pattern that starts the tail of a path and
    does not occur later in it. *)
Lemma rfind_at_end (pre tail pat : string) :
  rfind tail pat = Some O ->
  rfind (pre ++ tail) pat = Some (String.length pre).
Proof.
  intros Htail. induction pre as [|c pre IH]; [exact Htail|].
  cbn [append rfind String.length]. rewrite IH. reflexivity.
Qed.

(** Cutting three characters out of a path and putting the directive in
    their place. *)
Lemma replace_digits (pre d suf : string) :
  String.length d = 3%nat ->
  substring (String.length pre) 3 (pre ++ d ++ suf) = d /\
  replace (pre ++ d ++ suf) (String.length pre) 3 "%03d" = pre ++ "%03d" ++ suf.
Proof.
  intros Hd.
  destruct d as [|a [|b [|c [|? ?]]]]; try discriminate Hd. clear Hd.
  split.
  - replace (String.length pre) with (String.length pre + 0)%nat at 1 by lia.
    rewrite substring_skip. cbn [append substring]. destruct suf; reflexivity.
  - unfold replace, substr_from. f_equal.
    + replace (String.length pre) with (String.length pre + 0)%nat at 1 by lia.
      rewrite substring_take. cbn [substring]. apply string_app_nil_r.
    + f_equal. rewrite substring_skip, string_app_length.
      cbn [append String.length substring].
      replace (String.length pre + S (S (S (String.length suf))) -
               (String.length pre + 3))%nat
        with (String.length suf) by lia.
      apply substring_all.
Qed.

(** The template and the first probe for the primaries of the
    split-file convention. *)
Lemma split_family_template (pre suf : string) (k : Z) :
  split_family pre suf k ->
  is_multipart_file (numbered pre suf k) = true /\
  make_list_template (numbered pre suf k) = Ok (pre ++ "%03d" ++ suf, k + 1).
Proof.
  intros [(-> & -> & stem & ->) | (-> & Hnone & Hsuf)].
  - unfold numbered. change (format_03d 0) with "000". split.
    + unfold is_multipart_file.
      replace (fn_ends_with ((stem ++ ".") ++ "000" ++ "") ".000") with true;
        [reflexivity|].
      symmetry. apply fn_ends_with_iff. exists stem.
      rewrite string_app_assoc. reflexivity.
    + destruct (replace_digits (stem ++ ".") "000" "" eq_refl) as [Hcut Hrep].
      unfold make_list_template.
      rewrite (rfind_at_end (stem ++ ".") ("000" ++ "") "000" eq_refl).
      rewrite Hcut, Hrep. reflexivity.
  - unfold numbered in *. change (format_03d 1) with "001" in *.
    assert (Hlast : rfind (pre ++ "001" ++ suf) "001" = Some (String.length pre)).
    { apply rfind_at_end. destruct Hsuf as [-> | [-> _]]; reflexivity. }
    split.
    + unfold is_multipart_file. destruct Hsuf as [-> | (-> & stem & ->)].
      * replace (fn_ends_with (pre ++ "001" ++ ".vmdk") "001.vmdk") with true;
          [apply orb_true_r|].
        symmetry. apply fn_ends_with_iff. exists pre. reflexivity.
      * replace (fn_ends_with ((stem ++ ".") ++ "001" ++ "") ".001") with true;
          [rewrite orb_true_r; reflexivity|].
        symmetry. apply fn_ends_with_iff. exists stem.
        rewrite string_app_assoc. reflexivity.
    + destruct (replace_digits pre "001" suf eq_refl) as [Hcut Hrep].
      unfold make_list_template. rewrite Hnone, Hlast, Hcut, Hrep. reflexivity.
Qed.

(** The probe made from the template of a family is the file of that
    number, when the name has no percent sign and fits the buffer. *)
Lemma snprintf_numbered (PATH_MAX : nat) (pre suf : string) (n : Z) :
  no_percent pre = true -> no_percent suf = true ->
  (String.length (numbered pre suf n) <= PATH_MAX - 1)%nat ->
  snprintf PATH_MAX (pre ++ "%03d" ++ suf) n = Ok (numbered pre suf n).
Proof.
  intros Hpre Hsuf Hfit. unfold snprintf.
  rewrite (vformat_plain pre _ _ Hpre). cbn [append vformat Ascii.eqb Bool.eqb andb].
  pose proof (vformat_plain suf "" None Hsuf) as Hplain.
  rewrite !string_app_nil_r in Hplain. cbn [vformat bind] in Hplain.
  rewrite string_app_nil_r in Hplain. rewrite Hplain. cbn [bind].
  fold (numbered pre suf n). rewrite substring_whole by exact Hfit. reflexivity.
Qed.

Lemma numbered_from_length (pre suf : string) (count : nat) (first : Z) :
  List.length (numbered_from pre suf first count) = count.
Proof.
  revert first. induction count as [|count IH]; intros first; [reflexivity|].
  cbn [numbered_from List.length]. rewrite IH. reflexivity.
Qed.

Lemma probes_numbered (PATH_MAX : nat) (fs : filesystem) (pre suf : string) :
  no_percent pre = true -> no_percent suf = true ->
  forall (count : nat) (first : Z),
    Forall (fun name => (String.length name <= PATH_MAX - 1)%nat)
           (numbered_from pre suf first count) ->
    Forall (fun name => fs_exists fs name = true)
           (numbered_from pre suf first count) ->
    probes_present PATH_MAX fs (pre ++ "%03d" ++ suf) first
                   (numbered_from pre suf first count).
Proof.
  intros Hpre Hsuf. induction count as [|count IH]; intros first Hfit Hex;
    cbn [numbered_from probes_present]; [exact I|].
  cbn [numbered_from] in Hfit, Hex.
  inversion Hfit as [|? ? Hfit1 Hfit']; subst.
  inversion Hex as [|? ? Hex1 Hex']; subst.
  split; [apply snprintf_numbered; assumption|].
  split; [exact Hex1 | apply IH; assumption].
Qed.

(** C3.  A split image on which [process_raw::open] leaves out the
    sibling numbered after the primary.  The primary
    [case000/img.001] ends in [.001], its sibling [case000/img.002]
    exists and [case000/img.003] does not.  [make_list_template] looks
    for [000] in the whole path before it looks for [001], so it turns
    the directory name into the directive and starts at 1; the only
    probe is [case001/img.001], which does not exist, and the segment
    table holds the primary alone: 512 bytes, where the image has
    1024. *)
Theorem open_misses_numbered_sibling :
  is_multipart_file "case000/img.001" = true /\
  numbered "case000/img." "" 2 = "case000/img.002" /\
  fs_exists Examples.case000 "case000/img.002" = true /\
  path_filesize Examples.case000 "case000/img.002" = Ok 512%Z /\
  fs_exists Examples.case000 "case000/img.003" = false /\
  make_list_template "case000/img.001" = Ok ("case%03d/img.001", 1%Z) /\
  snprintf 4096 "case%03d/img.001" 1 = Ok "case001/img.001" /\
  fs_exists Examples.case000 "case001/img.001" = false /\
  exists r,
    process_raw_open 4096 Examples.case000 8
                     (new_process_raw "case000/img.001" 65536 4096) = Some (Ok r) /\
    map fi_path (file_list r) = ["case000/img.001"] /\
    raw_filesize r = 512%Z.
Proof.
  repeat (split; [reflexivity|]).
  eexists. split; [vm_compute; reflexivity|]. split; reflexivity.
Qed.

(** X22.  The siblings [process_raw::open] adds.  For a primary
    [stem.000], or a primary [stem.001] or [pre001.vmdk] with no [000]
    anywhere in its path, whose name has no percent sign: when the
    files numbered after the primary exist up to some number and the
    next one is missing (the names fitting the buffer of [PATH_MAX]
    bytes), [open] returns with a segment table that holds exactly the
    primary and those files in order, each segment starting at the
    running total of the lengths before it, and [raw_filesize] is the
    sum of the lengths.  The total is taken to fit [uint64_t] and the
    numbers to fit [int]. *)
Theorem open_adds_numbered_siblings
        (PATH_MAX : nat) (fs : filesystem) (pre suf : string) (k ps mg : Z)
        (size0 : Z) (sizes : list Z) (fuel : nat) :
  let fname := numbered pre suf k in
  let sibs := numbered_from pre suf (k + 1) (List.length sizes) in
  let next := numbered pre suf (k + 1 + Z.of_nat (List.length sizes)) in
  split_family pre suf k ->
  no_percent pre = true -> no_percent suf = true ->
  Forall (fun name => (String.length name <= PATH_MAX - 1)%nat) (next :: sibs) ->
  Forall (fun name => fs_exists fs name = true) sibs ->
  fs_exists fs next = false ->
  sizes_found fs (fname :: sibs) (size0 :: sizes) ->
  (sum_sizes (size0 :: sizes) < two64)%Z ->
  (k + 1 + Z.of_nat (List.length sizes) <= 2 ^ 31 - 1)%Z ->
  (List.length sizes < fuel)%nat ->
  exists r,
    process_raw_open PATH_MAX fs fuel (new_process_raw fname ps mg) = Some (Ok r) /\
    map fi_path (file_list r) = fname :: sibs /\
    file_list r = layout fs 0 (fname :: sibs) (size0 :: sizes) /\
    contiguous 0 (file_list r) /\
    raw_filesize r = sum_lengths (file_list r) /\
    raw_filesize r = sum_sizes (size0 :: sizes).
Proof.
  intros fname sibs next Hfam Hpre Hsuf Hfit Hex Hmiss Hsizes Htotal Hint Hfuel.
  destruct (split_family_template pre suf k Hfam) as [Hmulti Htempl].
  inversion Hfit as [|? ? Hfit_next Hfit_sibs]; subst.
  assert (Hlen : List.length sibs = List.length sizes)
    by apply numbered_from_length.
  destruct (open_builds_segment_table PATH_MAX fs fname ps mg
              (pre ++ "%03d" ++ suf) (k + 1)%Z sibs next size0 sizes fuel)
    as (r & Hopen & Hfl & Hpaths & Hc & Hsum & Htot & _); try assumption.
  - apply probes_numbered; assumption.
  - rewrite Hlen. apply snprintf_numbered; assumption.
  - rewrite Hlen. exact Hint.
  - rewrite Hlen. exact Hfuel.
  - exists r. repeat split; assumption.
Qed.

(** The split image [img.000] .. [img.004] of the specification: five
    segments, 2148 bytes; and the same files opened from [img.001]:
    four segments. *)
Lemma open_adds_numbered_siblings_witness :
  (exists r,
      process_raw_open 4096 Examples.five_parts 8
                       (new_process_raw "img.000" 64 16) = Some (Ok r) /\
      map fi_path (file_list r) =
        ["img.000"; "img.001"; "img.002"; "img.003"; "img.004"] /\
      raw_filesize r = 2148%Z) /\
  (exists r,
      process_raw_open 4096 Examples.five_parts 8
                       (new_process_raw "img.001" 64 16) = Some (Ok r) /\
      map fi_path (file_list r) = ["img.001"; "img.002"; "img.003"; "img.004"] /\
      raw_filesize r = 1636%Z).
Proof.
  split.
  - destruct (open_adds_numbered_siblings 4096 Examples.five_parts "img." "" 0 64 16
                512 [512; 512; 512; 100]%Z 8)
      as (r & Hopen & Hpaths & _ & _ & _ & Htotal).
    + left. split; [reflexivity|]. split; [reflexivity|]. exists "img". reflexivity.
    + reflexivity.
    + reflexivity.
    + repeat (constructor; [apply Nat.leb_le; reflexivity|]). constructor.
    + repeat constructor.
    + reflexivity.
    + repeat constructor; discriminate.
    + reflexivity.
    + simpl. lia.
    + simpl. lia.
    + exists r. split; [exact Hopen|]. split; [exact Hpaths | exact Htotal].
  - destruct (open_adds_numbered_siblings 4096 Examples.five_parts "img." "" 1 64 16
                512 [512; 512; 100]%Z 8)
      as (r & Hopen & Hpaths & _ & _ & _ & Htotal).
    + right. split; [reflexivity|]. split; [reflexivity|]. right.
      split; [reflexivity|]. exists "img". reflexivity.
    + reflexivity.
    + reflexivity.
    + repeat (constructor; [apply Nat.leb_le; reflexivity|]). constructor.
    + repeat constructor.
    + reflexivity.
    + repeat constructor; discriminate.
    + reflexivity.
    + simpl. lia.
    + simpl. lia.
    + exists r. split; [exact Hopen|]. split; [exact Hpaths | exact Htotal].
Defined.

Local Close Scope string_scope.
